(** * Union-find with path compression and union by rank (union_find.c)

    A shallow embedding of the disjoint-set program: the two global [int]
    arrays [parent] and [rank], the counter [component_count], the
    functions [find], [union_sets], [initialize] and the query loop of
    [main] with its XOR accumulator [F].

    Array accesses are bounds checked: an access outside the array is the
    error [OutOfBounds] (undefined behaviour in C).  The recursion of
    [find] carries fuel, one unit more than there are array cells, which
    a walk over an acyclic parent chain never uses up. *)

From stdpp Require Import base list gmap strings pretty.
From Stdlib Require Import ZArith Lia Ascii.

Local Open Scope Z_scope.

(** ** Machine integers *)

Module CInt.

Definition INT_MIN : Z := - 2 ^ 31.
Definition INT_MAX : Z := 2 ^ 31 - 1.
Definition LLONG_MIN : Z := - 2 ^ 63.
Definition LLONG_MAX : Z := 2 ^ 63 - 1.

(** Two's complement wrap-around to [w] bits, signed. *)
Definition wrap (w : Z) (z : Z) : Z :=
  (z + 2 ^ (w - 1)) mod 2 ^ w - 2 ^ (w - 1).

Definition wrap32 : Z -> Z := wrap 32.
Definition wrap64 : Z -> Z := wrap 64.

Definition is_int (z : Z) : Prop := INT_MIN <= z <= INT_MAX.
Definition is_llong (z : Z) : Prop := LLONG_MIN <= z <= LLONG_MAX.

End CInt.
Export CInt.

(** ** Outcomes of a bounds-checked run *)

Inductive error : Type :=
| OutOfBounds      (* an index outside [parent] / [rank] *)
| OutOfFuel        (* [find] recursed more often than there are cells *)
| DivisionByZero   (* [% N] with [N = 0], or [LLONG_MIN % -1] *)
| InputExhausted.  (* [scanf] found no further pair *)

Inductive outcome (A : Type) : Type :=
| Ok (a : A)
| Err (e : error).
Arguments Ok {A} a.
Arguments Err {A} e.

#[export] Instance outcome_ret : MRet outcome := fun _ a => Ok a.
#[export] Instance outcome_bind : MBind outcome := fun _ _ k m =>
  match m with
  | Ok a => k a
  | Err e => Err e
  end.

(** ** The global arrays *)

Definition in_bounds (a : list Z) (i : Z) : bool :=
  (0 <=? i) && (i <? Z.of_nat (length a)).

(** [a[i]] as an r-value. *)
Definition rd (a : list Z) (i : Z) : outcome Z :=
  if in_bounds a i then
    match a !! Z.to_nat i with
    | Some v => Ok v
    | None => Err OutOfBounds
    end
  else Err OutOfBounds.

(** [a[i] = v]. *)
Definition wr (a : list Z) (i : Z) (v : Z) : outcome (list Z) :=
  if in_bounds a i then Ok (<[Z.to_nat i := v]> a) else Err OutOfBounds.

Record uf_state : Type := mkState {
  parent : list Z;
  rank : list Z;
  component_count : Z
}.

Definition set_parent (st : uf_state) (p : list Z) : uf_state :=
  mkState p (rank st) (component_count st).
Definition set_rank (st : uf_state) (r : list Z) : uf_state :=
  mkState (parent st) r (component_count st).
Definition set_count (st : uf_state) (c : Z) : uf_state :=
  mkState (parent st) (rank st) c.

(** The arrays are declared with 100005 cells. *)
Definition CAPACITY : nat := Z.to_nat 100005.

(** Globals are zero-initialised. *)
Definition globals (cap : nat) : uf_state :=
  mkState (replicate cap 0) (replicate cap 0) 0.

(** ** find *)

Fixpoint find_fuel (fuel : nat) (st : uf_state) (x : Z) : outcome (uf_state * Z) :=
  match fuel with
  | O => Err OutOfFuel
  | S fuel' =>
      px ← rd (parent st) x;
      st1 ← (if negb (px =? x) then
                px' ← rd (parent st) x;
                '(st', r) ← find_fuel fuel' st px';
                p' ← wr (parent st') x r;
                Ok (set_parent st' p')
              else Ok st);
      v ← rd (parent st1) x;
      Ok (st1, v)
  end.

(** A walk over distinct cells makes at most [length parent] calls, and
    one more call finds the root, an index outside the array, or a cell
    seen before; only in the last case, where the recursion of the C
    function never ends, is the fuel used up. *)
Definition find (st : uf_state) (x : Z) : outcome (uf_state * Z) :=
  find_fuel (S (length (parent st))) st x.

(** ** union_sets *)

Definition union_sets (st : uf_state) (x y : Z) : outcome uf_state :=
  '(st1, rootX) ← find st x;
  '(st2, rootY) ← find st1 y;
  if negb (rootX =? rootY) then
    rkX ← rd (rank st2) rootX;
    rkY ← rd (rank st2) rootY;
    st3 ← (if rkX >? rkY then
              p ← wr (parent st2) rootY rootX;
              Ok (set_parent st2 p)
            else if rkX <? rkY then
              p ← wr (parent st2) rootX rootY;
              Ok (set_parent st2 p)
            else
              p ← wr (parent st2) rootY rootX;
              r ← wr (rank st2) rootX (wrap32 (rkX + 1));
              Ok (mkState p r (component_count st2)));
    Ok (set_count st3 (wrap32 (component_count st3 - 1)))
  else Ok st2.

(** ** initialize *)

Fixpoint init_loop (k : nat) (i : Z) (st : uf_state) : outcome uf_state :=
  match k with
  | O => Ok st
  | S k' =>
      p ← wr (parent st) i i;
      r ← wr (rank st) i 0;
      init_loop k' (i + 1) (mkState p r (component_count st))
  end.

Definition initialize (st : uf_state) (n : Z) : outcome uf_state :=
  init_loop (Z.to_nat n) 0 (set_count st n).

(** ** main *)

(** The [%] of C on [long long]: truncated remainder. *)
Definition c_rem (a b : Z) : outcome Z :=
  if b =? 0 then Err DivisionByZero
  else if (a =? LLONG_MIN) && (b =? -1) then Err DivisionByZero
  else Ok (Z.rem a b).

(** Lines 61-69: the two indices of a query, in increasing order. *)
Definition decode (N F a b : Z) : outcome (Z * Z) :=
  x0 ← c_rem (Z.lxor a F) N;
  y0 ← c_rem (Z.lxor b F) N;
  let x := wrap32 x0 in
  let y := wrap32 y0 in
  if x >? y then Ok (y, x) else Ok (x, y).

Record machine : Type := mkMachine {
  uf : uf_state;
  F : Z;
  stdout : list string
}.

Definition newline : string := String (Ascii.ascii_of_nat 10) EmptyString.
Definition line (s : string) : string := s +:+ newline.

(** Lines 71-84: the query at position [i], on the decoded indices.
    Of the two calls in [find(x) == find(y)] the left one is taken
    first; either order returns the same two roots. *)
Definition serve (i x y : Z) (m : machine) : outcome machine :=
  if Z.rem i 2 =? 0 then
    st ← union_sets (uf m) x y;
    Ok (mkMachine st (wrap64 (F m + component_count st)) (stdout m))
  else
    '(st1, rx) ← find (uf m) x;
    '(st2, ry) ← find st1 y;
    if rx =? ry then
      Ok (mkMachine st2 (wrap64 (F m + component_count st2))
            (stdout m ++ [line "1"]))
    else
      Ok (mkMachine st2 (wrap64 (F m + component_count st2))
            (stdout m ++ [line "0"])).

(** One iteration of the [for] loop, after its [scanf] gave [(a, b)]. *)
Definition query_step (N i : Z) (a b : Z) (m : machine) : outcome machine :=
  '(x, y) ← decode N (F m) a b;
  serve i x y m.

(** [for (int i = 0; i < Q; i++)]; [k] counts the iterations left, and
    [i + 1 <= Q] never leaves the range of [int]. *)
Fixpoint query_loop (N : Z) (k : nat) (i : Z) (input : list (Z * Z))
    (m : machine) : outcome machine :=
  match k with
  | O => Ok m
  | S k' =>
      match input with
      | [] => Err InputExhausted
      | (a, b) :: rest =>
          m' ← query_step N i a b m;
          query_loop N k' (i + 1) rest m'
      end
  end.

Definition main_with (cap : nat) (N Q : Z) (input : list (Z * Z))
    : outcome machine :=
  st ← initialize (globals cap) N;
  query_loop N (Z.to_nat Q) 0 input (mkMachine st 0 []).

Definition main : Z -> Z -> list (Z * Z) -> outcome machine :=
  main_with CAPACITY.

(** The machine after the first [k] queries of a run. *)
Definition run (cap : nat) (N : Z) (input : list (Z * Z)) (k : nat)
    : outcome machine :=
  main_with cap N (Z.of_nat k) input.

(** What a run shows: [component_count], [F] and the lines printed. *)
Definition observe (r : outcome machine) : option (Z * Z * list string) :=
  match r with
  | Ok m => Some (component_count (uf m), F m, stdout m)
  | Err _ => None
  end.

(** * The walk on the grid (kadai13.c)

    A text such as [N3E12] is turned into the marks that a walk leaves
    on the grid, and the marks are sorted.  A C string is the list of
    its characters before the terminating NUL; a pointer into it is the
    rest of the list, and reading at its end gives the NUL. *)

Module Kadai13.

Definition LEN : nat := 30.
Definition TEXTLEN : nat := 100.

(** The value of a [char] in an expression ([char] is signed). *)
Definition char_val (c : ascii) : Z :=
  let v := Z.of_N (N_of_ascii c) in
  if v <? 128 then v else v - 256.

(** [c >= '0' && c <= '9'] *)
Definition is_digit (c : ascii) : bool :=
  (char_val "0" <=? char_val c) && (char_val c <=? char_val "9").

(** [c != '\0'] fails *)
Definition is_nul (c : ascii) : bool := char_val c =? char_val zero.

(** The loop of [count_digits], entered with [count]. *)
Fixpoint count_digits_from (from : list ascii) (count : Z) : Z :=
  match from with
  | c :: from' =>
      if is_digit c then count_digits_from from' (wrap32 (count + 1))
      else count
  | [] => count
  end.

Definition count_digits (from : list ascii) : Z :=
  count_digits_from from 0.

(** The loop of [digits_to_int] over the characters between [from] and
    [to], entered with [result]. *)
Fixpoint digits_to_int_from (chars : list ascii) (result : Z) : Z :=
  match chars with
  | c :: chars' =>
      digits_to_int_from chars'
        (wrap32 (result * 10 + (char_val c - char_val "0")))
  | [] => result
  end.

Definition digits_to_int (chars : list ascii) : Z :=
  digits_to_int_from chars 0.

(** The [switch] of [process_insts]: the position after going [kyori]
    in the direction [houkou]. *)
Definition turn (houkou : ascii) (kyori x y : Z) : Z * Z :=
  if Ascii.eqb houkou "N" then (x, wrap32 (y + kyori))
  else if Ascii.eqb houkou "S" then (x, wrap32 (y - kyori))
  else if Ascii.eqb houkou "E" then (wrap32 (x + kyori), y)
  else if Ascii.eqb houkou "W" then (wrap32 (x - kyori), y)
  else (x, y).

(** The [while] loop of [process_insts].  Every round takes at least
    one character, so fuel for one round per character is enough.  The
    number of digits is below [2 ^ 31] for a text of that size, and
    [in + digits] is then the text without its first [digits]
    characters. *)
Fixpoint process_loop (fuel : nat) (s : list ascii) (x y count : Z)
    (xs ys : list Z) : outcome (Z * list Z * list Z) :=
  match fuel with
  | O => Err OutOfFuel
  | S fuel' =>
      match s with
      | [] => Ok (count, xs, ys)
      | houkou :: rest =>
          if is_nul houkou then Ok (count, xs, ys)
          else
            let digits := count_digits rest in
            let kyori := digits_to_int (take (Z.to_nat digits) rest) in
            let rest' := drop (Z.to_nat digits) rest in
            let '(x', y') := turn houkou kyori x y in
            xs' ← wr xs count x';
            ys' ← wr ys count y';
            process_loop fuel' rest' x' y' (wrap32 (count + 1)) xs' ys'
      end
  end.

Definition process_insts (s : list ascii) (xs ys : list Z)
    : outcome (Z * list Z * list Z) :=
  xs0 ← wr xs 0 0;
  ys0 ← wr ys 0 0;
  process_loop (S (length s)) s 0 0 (wrap32 (0 + 1)) xs0 ys0.

(** The test of [sort_marks], with the reads that [||] and [&&] make. *)
Definition out_of_order (xs ys : list Z) (i j : Z) : outcome bool :=
  xi ← rd xs i;
  xj ← rd xs j;
  if xi >? xj then Ok true
  else
    xi' ← rd xs i;
    xj' ← rd xs j;
    if xi' =? xj' then
      yi ← rd ys i;
      yj ← rd ys j;
      Ok (yi >? yj)
    else Ok false.

(** The body of the [if]: marks [i] and [j] change places. *)
Definition swap_marks (xs ys : list Z) (i j : Z)
    : outcome (list Z * list Z) :=
  temp_x ← rd xs i;
  temp_y ← rd ys i;
  xj ← rd xs j;
  xs1 ← wr xs i xj;
  yj ← rd ys j;
  ys1 ← wr ys i yj;
  xs2 ← wr xs1 j temp_x;
  ys2 ← wr ys1 j temp_y;
  Ok (xs2, ys2).

(** The inner loop, [k] rounds from [j]. *)
Fixpoint sort_inner (k : nat) (i j : Z) (xs ys : list Z)
    : outcome (list Z * list Z) :=
  match k with
  | O => Ok (xs, ys)
  | S k' =>
      b ← out_of_order xs ys i j;
      '(xs', ys') ← (if (b : bool) then swap_marks xs ys i j else Ok (xs, ys));
      sort_inner k' i (j + 1) xs' ys'
  end.

(** The outer loop, [k] rounds from [i]. *)
Fixpoint sort_outer (k : nat) (i n : Z) (xs ys : list Z)
    : outcome (list Z * list Z) :=
  match k with
  | O => Ok (xs, ys)
  | S k' =>
      '(xs', ys') ← sort_inner (Z.to_nat (n - (i + 1))) i (i + 1) xs ys;
      sort_outer k' (i + 1) n xs' ys'
  end.

Definition sort_marks (n : Z) (xs ys : list Z)
    : outcome (list Z * list Z) :=
  sort_outer (Z.to_nat (wrap32 (n - 1))) 0 n xs ys.

End Kadai13.

(** * The list of students (kadai12.c)

    The cells of the linked list behind [head], in order, as a list; a
    null [head] is the empty list, and the [next] field of a cell is its
    place in the list.  [malloc] is taken to succeed.  [stub], the
    array that is sorted, is a list of cells too. *)

Module Kadai12.

Definition NUM : nat := 100.

(** [char name[50]] *)
Definition NAME_SIZE : nat := 50.

Record STUS : Type := mkSTUS {
  id : Z;
  name : string;
  eng : Z;
  math : Z;
  jpn : Z;
  total : Z
}.

(** What the functions print. *)
Inductive message : Type :=
| NotInList          (* insertCell: no student has that number *)
| NothingToDelete    (* deleteCell: the first cell has no successor *)
| Deleted            (* deleteCell: done *)
| NotFound.          (* deleteCell: no such name, or it is the last cell *)

(** [strcpy] into a [name] field. *)
Definition strcpy (src : string) : outcome string :=
  if (String.length src <? NAME_SIZE)%nat then Ok src
  else Err OutOfBounds.

(** The search loop of [insertCell]: the cells before [q] and the list
    from [q] on, which is empty when [q] ends as the null pointer. *)
Fixpoint find_id (q : list STUS) (pn : Z) : list STUS * list STUS :=
  match q with
  | [] => ([], [])
  | c :: next =>
      if id c =? pn then ([], q)
      else let r := find_id next pn in (c :: r.1, r.2)
  end.

Definition insertCell (head : list STUS) (s_id : Z) (s_name : string)
    (e m jp pn : Z) : outcome (list STUS * list message) :=
  match find_id head pn with
  | (_, []) => Ok (head, [NotInList])
  | (before, q :: next) =>
      nm ← strcpy s_name;
      Ok (before ++ q :: mkSTUS s_id nm e m jp 0 :: next, [])
  end.

(** The [while] loop of [deleteCell] and the unlinking behind it;
    [None] when the loop ends at the last cell. *)
Fixpoint delete_after (q : list STUS) (prevName : string)
    : option (list STUS) :=
  match q with
  | c :: next =>
      match next with
      | [] => None
      | delCell :: next' =>
          if String.eqb (name c) prevName then Some (c :: next')
          else (fun l => c :: l) <$> delete_after next prevName
      end
  | [] => None
  end.

(** [deleteCell] reads [head->name] first: [None] is a null [head]. *)
Definition deleteCell (head : list STUS) (prevName : string)
    : option (list STUS * Z * list message) :=
  match head with
  | [] => None
  | h :: next =>
      if String.eqb (name h) prevName then
        match next with
        | [] => Some (head, 0, [NothingToDelete])
        | delCell :: next' => Some (h :: next', 1, [Deleted])
        end
      else
        match delete_after head prevName with
        | Some head' => Some (head', 1, [Deleted])
        | None => Some (head, 0, [NotFound])
        end
  end.

Definition calcSum (head : list STUS) : list STUS :=
  (fun p => mkSTUS (id p) (name p) (eng p) (math p) (jpn p)
              (wrap32 (wrap32 (eng p + math p) + jpn p))) <$> head.

(** Cells of the array [stub]. *)
Definition get (s : list STUS) (i : Z) : outcome STUS :=
  if (0 <=? i) && (i <? Z.of_nat (length s)) then
    match s !! Z.to_nat i with
    | Some c => Ok c
    | None => Err OutOfBounds
    end
  else Err OutOfBounds.

Definition put (s : list STUS) (i : Z) (c : STUS) : outcome (list STUS) :=
  if (0 <=? i) && (i <? Z.of_nat (length s)) then
    Ok (<[Z.to_nat i := c]> s)
  else Err OutOfBounds.

(** The loop of [copy], from cell [i] of [sb] and cell [p] of the
    list. *)
Fixpoint copy_from (p : list STUS) (i n : Z) (sb : list STUS)
    : outcome (list STUS) :=
  match p with
  | c :: next =>
      if i <? n then
        sb' ← put sb i c;
        copy_from next (i + 1) n sb'
      else Ok sb
  | [] => Ok sb
  end.

Definition copy (head : list STUS) (sb : list STUS) (n : Z)
    : outcome (list STUS) :=
  copy_from head 0 n sb.

(** The inner loop of [sort], [k] rounds from [j]. *)
Fixpoint sort_inner (k : nat) (i j : Z) (s : list STUS)
    : outcome (list STUS) :=
  match k with
  | O => Ok s
  | S k' =>
      si ← get s i;
      sj ← get s j;
      s' ← (if total si <? total sj then
              temp ← get s i;
              sj' ← get s j;
              s1 ← put s i sj';
              put s1 j temp
            else Ok s);
      sort_inner k' i (j + 1) s'
  end.

Fixpoint sort_outer (k : nat) (i n : Z) (s : list STUS)
    : outcome (list STUS) :=
  match k with
  | O => Ok s
  | S k' =>
      s' ← sort_inner (Z.to_nat (n - (i + 1))) i (i + 1) s;
      sort_outer k' (i + 1) n s'
  end.

Definition sort (s : list STUS) (n : Z) : outcome (list STUS) :=
  sort_outer (Z.to_nat (wrap32 (n - 1))) 0 n s.

(** The rows that [dispList2 (s, n)] prints: the cells that its pointer
    passes, [k] rounds from cell [i]. *)
Fixpoint dispList2_from (k : nat) (i : Z) (s : list STUS)
    : outcome (list STUS) :=
  match k with
  | O => Ok []
  | S k' =>
      c ← get s i;
      rows ← dispList2_from k' (i + 1) s;
      Ok (c :: rows)
  end.

Definition dispList2 (s : list STUS) (n : Z) : outcome (list STUS) :=
  dispList2_from (Z.to_nat n) 0 s.

(** What [main] shows: a message, the refusal at [NUM] students, the
    table of the list ([dispList1]) and the table of the first [count]
    cells of [stub] ([dispList2]).  Prompts are left out. *)
Inductive event : Type :=
| Say (m : message)
| LimitReached
| NobodyToDelete
| Table1 (rows : list STUS)
| Table2 (rows : list STUS).

(** The variables of [main] that outlive a command.  [stub] is a local
    array of [NUM] cells that [main] never initialises: its cells hold
    whatever [copy] and [sort] left there, or anything at all. *)
Record app : Type := mkApp {
  head : list STUS;
  count : Z;
  stub : list STUS
}.

(** [calcSum (); copy (stub, count); sort (stub, count);] and the two
    tables, as [main] has them after every change. *)
Definition refresh (a : app) : outcome (app * list event) :=
  let h := calcSum (head a) in
  sb ← copy h (stub a) (count a);
  sb' ← sort sb (count a);
  rows ← dispList2 sb' (count a);
  Ok (mkApp h (count a) sb', [Table1 h; Table2 rows]).

(** The branch [select == 1] of [main], lines 82-111, with the six
    values that it reads.  The name is read into [tmpStu.name], a field
    of [NAME_SIZE] bytes. *)
Definition push (a : app) (prevNum s_id : Z) (s_name : string)
    (e m jp : Z) : outcome (app * list event) :=
  if count a >=? Z.of_nat NUM then Ok (a, [LimitReached])
  else
    nm ← strcpy s_name;
    '(h, msgs) ← insertCell (head a) s_id nm e m jp prevNum;
    '(a', tables) ← refresh (mkApp h (wrap32 (count a + 1)) (stub a));
    Ok (a', (Say <$> msgs) ++ tables).

(** The branch [select == 2] of [main], lines 112-131; the name is read
    into [prevName], an array of [NAME_SIZE] bytes.  [None] is the null
    [head] of [deleteCell]. *)
Definition pop (a : app) (prevName : string)
    : option (outcome (app * list event)) :=
  if count a <=? 1 then Some (Ok (a, [NobodyToDelete]))
  else
    match strcpy prevName with
    | Err e => Some (Err e)
    | Ok nm =>
        match deleteCell (head a) nm with
        | None => None
        | Some (h, r, msgs) =>
            if r =? 0 then
              Some (Ok (mkApp h (count a) (stub a), Say <$> msgs))
            else
              Some ('(a', tables) ←
                      refresh (mkApp h (wrap32 (count a - 1)) (stub a));
                    Ok (a', (Say <$> msgs) ++ tables))
        end
    end.

End Kadai12.

(** * Vocabulary of the properties *)

(** ** Decidable equality of outcomes *)

#[export] Instance error_eq_dec : EqDecision error.
Proof. solve_decision. Defined.

#[export] Instance outcome_eq_dec {A} `{EqDecision A} : EqDecision (outcome A).
Proof. solve_decision. Defined.

(** ** Representatives

    [reprd n p x r d]: following [p] from [x] reaches the root [r] after
    [d] links, and every node on the way lies in [[0, n)]. *)

Inductive reprd (n : Z) (p : list Z) : Z -> Z -> nat -> Prop :=
| reprd_root x :
    0 <= x < n -> rd p x = Ok x -> reprd n p x x O
| reprd_step x y r d :
    0 <= x < n -> rd p x = Ok y -> y <> x -> reprd n p y r d ->
    reprd n p x r (S d).

Definition repr (n : Z) (p : list Z) (x r : Z) : Prop :=
  exists d, reprd n p x r d.

Definition is_root (p : list Z) (x : Z) : Prop := rd p x = Ok x.

#[export] Instance is_root_dec p x : Decision (is_root p x).
Proof. unfold is_root. apply _. Defined.

(** The roots among the elements [0 .. n-1], in increasing order. *)
Definition roots (n : Z) (p : list Z) : list Z :=
  filter (is_root p) (seqZ 0 n).

Arguments rd : simpl never.
Arguments wr : simpl never.

(** [compressed n p r p']: [p'] is [p] with some nodes of the tree of
    [r] re-pointed to [r], as path compression does. *)
Definition compressed (n : Z) (p : list Z) (r : Z) (p' : list Z) : Prop :=
  length p' = length p /\
  forall u, rd p' u = rd p u \/ (rd p' u = Ok r /\ exists d, reprd n p u r d).

(** ** The invariant of the structure over the elements [0 .. n-1] *)

Record uf_inv (n : Z) (st : uf_state) : Prop := mkInv {
  inv_size : 0 <= n <= INT_MAX;
  inv_parent_len : n <= Z.of_nat (length (parent st));
  inv_rank_len : n <= Z.of_nat (length (rank st));
  (* a forest: every element has a root, at a bounded depth *)
  inv_forest : forall x, 0 <= x < n ->
    exists r d, reprd n (parent st) x r d /\
                Z.of_nat d <= n - component_count st;
  inv_count : component_count st = Z.of_nat (length (roots n (parent st)));
  inv_rank : forall x, 0 <= x < n ->
    exists k, rd (rank st) x = Ok k /\ 0 <= k <= n - component_count st
}.

(** ** The effect of a merge

    The root that is re-pointed and the root that absorbs it, from the
    two ranks. *)
Definition loser (rx ry kx ky : Z) : Z :=
  if kx >? ky then ry else if kx <? ky then rx else ry.
Definition winner (rx ry kx ky : Z) : Z :=
  if kx >? ky then rx else if kx <? ky then ry else rx.

(** [a] with cell [i] set to [v]. *)
Definition upd (a : list Z) (i v : Z) : list Z := <[Z.to_nat i := v]> a.

(** The state that the merging branch of [union_sets] builds from the
    state [st] left by its two [find] calls. *)
Definition linked (st : uf_state) (rx ry kx ky : Z) : uf_state :=
  mkState (upd (parent st) (loser rx ry kx ky) (winner rx ry kx ky))
          (if kx =? ky then upd (rank st) rx (kx + 1) else rank st)
          (component_count st - 1).

(** ** Reachable states

    The states of the structure after [initialize (n)] and any sequence
    of [find] and [union_sets] calls on elements of [[0, n)]. *)

Inductive op : Type :=
| Find (x : Z)
| Union (x y : Z).

Definition in_range (n x : Z) : bool := (0 <=? x) && (x <? n).

Definition op_ok (n : Z) (o : op) : bool :=
  match o with
  | Find x => in_range n x
  | Union x y => in_range n x && in_range n y
  end.

Definition do_op (st : uf_state) (o : op) : outcome uf_state :=
  match o with
  | Find x => '(st', _) ← find st x; Ok st'
  | Union x y => union_sets st x y
  end.

Fixpoint run_ops (ops : list op) (st : uf_state) : outcome uf_state :=
  match ops with
  | [] => Ok st
  | o :: ops' => st' ← do_op st o; run_ops ops' st'
  end.

Definition reachable (cap : nat) (n : Z) (st : uf_state) : Prop :=
  0 <= n <= INT_MAX /\
  exists ops st0,
    initialize (globals cap) n = Ok st0 /\
    forallb (op_ok n) ops = true /\
    run_ops ops st0 = Ok st.

(** The representative of [x]: what [find (x)] returns. *)
Definition rep (st : uf_state) (x : Z) : option Z :=
  match find st x with
  | Ok (_, r) => Some r
  | Err _ => None
  end.

(** The [k]-th ancestor of [x]. *)
Fixpoint ancestor (p : list Z) (k : nat) (x : Z) : outcome Z :=
  match k with
  | O => Ok x
  | S k' => y ← rd p x; ancestor p k' y
  end.

(** The distinct values that [find] returns on [0 .. n-1]. *)
Definition representatives (n : Z) (st : uf_state) : gset Z :=
  list_to_set (omap (rep st) (seqZ 0 n)).

(** ** The query loop

    The two kinds of query, in the words of the specification: a merge
    query calls [union_sets] and a connectivity check prints one line;
    both then add [component_count] to [F]. *)
Definition merge_query (N a b : Z) (m : machine) : outcome machine :=
  '(x, y) ← decode N (F m) a b;
  st ← union_sets (uf m) x y;
  Ok (mkMachine st (F m + component_count st) (stdout m)).

Definition check_query (N a b : Z) (m : machine) : outcome machine :=
  '(x, y) ← decode N (F m) a b;
  '(st1, rx) ← find (uf m) x;
  '(st2, ry) ← find st1 y;
  Ok (mkMachine st2 (F m + component_count st2)
        (stdout m ++ [line (if rx =? ry then "1" else "0")])).

(** The indices of a query in the words of the specification:
    [x = (a XOR F) mod N], [y = (b XOR F) mod N], swapped when [x > y];
    [mod] is the mathematical one, with a result in [[0, N)]. *)
Definition decode_spec (N F a b : Z) : Z * Z :=
  let x := Z.lxor a F mod N in
  let y := Z.lxor b F mod N in
  if x >? y then (y, x) else (x, y).

(** [component_count] as the [j]-th query left it. *)
Definition count_after (cap : nat) (N : Z) (input : list (Z * Z)) (j : nat) : Z :=
  match run cap N input j with
  | Ok m => component_count (uf m)
  | Err _ => 0
  end.

(** The sum of [component_count] over the first [k] queries. *)
Fixpoint contributions (cap : nat) (N : Z) (input : list (Z * Z)) (k : nat) : Z :=
  match k with
  | O => 0
  | S k' => contributions cap N input k' + count_after cap N input k
  end.

(** The invariant of the loop, after [k] queries. *)
Record run_inv (cap : nat) (N : Z) (k : nat) (m : machine) : Prop := mkRunInv {
  ri_reach : reachable cap N (uf m);
  ri_F : 0 <= F m <= Z.of_nat k * N;
  ri_out : Z.of_nat (length (stdout m)) = Z.of_nat k / 2
}.

(** ** Concrete states

    [initialize (4)] on arrays of four cells. *)
Definition fresh4 : uf_state := mkState [0; 1; 2; 3] [0; 0; 0; 0] 4.

(** After [union_sets (0, 1)] and [union_sets (2, 3)]. *)
Definition two_pairs : uf_state := mkState [0; 0; 2; 2] [1; 0; 1; 0] 2.

(** After a further [union_sets (1, 3)]: element 3 is two links away
    from its root. *)
Definition chain : uf_state := mkState [0; 0; 0; 2] [2; 0; 1; 0] 1.

(** [chain] with the path of element 3 compressed. *)
Definition flat : uf_state := mkState [0; 0; 0; 0] [2; 0; 1; 0] 1.

(** Reachability of a concrete state, by running the operations. *)
Ltac reach ops :=
  split; [unfold INT_MAX; lia |
          exists ops, fresh4; split; [reflexivity | split; reflexivity]].

(** The machine of the run [N = 2], queries [(0, 1)], [(0, 1)], on arrays
    of four cells: at the start and after the first query. *)
Definition machine0 : machine :=
  mkMachine (mkState [0; 1; 0; 0] [0; 0; 0; 0] 2) 0 [].
Definition machine1 : machine :=
  mkMachine (mkState [0; 0; 0; 0] [1; 0; 0; 0] 1) 1 [].

(** ** Further vocabulary for the disjoint-set structure *)

(** [on_path p d x w]: [w] is [x] or one of its first [d] ancestors. *)
Fixpoint on_path (p : list Z) (d : nat) (x w : Z) : bool :=
  (w =? x) ||
  match d with
  | O => false
  | S d' =>
      match rd p x with
      | Ok y => on_path p d' y w
      | Err _ => false
      end
  end.

(** Ranks grow strictly from a node to its parent. *)
Definition rank_ordered (n : Z) (st : uf_state) : Prop :=
  forall x y, 0 <= x < n -> rd (parent st) x = Ok y -> y <> x ->
    exists kx ky,
      rd (rank st) x = Ok kx /\ rd (rank st) y = Ok ky /\ kx < ky.

(** ** Further vocabulary for the query loop *)

(** The lines that a connectivity check prints. *)
Definition is_answer (l : string) : Prop := l = line "1" \/ l = line "0".

(** ** Vocabulary for the walk on the grid *)

(** The characters of a text. *)
Definition chars (s : string) : list ascii := String.list_ascii_of_string s.

(** The decimal numeral of [n]. *)
Definition decimal (n : N) : list ascii := chars (pretty n).

(** The value of a numeral, computed without wrap-around. *)
Fixpoint horner (ds : list ascii) (acc : Z) : Z :=
  match ds with
  | c :: ds' =>
      horner ds' (acc * 10 + (Kadai13.char_val c - Kadai13.char_val "0"))
  | [] => acc
  end.

(** An instruction: a letter and a distance; its text and the text of a
    list of instructions. *)
Definition render (i : ascii * N) : list ascii := i.1 :: decimal i.2.

Definition text (instrs : list (ascii * N)) : list ascii :=
  concat (render <$> instrs).

(** A letter that can start an instruction. *)
Definition is_letter (c : ascii) : Prop :=
  Kadai13.is_digit c = false /\ Kadai13.is_nul c = false.

(** An instruction that [process_insts] reads as one instruction. *)
Definition valid_instr (i : ascii * N) : Prop :=
  is_letter i.1 /\ Z.of_N i.2 <= INT_MAX.

(** The positions that the instructions lead through from [(x, y)], as
    [turn] computes them. *)
Fixpoint walk (instrs : list (ascii * N)) (x y : Z) : list (Z * Z) :=
  match instrs with
  | [] => []
  | (d, n) :: instrs' =>
      let p := Kadai13.turn d (Z.of_N n) x y in
      p :: walk instrs' p.1 p.2
  end.

(** The four directions on the grid, as steps of one unit: north is up
    the [y] axis and east is up the [x] axis; any other letter stands
    still. *)
Definition heading (d : ascii) : Z * Z :=
  match d with
  | "N"%char => (0, 1)
  | "S"%char => (0, -1)
  | "E"%char => (1, 0)
  | "W"%char => (-1, 0)
  | _ => (0, 0)
  end.

(** The positions of a walk that starts at [(x, y)], one per
    instruction, in unbounded integers. *)
Fixpoint path (instrs : list (ascii * N)) (x y : Z) : list (Z * Z) :=
  match instrs with
  | [] => []
  | (d, n) :: instrs' =>
      let x' := x + (heading d).1 * Z.of_N n in
      let y' := y + (heading d).2 * Z.of_N n in
      (x', y') :: path instrs' x' y'
  end.

(** No coordinate of the walk leaves the range of [int]. *)
Definition in_int_range (ps : list (Z * Z)) : Prop :=
  Forall (fun p => is_int p.1 /\ is_int p.2) ps.

(** [a] with the cells from [count] on overwritten by [vals]. *)
Definition store (a : list Z) (count : nat) (vals : list Z) : list Z :=
  take count a ++ vals ++ drop (count + length vals) a.

(** ** The exchange sort of kadai12.c and kadai13.c, on one list

    Both files sort an array by the same two nested loops: cell [i] is
    compared with every later cell [j] and the two are exchanged when
    the one at [i] has to come later ([gt]). *)

Section ExchangeSort.
Context {A : Type} (gt : A -> A -> bool).

Definition exchange (a : list A) (i j : nat) : list A :=
  match a !! i, a !! j with
  | Some u, Some v => if gt u v then <[j := u]> (<[i := v]> a) else a
  | _, _ => a
  end.

Fixpoint exch_inner (k i j : nat) (a : list A) : list A :=
  match k with
  | O => a
  | S k' => exch_inner k' i (S j) (exchange a i j)
  end.

Fixpoint exch_outer (k i n : nat) (a : list A) : list A :=
  match k with
  | O => a
  | S k' => exch_outer k' (S i) n (exch_inner (n - S i) i (S i) a)
  end.

Definition exch_sort (n : nat) (a : list A) : list A :=
  exch_outer (n - 1) 0 n a.

(** [a'] is [a] with the cells [lo .. n-1] rearranged. *)
Definition rearranged (lo n : nat) (a a' : list A) : Prop :=
  length a' = length a /\ a' ≡ₚ a /\
  (forall k, (k < lo)%nat \/ (n <= k)%nat -> a' !! k = a !! k) /\
  (forall k v, (lo <= k < n)%nat -> a' !! k = Some v ->
     exists k', (lo <= k' < n)%nat /\ a !! k' = Some v).

(** The cells before [n] are in order. *)
Definition in_order (n : nat) (a : list A) : Prop :=
  forall k1 k2 u v, (k1 < k2 < n)%nat ->
    a !! k1 = Some u -> a !! k2 = Some v -> gt u v = false.

End ExchangeSort.

(** A mark has to come after another: it lies further east, or as far
    east and further north. *)
Definition mark_gt (p q : Z * Z) : bool :=
  (p.1 >? q.1) || ((p.1 =? q.1) && (p.2 >? q.2)).

(** ** Vocabulary for the list of students *)

(** A cell has to come after another in the ranking: its total is
    smaller. *)
Definition total_lt (u v : Kadai12.STUS) : bool :=
  Kadai12.total u <? Kadai12.total v.

(** * Properties *)

(** ** Machine integers *)

Lemma wrap32_id z : is_int z -> wrap32 z = z.
Proof.
  unfold is_int, INT_MIN, INT_MAX, wrap32, wrap; intros H.
  change (2 ^ (32 - 1)) with 2147483648 in *.
  change (2 ^ 32) with 4294967296.
  change (2 ^ 31) with 2147483648 in H.
  rewrite Z.mod_small; lia.
Qed.

Lemma wrap64_id z : is_llong z -> wrap64 z = z.
Proof.
  unfold is_llong, LLONG_MIN, LLONG_MAX, wrap64, wrap; intros H.
  change (2 ^ (64 - 1)) with 9223372036854775808 in *.
  change (2 ^ 64) with 18446744073709551616.
  change (2 ^ 63) with 9223372036854775808 in H.
  rewrite Z.mod_small; lia.
Qed.

(** ** The outcome monad *)

Lemma bind_Ok {A B} (m : outcome A) (k : A -> outcome B) b :
  mbind k m = Ok b <-> exists a, m = Ok a /\ k a = Ok b.
Proof.
  destruct m as [a|e]; simpl.
  - split; [eauto | intros (a' & [= <-] & H); exact H].
  - split; [discriminate | intros (a' & [=] & _)].
Qed.

(** ** Array cells *)

Section Arrays.
Implicit Types (a : list Z) (i j v : Z).

Lemma in_bounds_true a i :
  in_bounds a i = true <-> 0 <= i < Z.of_nat (length a).
Proof. unfold in_bounds. rewrite andb_true_iff, Z.leb_le, Z.ltb_lt. tauto. Qed.

Lemma rd_Ok a i v :
  rd a i = Ok v <->
  0 <= i < Z.of_nat (length a) /\ a !! Z.to_nat i = Some v.
Proof.
  unfold rd. destruct (in_bounds a i) eqn:Hb.
  - apply in_bounds_true in Hb.
    destruct (a !! Z.to_nat i) as [w|] eqn:Hl.
    + split; [intros [= ->]; auto | intros [_ [= ->]]; auto].
    + split; [discriminate | intros [_ [=]]].
  - split; [discriminate|]. intros [Hr _].
    apply in_bounds_true in Hr. congruence.
Qed.

Lemma rd_bounds a i v : rd a i = Ok v -> 0 <= i < Z.of_nat (length a).
Proof. intros H%rd_Ok. tauto. Qed.

Lemma rd_total a i :
  0 <= i < Z.of_nat (length a) -> exists v, rd a i = Ok v.
Proof.
  intros Hi. destruct (lookup_lt_is_Some_2 a (Z.to_nat i)) as [v Hv]; [lia|].
  exists v. apply rd_Ok. auto.
Qed.

Lemma rd_oob a i : ~ 0 <= i < Z.of_nat (length a) -> rd a i = Err OutOfBounds.
Proof.
  intros Hi. unfold rd. destruct (in_bounds a i) eqn:Hb; [|reflexivity].
  apply in_bounds_true in Hb. contradiction.
Qed.

Lemma wr_Ok a i v a' :
  wr a i v = Ok a' <->
  0 <= i < Z.of_nat (length a) /\ a' = <[Z.to_nat i := v]> a.
Proof.
  unfold wr. destruct (in_bounds a i) eqn:Hb.
  - apply in_bounds_true in Hb.
    split; [intros [= <-]; auto | intros [_ ->]; auto].
  - split; [discriminate|]. intros [Hr _].
    apply in_bounds_true in Hr. congruence.
Qed.

Lemma wr_total a i v :
  0 <= i < Z.of_nat (length a) -> exists a', wr a i v = Ok a'.
Proof. intros Hi. eexists. apply wr_Ok. eauto. Qed.

Lemma wr_length a i v a' : wr a i v = Ok a' -> length a' = length a.
Proof. intros [_ ->]%wr_Ok. apply length_insert. Qed.

Lemma rd_wr_eq a i v a' : wr a i v = Ok a' -> rd a' i = Ok v.
Proof.
  intros [Hi ->]%wr_Ok. apply rd_Ok. rewrite length_insert. split; [lia|].
  apply list_lookup_insert_eq. lia.
Qed.

Lemma rd_wr_ne a i v a' j : wr a i v = Ok a' -> j <> i -> rd a' j = rd a j.
Proof.
  intros [Hi ->]%wr_Ok Hne. unfold rd, in_bounds. rewrite length_insert.
  destruct ((0 <=? j) && (j <? Z.of_nat (length a))) eqn:Hb; [|reflexivity].
  apply andb_true_iff in Hb as [H0%Z.leb_le _].
  rewrite list_lookup_insert_ne by lia. reflexivity.
Qed.

End Arrays.

(** ** Representatives *)

Section Repr.
Variables (n : Z) (p : list Z).

Lemma reprd_dom x r d : reprd n p x r d -> 0 <= x < n.
Proof. destruct 1; assumption. Qed.

Lemma reprd_is_root x r d : reprd n p x r d -> is_root p r.
Proof. induction 1; auto. Qed.

Lemma reprd_cod x r d : reprd n p x r d -> 0 <= r < n.
Proof. induction 1; auto. Qed.

Lemma reprd_fun x r d r' d' :
  reprd n p x r d -> reprd n p x r' d' -> r = r' /\ d = d'.
Proof.
  intros H. revert r' d'. induction H as [x Hx Hr | x y r d Hx Hr Hne H IH];
    intros r' d' H'; inversion H'; subst; try congruence; auto.
  assert (y0 = y) by congruence. subst y0.
  destruct (IH _ _ H3) as [-> ->]. auto.
Qed.

Lemma reprd_of_root x r d : is_root p x -> reprd n p x r d -> r = x /\ d = O.
Proof.
  intros Hx H. pose proof (reprd_dom _ _ _ H) as Hd.
  destruct (reprd_fun _ _ _ _ _ H (reprd_root n p x Hd Hx)); auto.
Qed.

Lemma elem_of_roots x : x ∈ roots n p <-> 0 <= x < n /\ is_root p x.
Proof.
  unfold roots. rewrite list_elem_of_filter, elem_of_seqZ. intuition lia.
Qed.

Lemma NoDup_roots : NoDup (roots n p).
Proof. apply NoDup_filter, NoDup_seqZ. Qed.

End Repr.

(** ** Path compression *)

Lemma set_parent_id st : set_parent st (parent st) = st.
Proof. destruct st; reflexivity. Qed.

Lemma compressed_refl n p r : compressed n p r p.
Proof. split; auto. Qed.

Section Compression.
Variables (n : Z) (p : list Z) (r : Z) (p' : list Z).
Hypothesis Hc : compressed n p r p'.

Lemma compressed_root u : is_root p' u <-> is_root p u.
Proof.
  unfold is_root. pose proof Hc as [_ H]. destruct (H u) as [->|[Hu [d Hd]]].
  - tauto.
  - split; intros Hr.
    + assert (r = u) by congruence. subst r.
      exact (reprd_is_root _ _ _ _ _ Hd).
    + destruct (reprd_of_root _ _ _ _ _ Hr Hd) as [-> _]. exact Hu.
Qed.

Lemma compressed_roots : roots n p' = roots n p.
Proof.
  unfold roots. apply list_filter_iff. intros u. apply compressed_root.
Qed.

Lemma compressed_reprd u s d :
  reprd n p u s d -> exists d', reprd n p' u s d' /\ (d' <= d)%nat.
Proof.
  induction 1 as [u Hu Hr | u v s d Hu Hr Hne H IH].
  - exists O. split; [|lia]. apply reprd_root; [assumption|].
    apply compressed_root. exact Hr.
  - destruct IH as (d' & IH & Hle).
    pose proof Hc as [_ Hp]. destruct (Hp u) as [Heq | [Hu' [e He]]].
    + exists (S d'). split; [|lia].
      apply reprd_step with v; auto. congruence.
    + assert (Hs : reprd n p u s (S d)) by (eapply reprd_step; eauto).
      destruct (reprd_fun _ _ _ _ _ _ _ He Hs) as [E _]. subst s.
      exists 1%nat. split; [|lia].
      apply reprd_step with r; auto.
      * intros ->. apply reprd_is_root in H.
        unfold is_root in H. congruence.
      * apply reprd_root; [eapply reprd_cod; eauto|].
        apply compressed_root. eapply reprd_is_root; eauto.
Qed.

End Compression.

Lemma compressed_trans n p r p1 p2 :
  compressed n p r p1 ->
  (length p2 = length p1 /\
   forall u, rd p2 u = rd p1 u \/ (rd p2 u = Ok r /\ exists d, reprd n p u r d)) ->
  compressed n p r p2.
Proof.
  intros [Hl1 H1] [Hl2 H2]. split; [congruence|]. intros u.
  destruct (H2 u) as [->|?]; auto.
Qed.

(** ** find *)

Lemma find_fuel_spec n st x r d :
  reprd n (parent st) x r d ->
  forall fuel, (d < fuel)%nat ->
  exists p', find_fuel fuel st x = Ok (set_parent st p', r) /\
             compressed n (parent st) r p'.
Proof.
  induction 1 as [x Hx Hr | x y r d Hx Hr Hne H IH]; intros fuel Hf;
    (destruct fuel as [|fuel]; [lia|]); simpl.
  - exists (parent st). rewrite Hr; simpl.
    rewrite Z.eqb_refl; simpl. rewrite Hr; simpl.
    rewrite set_parent_id. split; [reflexivity | apply compressed_refl].
  - destruct (IH fuel) as (p1 & Hfind & Hc1); [lia|].
    rewrite Hr; simpl.
    destruct (Z.eqb_spec y x) as [|_]; [contradiction|]; simpl.
    rewrite Hfind; simpl.
    destruct (wr_total p1 x r) as [p2 Hw].
    { destruct Hc1 as [-> _]. eapply rd_bounds; eauto. }
    rewrite Hw; simpl. rewrite (rd_wr_eq _ _ _ _ Hw); simpl.
    exists p2. split; [reflexivity|].
    eapply compressed_trans; [exact Hc1|].
    split; [eapply wr_length; eauto|]. intros u.
    destruct (Z.eq_dec u x) as [->|Hux].
    + right. split; [eapply rd_wr_eq; eauto|].
      exists (S d). eapply reprd_step; eauto.
    + left. eapply rd_wr_ne; eauto.
Qed.

(** More fuel never changes a result that less fuel gave. *)
Lemma find_fuel_mono fuel : forall st x res fuel',
  find_fuel fuel st x = Ok res -> (fuel <= fuel')%nat ->
  find_fuel fuel' st x = Ok res.
Proof.
  induction fuel as [|fuel IH]; intros st x res fuel' H Hle; [discriminate|].
  destruct fuel' as [|fuel']; [lia|]. simpl in *.
  destruct (rd (parent st) x) as [px|]; simpl in *; [|discriminate].
  destruct (negb (px =? x)); simpl in *; [|exact H].
  destruct (find_fuel fuel st px) as [[st' r]|] eqn:Hf; simpl in *;
    [|discriminate].
  rewrite (IH _ _ _ fuel' Hf) by lia. exact H.
Qed.

(** ** The invariant of the structure *)

(** Counting with a filter. *)

Lemma filter_all {A} (P : A -> Prop) `{forall x, Decision (P x)} (l : list A) :
  (forall x, x ∈ l -> P x) -> filter P l = l.
Proof.
  induction l as [|x l IH]; intros Hl; [reflexivity|].
  rewrite filter_cons_True by (apply Hl; left).
  f_equal. apply IH. intros y Hy. apply Hl. right. exact Hy.
Qed.

Lemma filter_ext_in {A} (P Q : A -> Prop)
    `{forall x, Decision (P x)} `{forall x, Decision (Q x)} (l : list A) :
  (forall x, x ∈ l -> (P x <-> Q x)) -> filter P l = filter Q l.
Proof.
  induction l as [|x l IH]; intros Hl; [reflexivity|].
  assert (Hx : P x <-> Q x) by (apply Hl; left).
  assert (IH' : filter P l = filter Q l).
  { apply IH. intros y Hy. apply Hl. right. exact Hy. }
  rewrite !filter_cons.
  destruct (decide (P x)), (decide (Q x)); try tauto; congruence.
Qed.

Lemma filter_remove_one {A} (P Q : A -> Prop)
    `{forall x, Decision (P x)} `{forall x, Decision (Q x)} (a : A) (l : list A) :
  NoDup l -> a ∈ l -> P a -> ~ Q a ->
  (forall x, x <> a -> (Q x <-> P x)) ->
  length (filter P l) = S (length (filter Q l)).
Proof.
  intros Hnd Ha HPa HQa HPQ.
  induction Hnd as [|x l Hx Hnd IH]; [inversion Ha|].
  apply elem_of_cons in Ha as [<-|Ha].
  - rewrite filter_cons_True by assumption.
    rewrite filter_cons_False by assumption. simpl. f_equal. f_equal.
    apply filter_ext_in.
    intros y Hy. symmetry. apply HPQ. intros ->. contradiction.
  - assert (x <> a) by (intros ->; contradiction).
    rewrite !filter_cons.
    destruct (decide (P x)) as [HP|HP], (decide (Q x)) as [HQ|HQ]; simpl;
      try (rewrite IH by assumption; reflexivity).
    + exfalso. apply HQ, HPQ; assumption.
    + exfalso. apply HP, HPQ; assumption.
Qed.

Section Invariant.
Variables (n : Z) (st : uf_state).
Hypothesis Hinv : uf_inv n st.

Lemma inv_count_le : 0 <= component_count st <= n.
Proof.
  rewrite (inv_count _ _ Hinv). split; [lia|].
  pose proof (length_filter (is_root (parent st)) (seqZ 0 n)) as H.
  rewrite length_seqZ in H. unfold roots.
  pose proof (inv_size _ _ Hinv). lia.
Qed.

Lemma inv_count_pos x : 0 <= x < n -> 1 <= component_count st.
Proof.
  intros Hx. destruct (inv_forest _ _ Hinv x Hx) as (r & d & Hr & _).
  assert (Hin : r ∈ roots n (parent st)).
  { apply elem_of_roots. split;
      [eapply reprd_cod | eapply reprd_is_root]; eauto. }
  rewrite (inv_count _ _ Hinv).
  destruct (roots n (parent st)); [inversion Hin | simpl; lia].
Qed.

Lemma inv_repr x : 0 <= x < n -> exists r, repr n (parent st) x r.
Proof.
  intros Hx. destruct (inv_forest _ _ Hinv x Hx) as (r & d & Hr & _).
  exists r, d. exact Hr.
Qed.

(** [find] returns: the fuel of [find] covers every path of the forest. *)
Lemma find_spec x :
  0 <= x < n ->
  exists p' r, find st x = Ok (set_parent st p', r) /\
               repr n (parent st) x r /\
               compressed n (parent st) r p'.
Proof.
  intros Hx. destruct (inv_forest _ _ Hinv x Hx) as (r & d & Hr & Hd).
  pose proof (inv_count_pos x Hx). pose proof (inv_parent_len _ _ Hinv).
  destruct (find_fuel_spec _ _ _ _ _ Hr (S (length (parent st))))
    as (p' & Hf & Hc); [lia|].
  exists p', r. split; [exact Hf|]. split; [exists d; exact Hr | exact Hc].
Qed.

Lemma compressed_inv r p' :
  compressed n (parent st) r p' -> uf_inv n (set_parent st p').
Proof.
  intros Hc. destruct Hinv as [Hn Hpl Hrl Hf Hcnt Hrk].
  split; simpl; auto.
  - destruct Hc as [-> _]. exact Hpl.
  - intros x Hx. destruct (Hf x Hx) as (s & d & Hs & Hd).
    destruct (compressed_reprd _ _ _ _ Hc _ _ _ Hs) as (d' & Hs' & Hle).
    exists s, d'. split; [exact Hs' | lia].
  - rewrite (compressed_roots _ _ _ _ Hc). exact Hcnt.
Qed.

Lemma compressed_repr r p' u s :
  compressed n (parent st) r p' ->
  repr n p' u s <-> repr n (parent st) u s.
Proof.
  intros Hc. split; intros [d Hd].
  - destruct (inv_repr u (reprd_dom _ _ _ _ _ Hd)) as [s0 [d0 Hs0]].
    destruct (compressed_reprd _ _ _ _ Hc _ _ _ Hs0) as (d' & Hs' & _).
    destruct (reprd_fun _ _ _ _ _ _ _ Hd Hs') as [-> _].
    exists d0. exact Hs0.
  - destruct (compressed_reprd _ _ _ _ Hc _ _ _ Hd) as (d' & Hs' & _).
    exists d'. exact Hs'.
Qed.

End Invariant.

(** ** Linking one root under another *)

Section Link.
Variables (n : Z) (p : list Z) (a b : Z) (p' : list Z).
Hypothesis Ha : is_root p a.
Hypothesis Hb : is_root p b.
Hypothesis Hab : a <> b.
Hypothesis Han : 0 <= a < n.
Hypothesis Hbn : 0 <= b < n.
Hypothesis Hw : wr p a b = Ok p'.

Lemma link_root u : is_root p' u <-> is_root p u /\ u <> a.
Proof using All.
  unfold is_root in *. destruct (Z.eq_dec u a) as [->|Hne].
  - rewrite (rd_wr_eq _ _ _ _ Hw). split; [intros [=]; congruence | tauto].
  - rewrite (rd_wr_ne _ _ _ _ _ Hw Hne). tauto.
Qed.

Lemma link_reprd u s d :
  reprd n p u s d ->
  if decide (s = a) then reprd n p' u b (S d) else reprd n p' u s d.
Proof using All.
  assert (Hb' : reprd n p' b b O).
  { apply reprd_root; [assumption|]. apply link_root. auto. }
  induction 1 as [u Hu Hr | u v s d Hu Hr Hne H IH].
  - destruct (decide (u = a)) as [->|Hua].
    + apply reprd_step with b; auto. eapply rd_wr_eq; eauto.
    + apply reprd_root; [assumption|]. apply link_root. auto.
  - assert (Hua : u <> a).
    { intros ->. unfold is_root in Ha. congruence. }
    assert (Hr' : rd p' u = Ok v).
    { rewrite (rd_wr_ne _ _ _ _ _ Hw Hua). exact Hr. }
    destruct (decide (s = a)); eapply reprd_step; eauto.
Qed.

Lemma link_roots_length :
  length (roots n p) = S (length (roots n p')).
Proof using All.
  unfold roots. apply filter_remove_one with (a := a).
  - apply NoDup_seqZ.
  - apply elem_of_seqZ. lia.
  - exact Ha.
  - intros H%link_root. tauto.
  - intros x Hx. rewrite link_root. tauto.
Qed.

End Link.

Lemma link_inv n st a b p' rk' :
  uf_inv n st ->
  is_root (parent st) a -> is_root (parent st) b -> a <> b ->
  0 <= a < n -> 0 <= b < n ->
  wr (parent st) a b = Ok p' ->
  length rk' = length (rank st) ->
  (forall x, 0 <= x < n ->
     exists k, rd rk' x = Ok k /\ 0 <= k <= n - component_count st + 1) ->
  uf_inv n (mkState p' rk' (component_count st - 1)).
Proof.
  intros Hinv Ha Hb Hab Han Hbn Hw Hlen Hrk.
  pose proof (link_roots_length n _ _ _ _ Ha Hb Hab Han Hbn Hw) as Hcnt.
  destruct Hinv as [Hn Hpl Hrl Hf Hc Hr]. split; simpl.
  - exact Hn.
  - rewrite (wr_length _ _ _ _ Hw). exact Hpl.
  - rewrite Hlen. exact Hrl.
  - intros x Hx. destruct (Hf x Hx) as (s & d & Hs & Hd).
    pose proof (link_reprd n _ _ _ _ Ha Hb Hab Han Hbn Hw _ _ _ Hs) as Hl.
    destruct (decide (s = a)).
    + exists b, (S d). split; [exact Hl | lia].
    + exists s, d. split; [exact Hl | lia].
  - lia.
  - intros x Hx. destruct (Hrk x Hx) as (k & Hk & Hb'). exists k.
    split; [exact Hk | lia].
Qed.

(** ** initialize *)

Lemma init_loop_spec k : forall i st,
  0 <= i ->
  i + Z.of_nat k <= Z.of_nat (length (parent st)) ->
  i + Z.of_nat k <= Z.of_nat (length (rank st)) ->
  exists p r,
    init_loop k i st = Ok (mkState p r (component_count st)) /\
    length p = length (parent st) /\ length r = length (rank st) /\
    (forall j, i <= j < i + Z.of_nat k -> rd p j = Ok j /\ rd r j = Ok 0) /\
    (forall j, ~ i <= j < i + Z.of_nat k ->
       rd p j = rd (parent st) j /\ rd r j = rd (rank st) j).
Proof.
  induction k as [|k IH]; intros i st Hi Hp Hr.
  - exists (parent st), (rank st). destruct st; simpl.
    repeat split; auto; lia.
  - simpl.
    destruct (wr_total (parent st) i i) as [p1 Hp1]; [lia|].
    destruct (wr_total (rank st) i 0) as [r1 Hr1]; [lia|].
    rewrite Hp1; simpl. rewrite Hr1; simpl.
    pose proof (wr_length _ _ _ _ Hp1) as Hlp.
    pose proof (wr_length _ _ _ _ Hr1) as Hlr.
    destruct (IH (i + 1) (mkState p1 r1 (component_count st)))
      as (p & r & Hrun & Hlp' & Hlr' & Hin & Hout); simpl; try lia.
    simpl in *. exists p, r. split; [exact Hrun|].
    split; [congruence|]. split; [congruence|]. split.
    + intros j Hj. destruct (Z.eq_dec j i) as [->|Hne].
      * destruct (Hout i) as [-> ->]; [lia|].
        split; eapply rd_wr_eq; eauto.
      * apply Hin. lia.
    + intros j Hj. destruct (Hout j) as [-> ->]; [lia|].
      split; eapply rd_wr_ne; eauto; lia.
Qed.

Lemma initialize_spec cap n :
  0 <= n <= Z.of_nat cap ->
  exists p r,
    initialize (globals cap) n = Ok (mkState p r n) /\
    length p = cap /\ length r = cap /\
    (forall j, 0 <= j < n -> rd p j = Ok j /\ rd r j = Ok 0).
Proof.
  intros Hn. unfold initialize.
  destruct (init_loop_spec (Z.to_nat n) 0 (set_count (globals cap) n))
    as (p & r & Hrun & Hlp & Hlr & Hin & _); simpl;
    rewrite ?length_replicate; try lia.
  simpl in *. rewrite length_replicate in Hlp, Hlr.
  exists p, r. repeat split; auto; apply Hin; lia.
Qed.

(** Beyond the capacity, [initialize] writes outside the arrays. *)
Lemma init_loop_overflow k : forall i st,
  0 <= i <= Z.of_nat (length (parent st)) ->
  Z.of_nat (length (parent st)) < i + Z.of_nat k ->
  length (rank st) = length (parent st) ->
  init_loop k i st = Err OutOfBounds.
Proof.
  induction k as [|k IH]; intros i st Hi Hp Hlen; [lia|]. simpl.
  destruct (wr (parent st) i i) as [p1|e] eqn:Hp1; simpl.
  - pose proof Hp1 as [Hi1 _]%wr_Ok.
    destruct (wr (rank st) i 0) as [r1|e] eqn:Hr1; simpl.
    + apply IH; simpl.
      * rewrite (wr_length _ _ _ _ Hp1). lia.
      * rewrite (wr_length _ _ _ _ Hp1). lia.
      * rewrite (wr_length _ _ _ _ Hp1), (wr_length _ _ _ _ Hr1). exact Hlen.
    + unfold wr in Hr1. destruct (in_bounds (rank st) i); congruence.
  - unfold wr in Hp1. destruct (in_bounds (parent st) i); congruence.
Qed.

Lemma initialize_inv cap n st :
  0 <= n <= INT_MAX ->
  initialize (globals cap) n = Ok st ->
  uf_inv n st /\ component_count st = n /\
  forall j, 0 <= j < n -> rd (parent st) j = Ok j /\ rd (rank st) j = Ok 0.
Proof.
  intros Hn Hinit.
  assert (Hcap : n <= Z.of_nat cap).
  { destruct (Z.le_gt_cases n (Z.of_nat cap)) as [|Hgt]; [assumption|].
    unfold initialize in Hinit. rewrite init_loop_overflow in Hinit;
      simpl; rewrite ?length_replicate; try lia; discriminate. }
  destruct (initialize_spec cap n) as (p & r & Hrun & Hlp & Hlr & Hcells);
    [lia|].
  rewrite Hrun in Hinit. injection Hinit as <-. simpl.
  assert (Hroots : roots n p = seqZ 0 n).
  { apply filter_all. intros x Hx%elem_of_seqZ. apply Hcells. lia. }
  split; [|split; [reflexivity | exact Hcells]].
  split; simpl; try lia.
  - intros x Hx. exists x, O. split; [|lia].
    apply reprd_root; [assumption | apply Hcells; assumption].
  - rewrite Hroots, length_seqZ. lia.
  - intros x Hx. exists 0. split; [apply Hcells; assumption | lia].
Qed.

(** ** union_sets *)

Lemma find_root st r : is_root (parent st) r -> find st r = Ok (st, r).
Proof.
  intros Hr. unfold find, is_root in *. simpl. rewrite Hr; simpl.
  rewrite Z.eqb_refl; simpl. rewrite Hr. reflexivity.
Qed.

(** The fuel cannot be observed in a result. *)
Lemma find_fuel_enough st x res fuel :
  find st x = Ok res -> (length (parent st) < fuel)%nat ->
  find_fuel fuel st x = Ok res.
Proof. intros H Hle. eapply find_fuel_mono; [exact H | lia]. Qed.

(** An index outside the array is an access out of bounds. *)
Lemma find_out_of_bounds st x :
  ~ 0 <= x < Z.of_nat (length (parent st)) -> find st x = Err OutOfBounds.
Proof.
  intros Hx. unfold find. simpl. rewrite rd_oob by exact Hx. reflexivity.
Qed.

(** The two [find] calls that open [union_sets]. *)
Lemma find_twice n st x y :
  uf_inv n st -> 0 <= x < n -> 0 <= y < n ->
  exists p1 p2 rx ry,
    find st x = Ok (set_parent st p1, rx) /\
    find (set_parent st p1) y = Ok (set_parent st p2, ry) /\
    repr n (parent st) x rx /\ repr n (parent st) y ry /\
    compressed n (parent st) rx p1 /\ compressed n p1 ry p2 /\
    uf_inv n (set_parent st p2).
Proof.
  intros Hinv Hx Hy.
  destruct (find_spec n st Hinv x Hx) as (p1 & rx & Hfx & Hrx & Hc1).
  pose proof (compressed_inv n st Hinv rx p1 Hc1) as Hinv1.
  destruct (find_spec n _ Hinv1 y Hy) as (p2 & ry & Hfy & Hry & Hc2).
  simpl in *.
  exists p1, p2, rx, ry.
  split; [exact Hfx|]. split; [exact Hfy|]. split; [exact Hrx|].
  split; [apply (compressed_repr n st Hinv rx p1); assumption|].
  split; [exact Hc1|]. split; [exact Hc2|].
  apply (compressed_inv n _ Hinv1 ry p2 Hc2).
Qed.

Lemma wr_upd a i v : 0 <= i < Z.of_nat (length a) -> wr a i v = Ok (upd a i v).
Proof. intros Hi. apply wr_Ok. auto. Qed.

Lemma link_step st rx ry kx ky :
  0 <= rx < Z.of_nat (length (parent st)) ->
  0 <= ry < Z.of_nat (length (parent st)) ->
  0 <= rx < Z.of_nat (length (rank st)) ->
  rd (rank st) rx = Ok kx -> rd (rank st) ry = Ok ky ->
  is_int (kx + 1) -> is_int (component_count st - 1) ->
  (rkX ← rd (rank st) rx;
   rkY ← rd (rank st) ry;
   st3 ← (if rkX >? rkY then
            p ← wr (parent st) ry rx; Ok (set_parent st p)
          else if rkX <? rkY then
            p ← wr (parent st) rx ry; Ok (set_parent st p)
          else
            p ← wr (parent st) ry rx;
            r ← wr (rank st) rx (wrap32 (rkX + 1));
            Ok (mkState p r (component_count st)));
   Ok (set_count st3 (wrap32 (component_count st3 - 1))))
  = Ok (linked st rx ry kx ky).
Proof.
  intros Hx Hy Hxr Hkx Hky Hk Hc. rewrite Hkx, Hky; simpl.
  unfold linked, loser, winner. rewrite !Z.gtb_ltb.
  destruct (Z.ltb_spec ky kx) as [Hgt|Hle].
  - rewrite (wr_upd _ ry rx Hy); simpl. unfold set_count; simpl.
    rewrite (wrap32_id _ Hc).
    destruct (Z.eqb_spec kx ky); [lia | reflexivity].
  - destruct (Z.ltb_spec kx ky) as [Hlt|Hge].
    + rewrite (wr_upd _ rx ry Hx); simpl. unfold set_count; simpl.
      rewrite (wrap32_id _ Hc).
      destruct (Z.eqb_spec kx ky); [lia | reflexivity].
    + rewrite (wr_upd _ ry rx Hy); simpl.
      rewrite (wrap32_id _ Hk), (wr_upd _ rx _ Hxr); simpl.
      unfold set_count; simpl. rewrite (wrap32_id _ Hc).
      destruct (Z.eqb_spec kx ky); [reflexivity | lia].
Qed.

Lemma loser_winner rx ry kx ky :
  (loser rx ry kx ky = ry /\ winner rx ry kx ky = rx) \/
  (loser rx ry kx ky = rx /\ winner rx ry kx ky = ry).
Proof.
  unfold loser, winner. destruct (kx >? ky); [auto|].
  destruct (kx <? ky); auto.
Qed.

Lemma linked_inv n st rx ry kx ky :
  uf_inv n st ->
  is_root (parent st) rx -> is_root (parent st) ry -> rx <> ry ->
  0 <= rx < n -> 0 <= ry < n ->
  rd (rank st) rx = Ok kx ->
  uf_inv n (linked st rx ry kx ky).
Proof.
  intros Hinv Hrx Hry Hne Hx Hy Hkx. unfold linked.
  pose proof (inv_parent_len _ _ Hinv) as Hpl.
  pose proof (inv_rank_len _ _ Hinv) as Hrl.
  set (rk' := if kx =? ky then upd (rank st) rx (kx + 1) else rank st).
  assert (Hlen : length rk' = length (rank st)).
  { subst rk'. destruct (kx =? ky); [apply length_insert | reflexivity]. }
  assert (Hrk' : forall u, 0 <= u < n ->
    exists k, rd rk' u = Ok k /\ 0 <= k <= n - component_count st + 1).
  { subst rk'. intros u Hu.
    destruct (inv_rank _ _ Hinv u Hu) as (k & Hk & Hb).
    destruct (kx =? ky); [|exists k; split; [assumption | lia]].
    destruct (Z.eq_dec u rx) as [->|Hux].
    - exists (kx + 1). split.
      + eapply rd_wr_eq. apply wr_upd. lia.
      + assert (k = kx) by congruence. lia.
    - exists k. split; [|lia].
      erewrite rd_wr_ne; [exact Hk | apply wr_upd; lia | exact Hux]. }
  clearbody rk'.
  destruct (loser_winner rx ry kx ky) as [[-> ->]|[-> ->]].
  - apply (link_inv n st ry rx); auto. apply wr_upd. lia.
  - apply (link_inv n st rx ry); auto. apply wr_upd. lia.
Qed.

Lemma union_sets_spec n st x y :
  uf_inv n st -> 0 <= x < n -> 0 <= y < n ->
  exists p1 p2 rx ry kx ky,
    find st x = Ok (set_parent st p1, rx) /\
    find (set_parent st p1) y = Ok (set_parent st p2, ry) /\
    repr n (parent st) x rx /\ repr n (parent st) y ry /\
    compressed n (parent st) rx p1 /\ compressed n p1 ry p2 /\
    uf_inv n (set_parent st p2) /\
    is_root p2 rx /\ is_root p2 ry /\
    rd (rank st) rx = Ok kx /\ rd (rank st) ry = Ok ky /\
    union_sets st x y =
      Ok (if decide (rx = ry) then set_parent st p2
          else linked (set_parent st p2) rx ry kx ky).
Proof.
  intros Hinv Hx Hy.
  destruct (find_twice n st x y Hinv Hx Hy)
    as (p1 & p2 & rx & ry & Hfx & Hfy & Hrx & Hry & Hc1 & Hc2 & Hinv2).
  pose proof Hrx as [dx Hdx]. pose proof Hry as [dy Hdy].
  pose proof (reprd_cod _ _ _ _ _ Hdx) as Hrxn.
  pose proof (reprd_cod _ _ _ _ _ Hdy) as Hryn.
  destruct (inv_rank _ _ Hinv rx Hrxn) as (kx & Hkx & Hkxb).
  destruct (inv_rank _ _ Hinv ry Hryn) as (ky & Hky & Hkyb).
  assert (Hroot : forall r, is_root (parent st) r -> is_root p2 r).
  { intros r Hr. apply (compressed_root _ _ _ _ Hc2).
    apply (compressed_root _ _ _ _ Hc1). exact Hr. }
  exists p1, p2, rx, ry, kx, ky.
  do 7 (split; [assumption|]).
  split; [apply Hroot; eapply reprd_is_root; eauto|].
  split; [apply Hroot; eapply reprd_is_root; eauto|].
  do 2 (split; [assumption|]).
  - unfold union_sets. rewrite Hfx; simpl. rewrite Hfy; simpl.
    destruct (Z.eqb_spec rx ry) as [->|Hne]; simpl.
    + rewrite decide_True by reflexivity. reflexivity.
    + rewrite decide_False by assumption.
      pose proof (inv_parent_len _ _ Hinv2) as Hpl.
      pose proof (inv_rank_len _ _ Hinv2) as Hrl.
      pose proof (inv_size _ _ Hinv) as Hn.
      pose proof (inv_count_pos _ _ Hinv x Hx) as Hpos.
      pose proof (inv_count_le _ _ Hinv) as Hle.
      simpl in Hpl, Hrl.
      apply (link_step (set_parent st p2)); simpl; auto; try lia;
        unfold is_int, INT_MIN, INT_MAX in *; lia.
Qed.

Lemma union_sets_inv n st x y :
  uf_inv n st -> 0 <= x < n -> 0 <= y < n ->
  exists st', union_sets st x y = Ok st' /\ uf_inv n st'.
Proof.
  intros Hinv Hx Hy.
  destruct (union_sets_spec n st x y Hinv Hx Hy)
    as (p1 & p2 & rx & ry & kx & ky & _ & _ & [dx Hrx] & [dy Hry] & _ & _
        & Hinv2 & Hrx2 & Hry2 & Hkx & _ & Hu).
  eexists. split; [exact Hu|].
  destruct (decide (rx = ry)); [exact Hinv2|].
  apply linked_inv; auto.
  - eapply reprd_cod; eauto.
  - eapply reprd_cod; eauto.
Qed.

(** ** Reachable states *)

Lemma in_range_true n x : in_range n x = true <-> 0 <= x < n.
Proof. unfold in_range. rewrite andb_true_iff, Z.leb_le, Z.ltb_lt. tauto. Qed.

Lemma find_inv n st x st' r :
  uf_inv n st -> 0 <= x < n -> find st x = Ok (st', r) ->
  uf_inv n st' /\ repr n (parent st) x r /\
  exists p', st' = set_parent st p' /\ compressed n (parent st) r p'.
Proof.
  intros Hinv Hx Hf.
  destruct (find_spec n st Hinv x Hx) as (p' & r' & Hf' & Hr & Hc).
  rewrite Hf' in Hf. injection Hf as <- <-.
  split; [eapply compressed_inv; eauto|]. split; [exact Hr|].
  exists p'. auto.
Qed.

Lemma run_ops_inv n ops : forall st st',
  uf_inv n st -> forallb (op_ok n) ops = true -> run_ops ops st = Ok st' ->
  uf_inv n st'.
Proof.
  induction ops as [|o ops IH]; intros st st' Hinv Hok Hrun; simpl in *.
  - injection Hrun as <-. exact Hinv.
  - apply andb_true_iff in Hok as [Ho Hok].
    apply bind_Ok in Hrun as (st1 & Hop & Hrun).
    apply (IH st1 st'); auto. destruct o as [x|x y]; simpl in *.
    + apply in_range_true in Ho.
      apply bind_Ok in Hop as ([st2 r] & Hf & [= <-]).
      eapply find_inv; eauto.
    + apply andb_true_iff in Ho as [Hx%in_range_true Hy%in_range_true].
      destruct (union_sets_inv n st x y Hinv Hx Hy) as (st2 & Hu & Hinv2).
      congruence.
Qed.

Lemma reachable_inv cap n st : reachable cap n st -> uf_inv n st.
Proof.
  intros (Hn & ops & st0 & Hinit & Hok & Hrun).
  eapply run_ops_inv; eauto. eapply initialize_inv; eauto.
Qed.

(** One more operation keeps a state reachable. *)
Lemma run_ops_app ops1 : forall ops2 st,
  run_ops (ops1 ++ ops2) st = (st' ← run_ops ops1 st; run_ops ops2 st').
Proof.
  induction ops1 as [|o ops1 IH]; intros ops2 st; simpl; [reflexivity|].
  destruct (do_op st o) as [st1|e]; simpl; [apply IH | reflexivity].
Qed.

Lemma reachable_step cap n st o st' :
  reachable cap n st -> op_ok n o = true -> do_op st o = Ok st' ->
  reachable cap n st'.
Proof.
  intros (Hn & ops & st0 & Hinit & Hok & Hrun) Ho Hop.
  split; [exact Hn|]. exists (ops ++ [o]), st0.
  split; [exact Hinit|]. split.
  - rewrite forallb_app, Hok. simpl. rewrite Ho. reflexivity.
  - rewrite run_ops_app, Hrun. simpl. rewrite Hop. reflexivity.
Qed.

(** ** Representatives as [find] computes them *)

Lemma rep_repr n st x r :
  uf_inv n st -> 0 <= x < n ->
  rep st x = Some r <-> repr n (parent st) x r.
Proof.
  intros Hinv Hx. unfold rep.
  destruct (find_spec n st Hinv x Hx) as (p' & r' & -> & [d Hr] & _).
  split.
  - intros [= <-]. exists d. exact Hr.
  - intros [d' Hr']. destruct (reprd_fun _ _ _ _ _ _ _ Hr Hr') as [-> _].
    reflexivity.
Qed.

Lemma rep_total n st x :
  uf_inv n st -> 0 <= x < n ->
  exists r, rep st x = Some r /\ 0 <= r < n /\ is_root (parent st) r.
Proof.
  intros Hinv Hx. destruct (inv_repr n st Hinv x Hx) as [r [d Hr]].
  exists r. split; [apply (rep_repr n); auto; exists d; exact Hr|].
  split; [eapply reprd_cod | eapply reprd_is_root]; eauto.
Qed.

Lemma rep_compressed n st r p' u :
  uf_inv n st -> compressed n (parent st) r p' -> 0 <= u < n ->
  rep (set_parent st p') u = rep st u.
Proof.
  intros Hinv Hc Hu.
  destruct (rep_total n st u Hinv Hu) as (s & Hs & _).
  rewrite Hs. apply (rep_repr n); auto.
  - eapply compressed_inv; eauto.
  - simpl. apply (compressed_repr n st Hinv r p' u s Hc).
    apply (rep_repr n); auto.
Qed.

(** ** Walking up the parent links *)

Lemma ancestor_reprd n p k : forall x r d,
  reprd n p x r d ->
  exists z, ancestor p k x = Ok z /\ reprd n p z r (d - k).
Proof.
  induction k as [|k IH]; intros x r d H.
  - exists x. rewrite Nat.sub_0_r. auto.
  - simpl. inversion H as [x' Hx Hr | x' y r' d' Hx Hr Hne Hy]; subst.
    + rewrite Hr; simpl. apply (IH r r O). exact H.
    + rewrite Hr; simpl. apply (IH y r d'). exact Hy.
Qed.

Lemma no_cycle n st x k :
  uf_inv n st -> 0 <= x < n ->
  ancestor (parent st) (S k) x = Ok x -> is_root (parent st) x.
Proof.
  intros Hinv Hx Hk.
  destruct (inv_forest _ _ Hinv x Hx) as (r & d & Hr & _).
  destruct (ancestor_reprd n _ (S k) x r d Hr) as (z & Hz & Hzr).
  assert (z = x) by congruence. subst z.
  destruct (reprd_fun _ _ _ _ _ _ _ Hr Hzr) as [_ Hd].
  assert (d = O) by lia. subst d.
  inversion Hr; assumption.
Qed.

Lemma representatives_roots n st :
  uf_inv n st -> representatives n st = list_to_set (roots n (parent st)).
Proof.
  intros Hinv. apply set_eq. intros r. unfold representatives.
  rewrite !elem_of_list_to_set, list_elem_of_omap, elem_of_roots. split.
  - intros (x & Hx%elem_of_seqZ & Hrep).
    assert (Hx' : 0 <= x < n) by lia.
    apply (rep_repr n st x r Hinv Hx') in Hrep as [d Hd].
    split; [eapply reprd_cod | eapply reprd_is_root]; eauto.
  - intros [Hr Hroot]. exists r. split; [apply elem_of_seqZ; lia|].
    unfold rep. rewrite (find_root st r Hroot). reflexivity.
Qed.

(** ** union_sets on representatives *)

Lemma linked_repr n st rx ry kx ky u s :
  is_root (parent st) rx -> is_root (parent st) ry -> rx <> ry ->
  0 <= rx < n -> 0 <= ry < n ->
  0 <= rx < Z.of_nat (length (parent st)) ->
  0 <= ry < Z.of_nat (length (parent st)) ->
  repr n (parent st) u s ->
  repr n (parent (linked st rx ry kx ky)) u
    (if decide (s = loser rx ry kx ky) then winner rx ry kx ky else s).
Proof.
  intros Hrx Hry Hne Hx Hy Hbx Hby [d Hd]. unfold linked; simpl.
  destruct (loser_winner rx ry kx ky) as [[-> ->]|[-> ->]].
  - pose proof (link_reprd n _ ry rx _ Hry Hrx (not_eq_sym Hne) Hy Hx
                  (wr_upd _ _ _ Hby) _ _ _ Hd) as H.
    destruct (decide (s = ry)); eexists; exact H.
  - pose proof (link_reprd n _ rx ry _ Hrx Hry Hne Hx Hy
                  (wr_upd _ _ _ Hbx) _ _ _ Hd) as H.
    destruct (decide (s = rx)); eexists; exact H.
Qed.

(** Within one component [union_sets] only compresses paths. *)
Lemma union_sets_same n st x y r :
  uf_inv n st -> 0 <= x < n -> 0 <= y < n ->
  rep st x = Some r -> rep st y = Some r ->
  exists p1 p2,
    union_sets st x y = Ok (set_parent st p2) /\
    compressed n (parent st) r p1 /\ compressed n p1 r p2 /\
    uf_inv n (set_parent st p1) /\ uf_inv n (set_parent st p2).
Proof.
  intros Hinv Hx Hy Hrx Hry.
  destruct (union_sets_spec n st x y Hinv Hx Hy)
    as (p1 & p2 & rx & ry & kx & ky & _ & _ & Hx' & Hy' & Hc1 & Hc2
        & Hinv2 & _ & _ & _ & _ & Hu).
  apply (rep_repr n st x rx Hinv Hx) in Hx'.
  apply (rep_repr n st y ry Hinv Hy) in Hy'.
  assert (rx = r) by congruence. assert (ry = r) by congruence. subst rx ry.
  rewrite decide_True in Hu by reflexivity.
  exists p1, p2. do 3 (split; [assumption|]).
  split; [eapply compressed_inv; eauto | exact Hinv2].
Qed.

(** After [union_sets (x, y)] the two elements share a representative. *)
Lemma union_sets_joins n st x y :
  uf_inv n st -> 0 <= x < n -> 0 <= y < n ->
  exists st' r,
    union_sets st x y = Ok st' /\ uf_inv n st' /\
    rep st' x = Some r /\ rep st' y = Some r.
Proof.
  intros Hinv Hx Hy.
  destruct (union_sets_spec n st x y Hinv Hx Hy)
    as (p1 & p2 & rx & ry & kx & ky & _ & _ & Hx' & Hy' & Hc1 & Hc2
        & Hinv2 & Hrx2 & Hry2 & Hkx & _ & Hu).
  pose proof (compressed_inv n st Hinv rx p1 Hc1) as Hinv1.
  assert (Hx2 : repr n p2 x rx).
  { apply (compressed_repr n _ Hinv1 ry p2 x rx Hc2). simpl.
    apply (compressed_repr n st Hinv rx p1 x rx Hc1). exact Hx'. }
  assert (Hy2 : repr n p2 y ry).
  { apply (compressed_repr n _ Hinv1 ry p2 y ry Hc2). simpl.
    apply (compressed_repr n st Hinv rx p1 y ry Hc1). exact Hy'. }
  destruct (union_sets_inv n st x y Hinv Hx Hy) as (st' & Hu' & Hinv').
  rewrite Hu in Hu'. injection Hu' as Hst'.
  exists st'. destruct (decide (rx = ry)) as [->|Hne]; subst st'.
  - exists ry. split; [exact Hu|]. split; [exact Hinv'|].
    split; apply (rep_repr n); auto.
  - pose proof Hx' as [dx Hdx]. pose proof Hy' as [dy Hdy].
    pose proof (reprd_cod _ _ _ _ _ Hdx) as Hxn.
    pose proof (reprd_cod _ _ _ _ _ Hdy) as Hyn.
    pose proof (rd_bounds _ _ _ Hrx2) as Hbx.
    pose proof (rd_bounds _ _ _ Hry2) as Hby.
    pose proof (linked_repr n (set_parent st p2) rx ry kx ky x rx
                  Hrx2 Hry2 Hne Hxn Hyn Hbx Hby Hx2) as Lx.
    pose proof (linked_repr n (set_parent st p2) rx ry kx ky y ry
                  Hrx2 Hry2 Hne Hxn Hyn Hbx Hby Hy2) as Ly.
    exists (winner rx ry kx ky).
    split; [exact Hu|]. split; [exact Hinv'|].
    destruct (loser_winner rx ry kx ky) as [[El Ew]|[El Ew]];
      rewrite El, Ew in *.
    + rewrite decide_False in Lx by assumption.
      rewrite decide_True in Ly by reflexivity.
      split; apply (rep_repr n); auto.
    + rewrite decide_True in Lx by reflexivity.
      rewrite decide_False in Ly by auto.
      split; apply (rep_repr n); auto.
Qed.

(** * The claims *)

(** C6: in every reachable state and for every element [x] of [[0, n)],
    [find (x)] returns a value [y] that is a root: [find (y)] returns [y]
    again (and leaves the state as it is). *)
Theorem find_returns_root cap n st x :
  reachable cap n st -> 0 <= x < n ->
  exists st' y,
    find st x = Ok (st', y) /\ 0 <= y < n /\
    is_root (parent st') y /\ find st' y = Ok (st', y).
Proof.
  intros Hinv%reachable_inv Hx.
  destruct (find_spec n st Hinv x Hx) as (p' & r & Hf & [d Hr] & Hc).
  assert (Hroot : is_root (parent (set_parent st p')) r).
  { simpl. apply (compressed_root _ _ _ _ Hc). eapply reprd_is_root; eauto. }
  exists (set_parent st p'), r.
  split; [exact Hf|]. split; [eapply reprd_cod; eauto|].
  split; [exact Hroot | apply find_root; exact Hroot].
Qed.

(** C10: [find (x)] never changes the partition: two elements have the
    same representative after the call exactly when they had the same
    representative before it.  Every element keeps its representative, a
    re-pointed node now points to the root that [find] returned, which was
    its root before, and [component_count] and [rank] are untouched. *)
Theorem find_preserves_partition cap n st x st' r :
  reachable cap n st -> 0 <= x < n -> find st x = Ok (st', r) ->
  (forall u v, 0 <= u < n -> 0 <= v < n ->
     (rep st' u = rep st' v <-> rep st u = rep st v)) /\
  (forall u, 0 <= u < n -> rep st' u = rep st u) /\
  (forall w, rd (parent st') w = rd (parent st) w \/
             (rd (parent st') w = Ok r /\ rep st w = Some r)) /\
  component_count st' = component_count st /\
  rank st' = rank st.
Proof.
  intros Hinv%reachable_inv Hx Hf.
  destruct (find_inv n st x st' r Hinv Hx Hf) as (Hinv' & Hr & p' & -> & Hc).
  assert (Hrep : forall u, 0 <= u < n -> rep (set_parent st p') u = rep st u).
  { intros u Hu. eapply rep_compressed; eauto. }
  split; [|split; [exact Hrep|split; [|split; reflexivity]]].
  - intros u v Hu Hv. rewrite (Hrep u Hu), (Hrep v Hv). tauto.
  - intros w. simpl. destruct Hc as [_ Hc].
    destruct (Hc w) as [Hw | [Hw [d Hd]]]; [left; exact Hw | right].
    split; [exact Hw|]. apply (rep_repr n); auto.
    + eapply reprd_dom; eauto.
    + exists d. exact Hd.
Qed.

(** C1: when the representatives of [x] and [y] differ, [union_sets]
    merges by rank.  The root of strictly greater rank becomes the parent
    of the other root; on equal ranks [rootX] becomes the parent of
    [rootY] and [rank[rootX]] grows by exactly 1; [component_count]
    drops by exactly 1. *)
Theorem union_by_rank cap n st x y sx sy rootX rootY :
  reachable cap n st -> 0 <= x < n -> 0 <= y < n ->
  find st x = Ok (sx, rootX) -> find st y = Ok (sy, rootY) ->
  rootX <> rootY ->
  exists st' kx ky,
    union_sets st x y = Ok st' /\
    rd (rank st) rootX = Ok kx /\ rd (rank st) rootY = Ok ky /\
    component_count st' = component_count st - 1 /\
    (kx > ky ->
       rd (parent st') rootY = Ok rootX /\ is_root (parent st') rootX /\
       rank st' = rank st) /\
    (kx < ky ->
       rd (parent st') rootX = Ok rootY /\ is_root (parent st') rootY /\
       rank st' = rank st) /\
    (kx = ky ->
       rd (parent st') rootY = Ok rootX /\ is_root (parent st') rootX /\
       rd (rank st') rootX = Ok (kx + 1) /\
       forall j, j <> rootX -> rd (rank st') j = rd (rank st) j).
Proof.
  intros Hinv%reachable_inv Hx Hy Hfx Hfy Hne.
  destruct (union_sets_spec n st x y Hinv Hx Hy)
    as (p1 & p2 & rx & ry & kx & ky & Hfx' & _ & [dx Hrx] & [dy Hry] & _ & _
        & Hinv2 & Hrx2 & Hry2 & Hkx & Hky & Hu).
  assert (rootX = rx) by congruence. subst rx.
  pose proof (reprd_cod _ _ _ _ _ Hrx) as Hxn.
  pose proof (reprd_cod _ _ _ _ _ Hry) as Hyn.
  destruct (find_inv n st y sy rootY Hinv Hy Hfy) as (_ & [dy' Hry'] & _).
  destruct (reprd_fun _ _ _ _ _ _ _ Hry Hry') as [-> _].
  rewrite decide_False in Hu by assumption.
  pose proof (rd_bounds _ _ _ Hrx2) as Hbx.
  pose proof (rd_bounds _ _ _ Hry2) as Hby.
  pose proof (rd_bounds _ _ _ Hkx) as Hbk.
  exists (linked (set_parent st p2) rootX rootY kx ky), kx, ky.
  do 3 (split; [assumption|]). split; [reflexivity|].
  unfold linked, loser, winner; simpl. rewrite !Z.gtb_ltb.
  split; [|split].
  - intros Hgt. destruct (Z.ltb_spec ky kx); [|lia].
    destruct (Z.eqb_spec kx ky); [lia|].
    split; [eapply rd_wr_eq; apply wr_upd; assumption|].
    split; [|reflexivity].
    apply (link_root n p2 rootY rootX _ Hry2 Hrx2); auto.
    apply wr_upd; assumption.
  - intros Hlt. destruct (Z.ltb_spec ky kx); [lia|].
    destruct (Z.ltb_spec kx ky); [|lia].
    destruct (Z.eqb_spec kx ky); [lia|].
    split; [eapply rd_wr_eq; apply wr_upd; assumption|].
    split; [|reflexivity].
    apply (link_root n p2 rootX rootY _ Hrx2 Hry2); auto.
    apply wr_upd; assumption.
  - intros ->. destruct (Z.ltb_spec ky ky); [lia|].
    rewrite Z.eqb_refl.
    split; [eapply rd_wr_eq; apply wr_upd; assumption|].
    split; [|split].
    + apply (link_root n p2 rootY rootX _ Hry2 Hrx2); auto.
      apply wr_upd; assumption.
    + eapply rd_wr_eq. apply wr_upd. exact Hbk.
    + intros j Hj. eapply rd_wr_ne; [apply wr_upd; exact Hbk | exact Hj].
Qed.

(** C5: after [initialize (n)] and any sequence of [find] and
    [union_sets] calls on elements of [[0, n)], the parent links form a
    forest (every element reaches a root, and the only cycles are the
    self-loops of the roots), [find (x)] returns for every [x] of
    [[0, n)], and [component_count] is the number of distinct roots that
    [find] returns. *)
Theorem forest_invariant cap n st :
  reachable cap n st ->
  (forall x, 0 <= x < n -> exists r, repr n (parent st) x r) /\
  (forall x k, 0 <= x < n ->
     ancestor (parent st) (S k) x = Ok x -> is_root (parent st) x) /\
  (forall x, 0 <= x < n ->
     exists st' r, find st x = Ok (st', r) /\ repr n (parent st) x r) /\
  component_count st = Z.of_nat (size (representatives n st)).
Proof.
  intros Hinv%reachable_inv.
  split; [intros x Hx; apply (inv_repr n st Hinv x Hx)|].
  split; [intros x k Hx; apply (no_cycle n st x k Hinv Hx)|].
  split.
  - intros x Hx.
    destruct (find_spec n st Hinv x Hx) as (p' & r & Hf & Hr & _).
    exists (set_parent st p'), r. auto.
  - rewrite (representatives_roots n st Hinv).
    rewrite size_list_to_set by apply NoDup_roots.
    apply (inv_count _ _ Hinv).
Qed.

(** C7, as the code has it: when [find (x)] equals [find (y)],
    [union_sets (x, y)] changes neither [component_count] nor [rank] nor
    the representative of any element; in [parent] it only re-points
    nodes of that component to their root (the path compression of its
    two [find] calls).  Calling [union_sets (x, y)] twice in a row, the
    second call leaves [component_count] as the first one left it, so it
    adds the same value to [F]. *)
Theorem union_same_component cap n st x y :
  reachable cap n st -> 0 <= x < n -> 0 <= y < n ->
  (forall sx sy r,
     find st x = Ok (sx, r) -> find st y = Ok (sy, r) ->
     exists st',
       union_sets st x y = Ok st' /\
       component_count st' = component_count st /\
       rank st' = rank st /\
       (forall u, 0 <= u < n -> rep st' u = rep st u) /\
       (forall w, rd (parent st') w = rd (parent st) w \/
                  (rd (parent st') w = Ok r /\ rep st w = Some r))) /\
  (exists st1 st2,
     union_sets st x y = Ok st1 /\ union_sets st1 x y = Ok st2 /\
     component_count st2 = component_count st1 /\
     rank st2 = rank st1 /\
     (forall u, 0 <= u < n -> rep st2 u = rep st1 u) /\
     forall F0, wrap64 (F0 + component_count st2) =
                wrap64 (F0 + component_count st1)).
Proof.
  intros Hinv%reachable_inv Hx Hy.
  assert (Hsame : forall s r, uf_inv n s ->
    rep s x = Some r -> rep s y = Some r ->
    exists s',
      union_sets s x y = Ok s' /\
      component_count s' = component_count s /\ rank s' = rank s /\
      (forall u, 0 <= u < n -> rep s' u = rep s u) /\
      (forall w, rd (parent s') w = rd (parent s) w \/
                 (rd (parent s') w = Ok r /\ rep s w = Some r))).
  { intros s r Hs Hrx Hry.
    destruct (union_sets_same n s x y r Hs Hx Hy Hrx Hry)
      as (p1 & p2 & Hu & Hc1 & Hc2 & Hinv1 & Hinv2).
    exists (set_parent s p2). split; [exact Hu|].
    split; [reflexivity|]. split; [reflexivity|]. split.
    - intros u Hu'.
      rewrite <- (rep_compressed n s r p1 u Hs Hc1 Hu').
      apply (rep_compressed n (set_parent s p1) r p2 u Hinv1 Hc2 Hu').
    - intros w. simpl.
      pose proof Hc1 as [_ Hc1']. pose proof Hc2 as [_ Hc2'].
      assert (Hrep : repr n (parent s) w r -> rep s w = Some r).
      { intros [d Hd]. apply (rep_repr n); auto.
        - eapply reprd_dom; eauto.
        - exists d. exact Hd. }
      destruct (Hc2' w) as [-> | [Hw2 [d Hd]]].
      + destruct (Hc1' w) as [-> | [Hw1 [d Hd]]]; [left; reflexivity|].
        right. split; [exact Hw1|]. apply Hrep. exists d. exact Hd.
      + right. split; [exact Hw2|]. apply Hrep.
        apply (compressed_repr n s Hs r p1 w r Hc1). exists d. exact Hd. }
  split.
  - intros sx sy r Hfx Hfy. apply Hsame; [exact Hinv | |]; unfold rep.
    + rewrite Hfx. reflexivity.
    + rewrite Hfy. reflexivity.
  - destruct (union_sets_joins n st x y Hinv Hx Hy)
      as (st1 & r & Hu1 & Hinv1 & Hrx & Hry).
    destruct (Hsame st1 r Hinv1 Hrx Hry) as (st2 & Hu2 & Hcc & Hrk & Hrep & _).
    exists st1, st2. do 4 (split; [assumption|]).
    split; [exact Hrep|]. intros F0. rewrite Hcc. reflexivity.
Qed.

(** * The query loop *)

(** ** Decoding *)

Lemma rem_is_int v N :
  1 <= N <= INT_MAX -> is_int (Z.rem v N) /\ - N < Z.rem v N < N.
Proof.
  intros HN. assert (H : - N < Z.rem v N < N).
  { pose proof (Z.rem_bound_abs v N). lia. }
  split; [|exact H]. unfold is_int, INT_MIN, INT_MAX in *. lia.
Qed.

Lemma c_rem_Ok v N : 1 <= N -> c_rem v N = Ok (Z.rem v N).
Proof.
  intros HN. unfold c_rem.
  destruct (Z.eqb_spec N 0); [lia|].
  destruct (Z.eqb_spec N (-1)); [lia|].
  rewrite andb_false_r. reflexivity.
Qed.

Lemma decode_Ok N F0 a b :
  1 <= N <= INT_MAX ->
  decode N F0 a b =
    Ok (if Z.rem (Z.lxor a F0) N >? Z.rem (Z.lxor b F0) N
        then (Z.rem (Z.lxor b F0) N, Z.rem (Z.lxor a F0) N)
        else (Z.rem (Z.lxor a F0) N, Z.rem (Z.lxor b F0) N)).
Proof.
  intros HN. unfold decode. rewrite !c_rem_Ok by lia. simpl.
  rewrite !wrap32_id by (apply rem_is_int; assumption).
  destruct (_ >? _); reflexivity.
Qed.

Lemma decode_range N F0 a b x y :
  1 <= N <= INT_MAX -> decode N F0 a b = Ok (x, y) ->
  - N < x /\ x <= y /\ y < N.
Proof.
  intros HN. rewrite decode_Ok by assumption.
  pose proof (rem_is_int (Z.lxor a F0) N HN) as [_ Ha].
  pose proof (rem_is_int (Z.lxor b F0) N HN) as [_ Hb].
  rewrite Z.gtb_ltb. destruct (Z.ltb_spec (Z.rem (Z.lxor b F0) N)
                                 (Z.rem (Z.lxor a F0) N));
    intros [= <- <-]; lia.
Qed.

Lemma rem_nonneg_mod a F0 N :
  1 <= N -> 0 <= a -> 0 <= F0 ->
  Z.rem (Z.lxor a F0) N = Z.lxor a F0 mod N /\ 0 <= Z.rem (Z.lxor a F0) N < N.
Proof.
  intros HN Ha HF.
  assert (Hx : 0 <= Z.lxor a F0) by (apply Z.lxor_nonneg; tauto).
  rewrite Z.rem_mod_nonneg by lia.
  split; [reflexivity | apply Z.mod_pos_bound; lia].
Qed.

(** ** Indices that a successful call was given *)

Lemma find_Ok_bounds st x res :
  find st x = Ok res -> 0 <= x < Z.of_nat (length (parent st)).
Proof.
  unfold find. simpl.
  destruct (rd (parent st) x) as [px|] eqn:Hr; [|discriminate].
  intros _. eapply rd_bounds; eauto.
Qed.

Lemma union_sets_Ok_bounds st x y st' :
  union_sets st x y = Ok st' -> 0 <= x /\ 0 <= y.
Proof.
  unfold union_sets. intros H.
  apply bind_Ok in H as ([st1 rx] & Hfx & H).
  apply bind_Ok in H as ([st2 ry] & Hfy & _).
  apply find_Ok_bounds in Hfx. apply find_Ok_bounds in Hfy. lia.
Qed.

(** ** Unrolling the loop from its end *)

Lemma bind_ret_r {A} (m : outcome A) : (a ← m; Ok a) = m.
Proof. destruct m; reflexivity. Qed.

Lemma bind_ret_l {A B} (a : A) (f : A -> outcome B) : (x ← Ok a; f x) = f a.
Proof. reflexivity. Qed.

Lemma bind_assoc {A B C} (m : outcome A) (f : A -> outcome B)
    (g : B -> outcome C) :
  (b ← (a ← m; f a); g b) = (a ← m; b ← f a; g b).
Proof. destruct m; reflexivity. Qed.

Lemma query_loop_S N k : forall i input m,
  query_loop N (S k) i input m =
  (m' ← query_loop N k i input m;
   match input !! k with
   | Some (a, b) => query_step N (i + Z.of_nat k) a b m'
   | None => Err InputExhausted
   end).
Proof.
  induction k as [|k IH]; intros i input m.
  - simpl. destruct input as [|[a b] rest]; [reflexivity|]. simpl.
    rewrite Z.add_0_r. apply bind_ret_r.
  - change (query_loop N (S (S k)) i input m) with
      (match input with
       | [] => Err InputExhausted
       | (a, b) :: rest =>
           m' ← query_step N i a b m; query_loop N (S k) (i + 1) rest m'
       end).
    destruct input as [|[a b] rest]; [reflexivity|].
    change (query_loop N (S k) i ((a, b) :: rest) m) with
      (m' ← query_step N i a b m; query_loop N k (i + 1) rest m').
    rewrite bind_assoc.
    destruct (query_step N i a b m) as [m1|e]; [|reflexivity].
    rewrite !bind_ret_l, IH.
    replace (i + 1 + Z.of_nat k) with (i + Z.of_nat (S k)) by lia.
    reflexivity.
Qed.

Lemma run_S cap N input k :
  run cap N input (S k) =
  (m ← run cap N input k;
   match input !! k with
   | Some (a, b) => query_step N (Z.of_nat k) a b m
   | None => Err InputExhausted
   end).
Proof.
  unfold run, main_with. rewrite !Nat2Z.id, bind_assoc.
  destruct (initialize (globals cap) N) as [st|e]; [|reflexivity].
  rewrite !bind_ret_l, query_loop_S. reflexivity.
Qed.

Lemma run_S_Ok cap N input k m' :
  run cap N input (S k) = Ok m' ->
  exists m a b,
    run cap N input k = Ok m /\ input !! k = Some (a, b) /\
    query_step N (Z.of_nat k) a b m = Ok m'.
Proof.
  rewrite run_S. intros (m & Hm & H)%bind_Ok.
  destruct (input !! k) as [[a b]|]; [|discriminate].
  exists m, a, b. auto.
Qed.

(** ** The invariant of the loop *)

Lemma reachable_count cap N st x :
  reachable cap N st -> 0 <= x < N -> 1 <= component_count st <= N.
Proof.
  intros Hinv%reachable_inv Hx.
  pose proof (inv_count_pos _ _ Hinv x Hx).
  pose proof (inv_count_le _ _ Hinv). lia.
Qed.

Lemma add_count_llong N k F0 c :
  1 <= N <= INT_MAX -> Z.of_nat k < INT_MAX ->
  0 <= F0 <= Z.of_nat k * N -> 1 <= c <= N ->
  wrap64 (F0 + c) = F0 + c /\ 0 <= F0 + c <= Z.of_nat (S k) * N.
Proof.
  intros HN Hk HF Hc. split; [|lia].
  apply wrap64_id. unfold is_llong, LLONG_MIN, LLONG_MAX, INT_MAX in *.
  change (2 ^ 63) with 9223372036854775808.
  change (2 ^ 31) with 2147483648 in *. nia.
Qed.

Lemma even_step k : Z.rem (Z.of_nat k) 2 = 0 ->
  Z.of_nat (S k) / 2 = Z.of_nat k / 2.
Proof.
  rewrite Z.rem_mod_nonneg by lia. rewrite Nat2Z.inj_succ. intros H.
  Z.div_mod_to_equations. lia.
Qed.

Lemma odd_step k : Z.rem (Z.of_nat k) 2 <> 0 ->
  Z.of_nat (S k) / 2 = Z.of_nat k / 2 + 1.
Proof.
  rewrite Z.rem_mod_nonneg by lia. rewrite Nat2Z.inj_succ. intros H.
  Z.div_mod_to_equations. lia.
Qed.

(** What one iteration does to a machine that satisfies the invariant. *)
Lemma query_step_inv cap N k a b m m' :
  1 <= N <= INT_MAX -> Z.of_nat k < INT_MAX ->
  run_inv cap N k m ->
  query_step N (Z.of_nat k) a b m = Ok m' ->
  exists x y,
    decode N (F m) a b = Ok (x, y) /\ 0 <= x <= y /\ y < N /\
    serve (Z.of_nat k) x y m = Ok m' /\
    run_inv cap N (S k) m' /\
    F m' = F m + component_count (uf m').
Proof.
  intros HN Hk [Hreach HF Hout] Hstep. unfold query_step in Hstep.
  apply bind_Ok in Hstep as ([x y] & Hdec & Hserve).
  pose proof (decode_range _ _ _ _ _ _ HN Hdec) as (Hlo & Hxy & Hhi).
  exists x, y. split; [exact Hdec|].
  pose proof Hserve as Hserve0. unfold serve in Hserve.
  destruct (Z.eqb_spec (Z.rem (Z.of_nat k) 2) 0) as [Heven|Hodd].
  - apply bind_Ok in Hserve as (st & Hu & [= <-]). simpl.
    pose proof (union_sets_Ok_bounds _ _ _ _ Hu) as [Hx0 Hy0].
    assert (Hr' : reachable cap N st).
    { apply (reachable_step cap N (uf m) (Union x y)); auto. simpl.
      apply andb_true_iff. split; apply in_range_true; lia. }
    pose proof (reachable_count cap N st x Hr' ltac:(lia)) as Hc.
    destruct (add_count_llong N k (F m) _ HN Hk HF Hc) as [HF1 HF'].
    do 2 (split; [lia|]). split; [exact Hserve0|]. split; [|exact HF1].
    split; simpl; auto.
    + rewrite HF1. assumption.
    + rewrite even_step; assumption.
  - apply bind_Ok in Hserve as ([st1 rx] & Hfx & Hserve).
    apply bind_Ok in Hserve as ([st2 ry] & Hfy & Hserve).
    pose proof (find_Ok_bounds _ _ _ Hfx) as Hx0.
    pose proof (find_Ok_bounds _ _ _ Hfy) as Hy0.
    assert (Hr1 : reachable cap N st1).
    { apply (reachable_step cap N (uf m) (Find x)); auto.
      - apply in_range_true; lia.
      - simpl. rewrite Hfx. reflexivity. }
    assert (Hr2 : reachable cap N st2).
    { apply (reachable_step cap N st1 (Find y)); auto.
      - apply in_range_true; lia.
      - simpl. rewrite Hfy. reflexivity. }
    pose proof (reachable_count cap N st2 x Hr2 ltac:(lia)) as Hc.
    destruct (add_count_llong N k (F m) _ HN Hk HF Hc) as [HF1 HF'].
    do 2 (split; [lia|]). split; [exact Hserve0|].
    destruct (rx =? ry); injection Hserve as <-; simpl;
      (split; [|exact HF1]); split; simpl; auto;
      try (rewrite HF1; assumption);
      rewrite length_app, odd_step by assumption; simpl; lia.
Qed.

Lemma run_inv_holds cap N input k : forall m,
  1 <= N <= INT_MAX -> Z.of_nat k <= INT_MAX ->
  run cap N input k = Ok m -> run_inv cap N k m.
Proof.
  induction k as [|k IH]; intros m HN Hk Hrun.
  - unfold run, main_with in Hrun. simpl in Hrun.
    apply bind_Ok in Hrun as (st & Hinit & [= <-]).
    split; simpl; try lia.
    + split; [lia|]. exists [], st. auto.
    + reflexivity.
  - apply run_S_Ok in Hrun as (m0 & a & b & Hrun & _ & Hstep).
    destruct (query_step_inv cap N k a b m0 m HN ltac:(lia)
                (IH m0 HN ltac:(lia) Hrun) Hstep)
      as (x & y & _ & _ & _ & _ & Hinv & _).
    exact Hinv.
Qed.

Lemma even_of_nat k : (Z.rem (Z.of_nat k) 2 =? 0) = Nat.even k.
Proof.
  rewrite Z.rem_mod_nonneg, <- Zeven_mod by lia.
  induction k as [|k IH]; [reflexivity|].
  rewrite Nat2Z.inj_succ, Z.even_succ, Nat.even_succ.
  rewrite <- Z.negb_even, <- Nat.negb_even. congruence.
Qed.

Lemma F_contributions cap N input k : forall m,
  1 <= N <= INT_MAX -> Z.of_nat k <= INT_MAX ->
  run cap N input k = Ok m -> F m = contributions cap N input k.
Proof.
  induction k as [|k IH]; intros m HN Hk Hrun.
  - unfold run, main_with in Hrun. simpl in Hrun.
    apply bind_Ok in Hrun as (st & _ & [= <-]). reflexivity.
  - pose proof Hrun as Hrun'.
    apply run_S_Ok in Hrun as (m0 & a & b & Hrun & _ & Hstep).
    pose proof (run_inv_holds cap N input k m0 HN ltac:(lia) Hrun) as Hinv.
    destruct (query_step_inv cap N k a b m0 m HN ltac:(lia) Hinv Hstep)
      as (x & y & _ & _ & _ & _ & _ & HF).
    simpl. rewrite <- (IH m0 HN ltac:(lia) Hrun), HF.
    unfold count_after. rewrite Hrun'. reflexivity.
Qed.

(** C2 fails on the code: [main] reduces [a ^ F] by the [%] of C, which
    truncates towards zero, where the claim has the mathematical [mod].
    On the run [N = 2], [Q = 1] with the query [(-1, 0)] the
    accumulator is still 0 when the query is decoded (what [main] has
    before its first query is [component_count = 2], [F = 0] and no
    output); the code gets the indices [(-1, 0)] and the claim's words
    give [(0, 1)]. *)
Theorem decode_negative_operand :
  is_llong (-1) /\ is_llong 0 /\
  observe (main 2 0 [(-1, 0)]) = Some (2, 0, []) /\
  decode 2 0 (-1) 0 = Ok (-1, 0) /\
  decode_spec 2 0 (-1) 0 = (0, 1).
Proof.
  split; [unfold is_llong; vm_compute; intuition discriminate|].
  split; [unfold is_llong; vm_compute; intuition discriminate|].
  split; [vm_compute; reflexivity|].
  split; vm_compute; reflexivity.
Qed.

(** X26: on a run that has come through its first [k] queries, the
    indices of the query at position [k] are [(a XOR F) % N] and
    [(b XOR F) % N], the smaller one first, where [F] is the accumulator
    that the first [k] queries left: the sum of their [component_count]
    contributions.  [%] is the remainder of C; on a non-negative operand
    it is the mathematical [mod]. *)
Theorem decode_before_update cap N input k m a b :
  1 <= N <= INT_MAX -> Z.of_nat k < INT_MAX ->
  run cap N input k = Ok m -> input !! k = Some (a, b) ->
  let x0 := Z.rem (Z.lxor a (F m)) N in
  let y0 := Z.rem (Z.lxor b (F m)) N in
  F m = contributions cap N input k /\
  decode N (F m) a b = Ok (Z.min x0 y0, Z.max x0 y0) /\
  Z.min x0 y0 <= Z.max x0 y0 /\
  run cap N input (S k) = serve (Z.of_nat k) (Z.min x0 y0) (Z.max x0 y0) m /\
  (0 <= a -> x0 = Z.lxor a (F m) mod N) /\
  (0 <= b -> y0 = Z.lxor b (F m) mod N).
Proof.
  intros HN Hk Hrun Hin x0 y0.
  pose proof (run_inv_holds cap N input k m HN ltac:(lia) Hrun) as [_ HF _].
  assert (Hdec : decode N (F m) a b = Ok (Z.min x0 y0, Z.max x0 y0)).
  { rewrite decode_Ok by assumption. fold x0 y0. rewrite Z.gtb_ltb.
    destruct (Z.ltb_spec y0 x0).
    - rewrite Z.min_r, Z.max_l by lia. reflexivity.
    - rewrite Z.min_l, Z.max_r by lia. reflexivity. }
  split; [apply F_contributions; auto; lia|].
  split; [exact Hdec|]. split; [lia|]. split.
  - rewrite run_S, Hrun, Hin, bind_ret_l. unfold query_step.
    rewrite Hdec. reflexivity.
  - split; intros H0; apply rem_nonneg_mod; lia.
Qed.


(** C4: for [1 <= N], [component_count] lies in [[1, N]] before and
    after every query and no query raises it.  A connectivity check
    leaves it alone.  A merge query lowers it, by one, exactly when the
    two decoded elements had distinct roots: [rootX] and [rootY] are the
    roots that the parent links of the state before the query lead to
    from [x] and from [y], and they are what [find] returns there. *)
Theorem component_count_bounds cap N input k m a b m' :
  1 <= N <= INT_MAX -> Z.of_nat k < INT_MAX ->
  run cap N input k = Ok m ->
  input !! k = Some (a, b) ->
  run cap N input (S k) = Ok m' ->
  1 <= component_count (uf m) <= N /\
  1 <= component_count (uf m') <= N /\
  component_count (uf m') <= component_count (uf m) /\
  (Nat.even k = false ->
     component_count (uf m') = component_count (uf m)) /\
  exists x y rootX rootY,
    decode N (F m) a b = Ok (x, y) /\
    repr N (parent (uf m)) x rootX /\
    repr N (parent (uf m)) y rootY /\
    is_root (parent (uf m)) rootX /\
    is_root (parent (uf m)) rootY /\
    rep (uf m) x = Some rootX /\
    rep (uf m) y = Some rootY /\
    (Nat.even k = true ->
       (component_count (uf m') < component_count (uf m) <->
          rootX <> rootY) /\
       (rootX <> rootY ->
          component_count (uf m') = component_count (uf m) - 1) /\
       (rootX = rootY ->
          component_count (uf m') = component_count (uf m))).
Proof.
  intros HN Hk Hrun Hin Hrun'.
  pose proof (run_inv_holds cap N input k m HN ltac:(lia) Hrun) as Hinv.
  pose proof (ri_reach _ _ _ _ Hinv) as Hreach.
  pose proof (reachable_inv _ _ _ Hreach) as Huf.
  rewrite run_S, Hrun, Hin, bind_ret_l in Hrun'.
  destruct (query_step_inv cap N k a b m m' HN Hk Hinv Hrun')
    as (x & y & Hdec & Hx & Hy & Hserve & Hinv' & _).
  destruct (union_sets_spec N (uf m) x y Huf ltac:(lia) ltac:(lia))
    as (p1 & p2 & rx & ry & kx & ky & Hfx & Hfy1 & Hrx & Hry & _ & _ & _
        & _ & _ & _ & _ & Hu).
  destruct (find_spec N (uf m) Huf y ltac:(lia))
    as (py & ry' & Hfy & Hry' & _).
  assert (ry' = ry).
  { destruct Hry as [d1 H1], Hry' as [d2 H2].
    destruct (reprd_fun _ _ _ _ _ _ _ H1 H2); auto. }
  subst ry'.
  assert (Hm : 1 <= component_count (uf m) <= N).
  { apply (reachable_count cap N (uf m) 0 Hreach); lia. }
  assert (Hm' : 1 <= component_count (uf m') <= N).
  { apply (reachable_count cap N (uf m') 0 (ri_reach _ _ _ _ Hinv')); lia. }
  assert (Hstep :
    if Nat.even k
    then component_count (uf m') =
         (if decide (rx = ry) then component_count (uf m)
          else component_count (uf m) - 1)
    else component_count (uf m') = component_count (uf m)).
  { unfold serve in Hserve. rewrite even_of_nat in Hserve.
    destruct (Nat.even k).
    - apply bind_Ok in Hserve as (st & Hst & [= <-]). simpl.
      rewrite Hst in Hu. injection Hu as ->.
      destruct (decide (rx = ry)); simpl; [reflexivity | lia].
    - rewrite Hfx, bind_ret_l, Hfy1, bind_ret_l in Hserve.
      destruct (rx =? ry); injection Hserve as <-; reflexivity. }
  split; [exact Hm|]. split; [exact Hm'|]. split.
  { destruct (Nat.even k); [destruct (decide (rx = ry))|]; lia. }
  split.
  { intros Hodd. rewrite Hodd in Hstep. exact Hstep. }
  exists x, y, rx, ry. split; [exact Hdec|].
  split; [exact Hrx|]. split; [exact Hry|].
  split; [destruct Hrx as [d H]; exact (reprd_is_root _ _ _ _ _ H)|].
  split; [destruct Hry as [d H]; exact (reprd_is_root _ _ _ _ _ H)|].
  split; [unfold rep; rewrite Hfx; reflexivity|].
  split; [unfold rep; rewrite Hfy; reflexivity|].
  intros Heven. rewrite Heven in Hstep.
  destruct (decide (rx = ry)); split; try split; intros; try lia;
    try contradiction; try congruence.
Qed.

(** ** Runs on non-negative operands *)

Lemma serve_total cap N k x y m :
  run_inv cap N k m -> 0 <= x < N -> 0 <= y < N ->
  exists m', serve (Z.of_nat k) x y m = Ok m'.
Proof.
  intros [Hinv%reachable_inv _ _] Hx Hy. unfold serve.
  destruct (Z.rem (Z.of_nat k) 2 =? 0).
  - destruct (union_sets_inv N (uf m) x y Hinv Hx Hy) as (st & -> & _).
    simpl. eauto.
  - destruct (find_twice N (uf m) x y Hinv Hx Hy)
      as (p1 & p2 & rx & ry & -> & Hfy & _).
    simpl. rewrite Hfy. simpl. destruct (rx =? ry); eauto.
Qed.

(** With [1 <= N <= cap] and non-negative operands no access leaves the
    arrays and the run reaches its end. *)
Lemma run_total cap N input k :
  1 <= N <= INT_MAX -> N <= Z.of_nat cap -> Z.of_nat k <= INT_MAX ->
  (k <= length input)%nat ->
  Forall (fun q => 0 <= q.1 /\ 0 <= q.2) input ->
  exists m, run cap N input k = Ok m.
Proof.
  intros HN Hcap Hk Hlen Hpos. induction k as [|k IH].
  - destruct (initialize_spec cap N) as (p & r & Hinit & _); [lia|].
    unfold run, main_with. rewrite Hinit. simpl. eauto.
  - destruct IH as [m Hrun]; [lia | lia |].
    pose proof (run_inv_holds cap N input k m HN ltac:(lia) Hrun) as Hinv.
    destruct (lookup_lt_is_Some_2 input k) as [[a b] Hin]; [lia|].
    rewrite Forall_lookup in Hpos. pose proof (Hpos k _ Hin) as [Ha Hb].
    simpl in Ha, Hb. pose proof (ri_F _ _ _ _ Hinv) as HF.
    rewrite run_S, Hrun, Hin, bind_ret_l. unfold query_step.
    rewrite decode_Ok by assumption.
    destruct (rem_nonneg_mod a (F m) N) as [_ Hx]; try lia.
    destruct (rem_nonneg_mod b (F m) N) as [_ Hy]; try lia.
    destruct (_ >? _); simpl; eapply serve_total; eauto.
Qed.

(** C8 fails on the code: the remainder of a negative value is negative,
    and [find] then reads [parent[-1]].  Here [N = 2], [Q = 1] and the
    query is [(-1, 0)]. *)
Theorem negative_operand_out_of_bounds :
  is_llong (-1) /\ is_llong 0 /\
  decode 2 0 (-1) 0 = Ok (-1, 0) /\
  main 2 1 [(-1, 0)] = Err OutOfBounds.
Proof.
  split; [unfold is_llong; vm_compute; intuition discriminate|].
  split; [unfold is_llong; vm_compute; intuition discriminate|].
  split; vm_compute; reflexivity.
Qed.


(** * The claims on concrete states *)

Lemma two_pairs_reachable : reachable 4 4 two_pairs.
Proof. reach [Union 0 1; Union 2 3]. Defined.

Lemma chain_reachable : reachable 4 4 chain.
Proof. reach [Union 0 1; Union 2 3; Union 1 3]. Defined.

(** C7 as it is stated fails.  [chain] is the state that
    [union_sets (1, 3)] leaves; there the elements 1 and 3 have the same
    representative, yet a second [union_sets (1, 3)] writes [parent[3]]:
    the call has a side effect. *)
Lemma union_same_root_compresses :
  reachable 4 4 two_pairs /\ union_sets two_pairs 1 3 = Ok chain /\
  find chain 1 = Ok (chain, 0) /\ find chain 3 = Ok (flat, 0) /\
  union_sets chain 1 3 = Ok flat /\
  flat <> chain /\
  rd (parent chain) 3 = Ok 2 /\ rd (parent flat) 3 = Ok 0.
Proof.
  split; [exact two_pairs_reachable|].
  do 4 (split; [reflexivity|]).
  split; [discriminate|]. split; reflexivity.
Qed.

Lemma find_returns_root_witness :
  exists st' y,
    find chain 3 = Ok (st', y) /\ 0 <= y < 4 /\
    is_root (parent st') y /\ find st' y = Ok (st', y).
Proof. apply (find_returns_root 4 4 chain 3 chain_reachable). lia. Defined.

Lemma find_preserves_partition_witness :
  (forall u v, 0 <= u < 4 -> 0 <= v < 4 ->
     (rep flat u = rep flat v <-> rep chain u = rep chain v)) /\
  (forall u, 0 <= u < 4 -> rep flat u = rep chain u) /\
  (forall w, rd (parent flat) w = rd (parent chain) w \/
             (rd (parent flat) w = Ok 0 /\ rep chain w = Some 0)) /\
  component_count flat = component_count chain /\
  rank flat = rank chain.
Proof.
  apply (find_preserves_partition 4 4 chain 3 flat 0 chain_reachable);
    [lia | reflexivity].
Defined.

Lemma union_by_rank_witness :
  exists st' kx ky,
    union_sets two_pairs 1 3 = Ok st' /\
    rd (rank two_pairs) 0 = Ok kx /\ rd (rank two_pairs) 2 = Ok ky /\
    component_count st' = component_count two_pairs - 1 /\
    (kx > ky ->
       rd (parent st') 2 = Ok 0 /\ is_root (parent st') 0 /\
       rank st' = rank two_pairs) /\
    (kx < ky ->
       rd (parent st') 0 = Ok 2 /\ is_root (parent st') 2 /\
       rank st' = rank two_pairs) /\
    (kx = ky ->
       rd (parent st') 2 = Ok 0 /\ is_root (parent st') 0 /\
       rd (rank st') 0 = Ok (kx + 1) /\
       forall j, j <> 0 -> rd (rank st') j = rd (rank two_pairs) j).
Proof.
  apply (union_by_rank 4 4 two_pairs 1 3 two_pairs two_pairs 0 2
           two_pairs_reachable);
    [lia | lia | reflexivity | reflexivity | lia].
Defined.

Lemma forest_invariant_witness :
  (forall x, 0 <= x < 4 -> exists r, repr 4 (parent chain) x r) /\
  (forall x k, 0 <= x < 4 ->
     ancestor (parent chain) (S k) x = Ok x -> is_root (parent chain) x) /\
  (forall x, 0 <= x < 4 ->
     exists st' r, find chain x = Ok (st', r) /\ repr 4 (parent chain) x r) /\
  component_count chain = Z.of_nat (size (representatives 4 chain)).
Proof. apply (forest_invariant 4 4 chain chain_reachable). Defined.

Lemma union_same_component_witness :
  (forall sx sy r,
     find chain 1 = Ok (sx, r) -> find chain 3 = Ok (sy, r) ->
     exists st',
       union_sets chain 1 3 = Ok st' /\
       component_count st' = component_count chain /\
       rank st' = rank chain /\
       (forall u, 0 <= u < 4 -> rep st' u = rep chain u) /\
       (forall w, rd (parent st') w = rd (parent chain) w \/
                  (rd (parent st') w = Ok r /\ rep chain w = Some r))) /\
  (exists st1 st2,
     union_sets chain 1 3 = Ok st1 /\ union_sets st1 1 3 = Ok st2 /\
     component_count st2 = component_count st1 /\
     rank st2 = rank st1 /\
     (forall u, 0 <= u < 4 -> rep st2 u = rep st1 u) /\
     forall F0, wrap64 (F0 + component_count st2) =
                wrap64 (F0 + component_count st1)).
Proof.
  apply (union_same_component 4 4 chain 1 3 chain_reachable); lia.
Defined.

Lemma decode_before_update_witness :
  let x0 := Z.rem (Z.lxor 0 (F machine1)) 2 in
  let y0 := Z.rem (Z.lxor 1 (F machine1)) 2 in
  F machine1 = contributions 4 2 [(0, 1); (0, 1)] 1 /\
  decode 2 (F machine1) 0 1 = Ok (Z.min x0 y0, Z.max x0 y0) /\
  Z.min x0 y0 <= Z.max x0 y0 /\
  run 4 2 [(0, 1); (0, 1)] 2 =
    serve (Z.of_nat 1) (Z.min x0 y0) (Z.max x0 y0) machine1 /\
  (0 <= 0 -> x0 = Z.lxor 0 (F machine1) mod 2) /\
  (0 <= 1 -> y0 = Z.lxor 1 (F machine1) mod 2).
Proof.
  apply (decode_before_update 4 2 [(0, 1); (0, 1)] 1 machine1 0 1);
    [unfold INT_MAX; lia | unfold INT_MAX; simpl; lia
    | reflexivity | reflexivity].
Defined.


Lemma component_count_bounds_witness :
  1 <= component_count (uf machine0) <= 2 /\
  1 <= component_count (uf machine1) <= 2 /\
  component_count (uf machine1) <= component_count (uf machine0) /\
  (Nat.even 0 = false ->
     component_count (uf machine1) = component_count (uf machine0)) /\
  exists x y rootX rootY,
    decode 2 (F machine0) 0 1 = Ok (x, y) /\
    repr 2 (parent (uf machine0)) x rootX /\
    repr 2 (parent (uf machine0)) y rootY /\
    is_root (parent (uf machine0)) rootX /\
    is_root (parent (uf machine0)) rootY /\
    rep (uf machine0) x = Some rootX /\
    rep (uf machine0) y = Some rootY /\
    (Nat.even 0 = true ->
       (component_count (uf machine1) < component_count (uf machine0) <->
          rootX <> rootY) /\
       (rootX <> rootY ->
          component_count (uf machine1) =
          component_count (uf machine0) - 1) /\
       (rootX = rootY ->
          component_count (uf machine1) = component_count (uf machine0))).
Proof.
  apply (component_count_bounds 4 2 [(0, 1); (0, 1)] 0 machine0 0 1 machine1);
    [unfold INT_MAX; lia | unfold INT_MAX; simpl; lia
    | reflexivity | reflexivity | reflexivity].
Defined.

(** * Further properties of the disjoint-set structure *)

(** ** initialize *)

(** X1: [initialize (n)] on arrays of at least [n] cells returns; it
    sets [component_count] to [n], makes each of the first [n] elements
    a root of rank 0, and leaves every other cell and both array
    lengths as they were. *)
Theorem initialize_cells st n :
  0 <= n <= Z.of_nat (length (parent st)) ->
  n <= Z.of_nat (length (rank st)) ->
  exists st',
    initialize st n = Ok st' /\
    component_count st' = n /\
    length (parent st') = length (parent st) /\
    length (rank st') = length (rank st) /\
    (forall j, 0 <= j < n ->
       rd (parent st') j = Ok j /\ rd (rank st') j = Ok 0) /\
    (forall j, ~ 0 <= j < n ->
       rd (parent st') j = rd (parent st) j /\
       rd (rank st') j = rd (rank st) j).
Proof.
  intros Hp Hr. unfold initialize.
  destruct (init_loop_spec (Z.to_nat n) 0 (set_count st n))
    as (p & r & Hrun & Hlp & Hlr & Hin & Hout); simpl; try lia.
  simpl in *. exists (mkState p r n).
  split; [exact Hrun|]. split; [reflexivity|].
  split; [exact Hlp|]. split; [exact Hlr|]. split.
  - intros j Hj. apply Hin. lia.
  - intros j Hj. apply Hout. lia.
Qed.

Lemma initialize_cells_witness :
  exists st',
    initialize chain 3 = Ok st' /\
    component_count st' = 3 /\
    length (parent st') = length (parent chain) /\
    length (rank st') = length (rank chain) /\
    (forall j, 0 <= j < 3 ->
       rd (parent st') j = Ok j /\ rd (rank st') j = Ok 0) /\
    (forall j, ~ 0 <= j < 3 ->
       rd (parent st') j = rd (parent chain) j /\
       rd (rank st') j = rd (rank chain) j).
Proof. apply (initialize_cells chain 3); simpl; lia. Defined.

(** X2: [initialize] does not check [n] against the size of the arrays:
    with more elements than cells it writes behind the last cell. *)
Theorem initialize_beyond_capacity cap n :
  Z.of_nat cap < n -> initialize (globals cap) n = Err OutOfBounds.
Proof.
  intros Hn. unfold initialize. apply init_loop_overflow; simpl;
    rewrite ?length_replicate; lia.
Qed.

Lemma initialize_beyond_capacity_witness :
  initialize (globals 4) 5 = Err OutOfBounds.
Proof. apply (initialize_beyond_capacity 4 5). lia. Defined.

(** ** find *)

Lemma find_fuel_path n st x r d :
  reprd n (parent st) x r d ->
  forall fuel, (d < fuel)%nat ->
  exists p', find_fuel fuel st x = Ok (set_parent st p', r) /\
             length p' = length (parent st) /\
             forall w, rd p' w =
                       if on_path (parent st) d x w then Ok r
                       else rd (parent st) w.
Proof.
  induction 1 as [x Hx Hr | x y r d Hx Hr Hne H IH]; intros fuel Hf;
    (destruct fuel as [|fuel]; [lia|]); simpl.
  - exists (parent st). rewrite Hr; simpl.
    rewrite Z.eqb_refl; simpl. rewrite Hr; simpl.
    rewrite set_parent_id. split; [reflexivity|]. split; [reflexivity|].
    intros w. rewrite orb_false_r.
    destruct (Z.eqb_spec w x) as [->|]; auto.
  - destruct (IH fuel) as (p1 & Hfind & Hl1 & Hc1); [lia|].
    rewrite Hr; simpl.
    destruct (Z.eqb_spec y x) as [|_]; [contradiction|]; simpl.
    rewrite Hfind; simpl.
    destruct (wr_total p1 x r) as [p2 Hw].
    { rewrite Hl1. eapply rd_bounds; eauto. }
    rewrite Hw; simpl. rewrite (rd_wr_eq _ _ _ _ Hw); simpl.
    exists p2. split; [reflexivity|].
    split; [rewrite (wr_length _ _ _ _ Hw); exact Hl1|].
    intros w. destruct (Z.eqb_spec w x) as [->|Hwx]; simpl.
    + eapply rd_wr_eq; eauto.
    + rewrite (rd_wr_ne _ _ _ _ _ Hw Hwx). apply Hc1.
Qed.

Lemma on_path_ancestor n p x r d w :
  reprd n p x r d ->
  on_path p d x w = true <-> exists k, ancestor p k x = Ok w.
Proof.
  induction 1 as [x Hx Hr | x y r d Hx Hr Hne H IH]; simpl.
  - rewrite orb_false_r, Z.eqb_eq. split.
    + intros ->. exists O. reflexivity.
    + intros [k Hk]. revert Hk. induction k as [|k IHk]; simpl.
      * intros [= ->]. reflexivity.
      * rewrite Hr. simpl. exact IHk.
  - rewrite Hr, orb_true_iff, Z.eqb_eq, IH. split.
    + intros [->|[k Hk]]; [exists O; reflexivity|].
      exists (S k). simpl. rewrite Hr. exact Hk.
    + intros [[|k] Hk]; simpl in Hk.
      * left. congruence.
      * rewrite Hr in Hk. right. exists k. exact Hk.
Qed.

(** X3: [find (x)] compresses the whole path: afterwards [x], every
    ancestor of [x] and the root itself point at the returned root, and
    every cell that is not on the path keeps its parent. *)
Theorem find_compresses_path cap n st x st' r :
  reachable cap n st -> 0 <= x < n -> find st x = Ok (st', r) ->
  forall w,
    ((exists k, ancestor (parent st) k x = Ok w) ->
       rd (parent st') w = Ok r) /\
    ((forall k, ancestor (parent st) k x <> Ok w) ->
       rd (parent st') w = rd (parent st) w).
Proof.
  intros Hinv%reachable_inv Hx Hf w.
  destruct (inv_forest _ _ Hinv x Hx) as (r0 & d & Hr & Hd).
  pose proof (inv_count_pos _ _ Hinv x Hx).
  pose proof (inv_parent_len _ _ Hinv).
  destruct (find_fuel_path n st x r0 d Hr (S (length (parent st))))
    as (p' & Hf' & _ & Hcells); [lia|].
  unfold find in Hf. rewrite Hf' in Hf. injection Hf as <- <-. simpl.
  rewrite Hcells.
  pose proof (on_path_ancestor n (parent st) x r0 d w Hr) as Hon.
  destruct (on_path (parent st) d x w).
  - split; [reflexivity|]. intros Hno.
    destruct (proj1 Hon eq_refl) as [k Hk]. destruct (Hno k Hk).
  - split; [|reflexivity]. intros Hex. apply Hon in Hex. discriminate.
Qed.

Lemma find_compresses_path_witness :
  ((exists k, ancestor (parent chain) k 3 = Ok 2) ->
     rd (parent flat) 2 = Ok 0) /\
  ((forall k, ancestor (parent chain) k 3 <> Ok 2) ->
     rd (parent flat) 2 = rd (parent chain) 2).
Proof.
  apply (find_compresses_path 4 4 chain 3 flat 0 chain_reachable);
    [lia | reflexivity].
Defined.

(** X4: a second [find (x)] right after the first returns the same root
    and writes nothing new: the state stays as the first call left
    it. *)
Theorem find_again cap n st x st' r :
  reachable cap n st -> 0 <= x < n -> find st x = Ok (st', r) ->
  find st' x = Ok (st', r).
Proof.
  intros Hreach Hx Hf. pose proof (reachable_inv _ _ _ Hreach) as Hinv.
  destruct (find_inv n st x st' r Hinv Hx Hf) as (Hinv' & [d Hr] & p' & -> & Hc).
  assert (Hroot : rd p' r = Ok r).
  { apply (compressed_root _ _ _ _ Hc). eapply reprd_is_root; eauto. }
  assert (Hxr : rd p' x = Ok r).
  { destruct d as [|d].
    - inversion Hr; subst. exact Hroot.
    - destruct (find_fuel_path n st x r (S d) Hr (S (length (parent st))))
        as (p2 & Hf2 & _ & Hcells).
      + pose proof (inv_forest _ _ Hinv x Hx) as (r1 & d1 & Hr1 & Hd1).
        destruct (reprd_fun _ _ _ _ _ _ _ Hr Hr1) as [_ <-].
        pose proof (inv_count_pos _ _ Hinv x Hx).
        pose proof (inv_parent_len _ _ Hinv). lia.
      + unfold find in Hf. rewrite Hf2 in Hf. injection Hf as <-.
        rewrite Hcells. simpl. rewrite Z.eqb_refl. reflexivity. }
  unfold find. simpl parent.
  destruct (Z.eq_dec r x) as [->|Hne].
  - apply (find_root (set_parent st p') x). exact Hroot.
  - pose proof (rd_bounds _ _ _ Hxr) as Hb.
    destruct (length p') as [|len] eqn:Hlen; [simpl in Hb; lia|].
    simpl. rewrite Hxr; simpl.
    destruct (Z.eqb_spec r x) as [|_]; [contradiction|]; simpl.
    rewrite Hroot; simpl. rewrite Z.eqb_refl; simpl. rewrite Hroot; simpl.
    assert (Hw : wr p' x r = Ok p').
    { apply wr_Ok. split; [lia|]. symmetry. apply list_insert_id.
      apply rd_Ok in Hxr. tauto. }
    rewrite Hw; simpl. rewrite Hxr; simpl. reflexivity.
Qed.

Lemma find_again_witness : find flat 3 = Ok (flat, 0).
Proof.
  apply (find_again 4 4 chain 3 flat 0 chain_reachable);
    [lia | reflexivity].
Defined.

(** ** union_sets *)

(** Where [union_sets] sends each representative. *)
Lemma rep_after_union n st x y st' :
  uf_inv n st -> 0 <= x < n -> 0 <= y < n ->
  union_sets st x y = Ok st' ->
  exists rx ry l w,
    rep st x = Some rx /\ rep st y = Some ry /\
    (rx = ry \/ (l = ry /\ w = rx) \/ (l = rx /\ w = ry)) /\
    forall u ru, 0 <= u < n -> rep st u = Some ru ->
      rep st' u = Some (if decide (rx = ry) then ru
                        else if decide (ru = l) then w else ru).
Proof.
  intros Hinv Hx Hy Hu.
  destruct (union_sets_spec n st x y Hinv Hx Hy)
    as (p1 & p2 & rx & ry & kx & ky & _ & _ & Hx' & Hy' & Hc1 & Hc2
        & Hinv2 & Hrx2 & Hry2 & Hkx & _ & Hu').
  pose proof (compressed_inv n st Hinv rx p1 Hc1) as Hinv1.
  destruct (union_sets_inv n st x y Hinv Hx Hy) as (st2 & Hu2 & Hinv').
  assert (st2 = st') by congruence. subst st2.
  rewrite Hu in Hu'. injection Hu' as Hst'.
  assert (Hp2 : forall u ru, 0 <= u < n -> rep st u = Some ru ->
            repr n p2 u ru).
  { intros u ru Hu0 Hru.
    apply (compressed_repr n _ Hinv1 ry p2 u ru Hc2). simpl.
    apply (compressed_repr n st Hinv rx p1 u ru Hc1).
    apply (rep_repr n); assumption. }
  exists rx, ry, (loser rx ry kx ky), (winner rx ry kx ky).
  split; [apply (rep_repr n); assumption|].
  split; [apply (rep_repr n); assumption|].
  split.
  { destruct (loser_winner rx ry kx ky) as [[-> ->]|[-> ->]]; auto. }
  intros u ru Hu0 Hru. apply (rep_repr n); auto.
  pose proof (Hp2 u ru Hu0 Hru) as Hr2. subst st'.
  destruct (decide (rx = ry)) as [->|Hne]; [exact Hr2|].
  pose proof Hx' as [dx Hdx]. pose proof Hy' as [dy Hdy].
  apply (linked_repr n (set_parent st p2) rx ry kx ky u ru); auto.
  - eapply reprd_cod; eauto.
  - eapply reprd_cod; eauto.
  - eapply rd_bounds; eauto.
  - eapply rd_bounds; eauto.
Qed.

(** X5: [union_sets (x, y)] merges exactly the components of [x] and
    [y]: afterwards two elements have the same representative when they
    had the same one before, or when each of them was in the component
    of [x] or of [y]; no other pair is joined and none is separated. *)
Theorem union_merges_components cap n st x y st' rx ry :
  reachable cap n st -> 0 <= x < n -> 0 <= y < n ->
  rep st x = Some rx -> rep st y = Some ry ->
  union_sets st x y = Ok st' ->
  forall u v ru rv, 0 <= u < n -> 0 <= v < n ->
    rep st u = Some ru -> rep st v = Some rv ->
    (rep st' u = rep st' v <->
     ru = rv \/ ((ru = rx \/ ru = ry) /\ (rv = rx \/ rv = ry))).
Proof.
  intros Hinv%reachable_inv Hx Hy Hrx Hry Hu u v ru rv Hu0 Hv0 Hru Hrv.
  destruct (rep_after_union n st x y st' Hinv Hx Hy Hu)
    as (rx' & ry' & l & w & Hrx' & Hry' & Hlw & Hrep).
  assert (rx' = rx) by congruence. assert (ry' = ry) by congruence.
  subst rx' ry'.
  rewrite (Hrep u ru Hu0 Hru), (Hrep v rv Hv0 Hrv).
  destruct (decide (rx = ry)) as [->|Hne].
  - split; [intros [= ->]; auto|].
    intros [->|[[->| ->] [->| ->]]]; reflexivity.
  - destruct Hlw as [?|[[-> ->]|[-> ->]]]; [contradiction| |];
      destruct (decide (ru = _)), (decide (rv = _)); subst;
      (split; [intros H; simplify_eq; auto 6
              | intros H; f_equal; intuition congruence]).
Qed.

Lemma union_merges_components_witness :
  rep chain 1 = rep chain 3 <->
  0 = 2 \/ ((0 = 0 \/ 0 = 2) /\ (2 = 0 \/ 2 = 2)).
Proof.
  apply (union_merges_components 4 4 two_pairs 1 3 chain 0 2
           two_pairs_reachable);
    [lia | lia | reflexivity | reflexivity | reflexivity
    | lia | lia | reflexivity | reflexivity].
Defined.

(** ** Ranks *)

Lemma rank_chain n st x r d :
  uf_inv n st -> rank_ordered n st ->
  reprd n (parent st) x r d ->
  exists kx kr,
    rd (rank st) x = Ok kx /\ rd (rank st) r = Ok kr /\
    0 <= kx /\ kx + Z.of_nat d <= kr.
Proof.
  intros Hinv Hord.
  induction 1 as [x Hx Hr | x y r d Hx Hr Hne H IH].
  - destruct (inv_rank _ _ Hinv x Hx) as (k & Hk & Hk0).
    exists k, k. repeat split; auto; lia.
  - destruct IH as (ky & kr & Hky & Hkr & Hky0 & Hle).
    destruct (Hord x y Hx Hr Hne) as (kx & ky' & Hkx & Hky' & Hlt).
    destruct (inv_rank _ _ Hinv x Hx) as (k & Hk & Hk0).
    assert (ky' = ky) by congruence. assert (k = kx) by congruence.
    subst. exists kx, kr. repeat split; auto; lia.
Qed.

Lemma compressed_rank_ordered n st r p' :
  uf_inv n st -> rank_ordered n st ->
  compressed n (parent st) r p' -> rank_ordered n (set_parent st p').
Proof.
  intros Hinv Hord [_ Hc] x y Hx Hr Hne. simpl in *.
  destruct (Hc x) as [Heq | [Hxr [d Hd]]].
  - apply Hord; auto. congruence.
  - assert (y = r) by congruence. subst y.
    destruct (rank_chain n st x r d Hinv Hord Hd)
      as (kx & kr & Hkx & Hkr & _ & Hle).
    exists kx, kr. do 2 (split; [assumption|]).
    destruct d as [|d]; [inversion Hd; congruence | lia].
Qed.

Lemma linked_rank_ordered n st rx ry kx ky :
  uf_inv n st -> rank_ordered n st ->
  is_root (parent st) rx -> is_root (parent st) ry -> rx <> ry ->
  0 <= rx < n -> 0 <= ry < n ->
  rd (rank st) rx = Ok kx -> rd (rank st) ry = Ok ky ->
  rank_ordered n (linked st rx ry kx ky).
Proof.
  intros Hinv Hord Hrx Hry Hne Hxn Hyn Hkx Hky x y Hx Hr Hyx.
  pose proof (rd_bounds _ _ _ Hrx) as Hbx.
  pose proof (rd_bounds _ _ _ Hry) as Hby.
  pose proof (rd_bounds _ _ _ Hkx) as Hbk.
  unfold linked, loser, winner in *. simpl in *.
  rewrite !Z.gtb_ltb in Hr.
  (* the rank array after the call *)
  assert (Hrank : forall u ku, rd (rank st) u = Ok ku ->
     rd (if kx =? ky then upd (rank st) rx (kx + 1) else rank st) u =
     Ok (if (kx =? ky) && (u =? rx) then ku + 1 else ku)).
  { intros u ku Hku. destruct (Z.eqb_spec kx ky) as [Ek|_]; simpl; [|exact Hku].
    destruct (Z.eqb_spec u rx) as [->|Hu].
    - assert (ku = kx) by congruence. subst ku.
      eapply rd_wr_eq. apply wr_upd. exact Hbk.
    - erewrite rd_wr_ne; [exact Hku | apply wr_upd; exact Hbk | exact Hu]. }
  assert (Hold : forall u v, 0 <= u < n -> rd (parent st) u = Ok v ->
     v <> u ->
     exists ku kv, rd (rank st) u = Ok ku /\ rd (rank st) v = Ok kv /\
                   ku < kv /\ u <> rx /\ u <> ry).
  { intros u v Hu Huv Hvu. destruct (Hord u v Hu Huv Hvu)
      as (ku & kv & Hku & Hkv & Hlt).
    exists ku, kv. do 3 (split; [assumption|]).
    unfold is_root in *. split; intros ->; congruence. }
  destruct (Z.ltb_spec ky kx) as [Hgt|Hle].
  - (* rootY goes under rootX *)
    destruct (Z.eq_dec x ry) as [->|Hxy].
    + rewrite (rd_wr_eq _ _ _ _ (wr_upd _ ry rx Hby)) in Hr.
      injection Hr as <-. exists ky, kx.
      rewrite (Hrank ry ky Hky), (Hrank rx kx Hkx).
      destruct (Z.eqb_spec kx ky); [lia|]. simpl. auto.
    + rewrite (rd_wr_ne _ _ _ _ _ (wr_upd _ ry rx Hby) Hxy) in Hr.
      destruct (Hold x y Hx Hr Hyx) as (ku & kv & Hku & Hkv & Hlt & Hx1 & _).
      exists ku, kv. rewrite (Hrank x ku Hku), (Hrank y kv Hkv).
      destruct (Z.eqb_spec kx ky); [lia|]. simpl. auto.
  - destruct (Z.ltb_spec kx ky) as [Hlt|Hge].
    + (* rootX goes under rootY *)
      destruct (Z.eq_dec x rx) as [->|Hxx].
      * rewrite (rd_wr_eq _ _ _ _ (wr_upd _ rx ry Hbx)) in Hr.
        injection Hr as <-. exists kx, ky.
        rewrite (Hrank rx kx Hkx), (Hrank ry ky Hky).
        destruct (Z.eqb_spec kx ky); [lia|]. simpl. auto.
      * rewrite (rd_wr_ne _ _ _ _ _ (wr_upd _ rx ry Hbx) Hxx) in Hr.
        destruct (Hold x y Hx Hr Hyx) as (ku & kv & Hku & Hkv & Hlt' & _).
        exists ku, kv. rewrite (Hrank x ku Hku), (Hrank y kv Hkv).
        destruct (Z.eqb_spec kx ky); [lia|]. simpl. auto.
    + (* a tie: rootY goes under rootX, whose rank grows *)
      assert (kx = ky) by lia. subst ky.
      destruct (Z.eq_dec x ry) as [->|Hxy].
      * rewrite (rd_wr_eq _ _ _ _ (wr_upd _ ry rx Hby)) in Hr.
        injection Hr as <-. exists kx, (kx + 1).
        rewrite (Hrank ry kx Hky), (Hrank rx kx Hkx).
        rewrite !Z.eqb_refl. simpl.
        destruct (Z.eqb_spec ry rx); [congruence|].
        repeat split; auto; lia.
      * rewrite (rd_wr_ne _ _ _ _ _ (wr_upd _ ry rx Hby) Hxy) in Hr.
        destruct (Hold x y Hx Hr Hyx)
          as (ku & kv & Hku & Hkv & Hlt' & Hx1 & _).
        rewrite (Hrank x ku Hku), (Hrank y kv Hkv), Z.eqb_refl. simpl.
        destruct (Z.eqb_spec x rx); [contradiction|].
        destruct (y =? rx); eexists _, _; repeat split; auto; lia.
Qed.

Lemma do_op_rank_ordered n st o st' :
  uf_inv n st -> rank_ordered n st -> op_ok n o = true ->
  do_op st o = Ok st' -> uf_inv n st' /\ rank_ordered n st'.
Proof.
  intros Hinv Hord Ho Hop. destruct o as [x|x y]; simpl in *.
  - apply in_range_true in Ho.
    apply bind_Ok in Hop as ([st2 r] & Hf & [= <-]).
    destruct (find_inv n st x st2 r Hinv Ho Hf) as (Hinv' & _ & p' & -> & Hc).
    split; [exact Hinv'|]. eapply compressed_rank_ordered; eauto.
  - apply andb_true_iff in Ho as [Hx%in_range_true Hy%in_range_true].
    destruct (union_sets_spec n st x y Hinv Hx Hy)
      as (p1 & p2 & rx & ry & kx & ky & _ & _ & [dx Hdx] & [dy Hdy] & Hc1
          & Hc2 & Hinv2 & Hrx2 & Hry2 & Hkx & Hky & Hu).
    pose proof (compressed_inv n st Hinv rx p1 Hc1) as Hinv1.
    pose proof (compressed_rank_ordered n st rx p1 Hinv Hord Hc1) as Hord1.
    pose proof (compressed_rank_ordered n _ ry p2 Hinv1 Hord1 Hc2) as Hord2.
    simpl in Hord2.
    destruct (union_sets_inv n st x y Hinv Hx Hy) as (st2 & Hu2 & Hinv').
    assert (st2 = st') by congruence. subst st2. split; [exact Hinv'|].
    rewrite Hop in Hu. injection Hu as ->.
    destruct (decide (rx = ry)); [exact Hord2|].
    apply linked_rank_ordered; auto.
    + eapply reprd_cod; eauto.
    + eapply reprd_cod; eauto.
Qed.

Lemma run_ops_rank_ordered n ops : forall st st',
  uf_inv n st -> rank_ordered n st ->
  forallb (op_ok n) ops = true -> run_ops ops st = Ok st' ->
  rank_ordered n st'.
Proof.
  induction ops as [|o ops IH]; intros st st' Hinv Hord Hok Hrun;
    simpl in *.
  - injection Hrun as <-. exact Hord.
  - apply andb_true_iff in Hok as [Ho Hok].
    apply bind_Ok in Hrun as (st1 & Hop & Hrun).
    destruct (do_op_rank_ordered n st o st1 Hinv Hord Ho Hop) as [H1 H2].
    apply (IH st1 st'); auto.
Qed.

Lemma reachable_rank_ordered cap n st :
  reachable cap n st -> rank_ordered n st.
Proof.
  intros (Hn & ops & st0 & Hinit & Hok & Hrun).
  destruct (initialize_inv cap n st0 Hn Hinit) as (Hinv0 & _ & Hcells).
  eapply run_ops_rank_ordered; eauto.
  intros x y Hx Hr Hne. destruct (Hcells x Hx) as [Hp _]. congruence.
Qed.

(** X6: union by rank keeps the ranks in order: in every reachable
    state the rank of an element that is not a root is strictly below
    the rank of its parent, and the rank of a root is at least the
    number of links from any element of its tree up to it. *)
Theorem rank_bounds_depth cap n st x :
  reachable cap n st -> 0 <= x < n ->
  (forall y, rd (parent st) x = Ok y -> y <> x ->
     exists kx ky,
       rd (rank st) x = Ok kx /\ rd (rank st) y = Ok ky /\ kx < ky) /\
  (forall r d, reprd n (parent st) x r d ->
     exists kr, rd (rank st) r = Ok kr /\ Z.of_nat d <= kr).
Proof.
  intros Hreach Hx.
  pose proof (reachable_inv _ _ _ Hreach) as Hinv.
  pose proof (reachable_rank_ordered _ _ _ Hreach) as Hord.
  split.
  - intros y Hr Hne. apply (Hord x y Hx Hr Hne).
  - intros r d Hd.
    destruct (rank_chain n st x r d Hinv Hord Hd)
      as (kx & kr & _ & Hkr & Hk0 & Hle).
    exists kr. split; [exact Hkr | lia].
Qed.

Lemma rank_bounds_depth_witness :
  (forall y, rd (parent chain) 3 = Ok y -> y <> 3 ->
     exists kx ky,
       rd (rank chain) 3 = Ok kx /\ rd (rank chain) y = Ok ky /\ kx < ky) /\
  (forall r d, reprd 4 (parent chain) 3 r d ->
     exists kr, rd (rank chain) r = Ok kr /\ Z.of_nat d <= kr).
Proof. apply (rank_bounds_depth 4 4 chain 3 chain_reachable). lia. Defined.

(** * Further properties of the query loop *)

(** X7: the decoded pair does not depend on the order of the two raw
    operands. *)
Theorem decode_symmetric N F0 a b : decode N F0 a b = decode N F0 b a.
Proof.
  unfold decode, c_rem.
  destruct (N =? 0); [reflexivity|].
  destruct ((Z.lxor a F0 =? LLONG_MIN) && (N =? -1));
    destruct ((Z.lxor b F0 =? LLONG_MIN) && (N =? -1)); simpl;
    try reflexivity.
  rewrite !Z.gtb_ltb.
  destruct (Z.ltb_spec (wrap32 (Z.rem (Z.lxor b F0) N))
              (wrap32 (Z.rem (Z.lxor a F0) N)));
    destruct (Z.ltb_spec (wrap32 (Z.rem (Z.lxor a F0) N))
                (wrap32 (Z.rem (Z.lxor b F0) N)));
    try reflexivity; try lia.
  f_equal. f_equal; lia.
Qed.

Lemma run_answers cap N input k : forall m,
  1 <= N <= INT_MAX -> Z.of_nat k <= INT_MAX ->
  run cap N input k = Ok m ->
  Z.of_nat k <= F m /\ Forall is_answer (stdout m).
Proof.
  induction k as [|k IH]; intros m HN Hk Hrun.
  - unfold run, main_with in Hrun. simpl in Hrun.
    apply bind_Ok in Hrun as (st & _ & [= <-]). simpl.
    split; [lia | constructor].
  - apply run_S_Ok in Hrun as (m0 & a & b & Hrun & _ & Hstep).
    pose proof (run_inv_holds cap N input k m0 HN ltac:(lia) Hrun) as Hinv.
    destruct (IH m0 HN ltac:(lia) Hrun) as [HF Hout].
    destruct (query_step_inv cap N k a b m0 m HN ltac:(lia) Hinv Hstep)
      as (x & y & _ & Hx & Hy & Hserve & Hinv' & HF').
    pose proof (reachable_count cap N (uf m) 0 (ri_reach _ _ _ _ Hinv')
                  ltac:(lia)) as Hc.
    split; [lia|]. unfold serve in Hserve.
    destruct (Z.rem (Z.of_nat k) 2 =? 0).
    + apply bind_Ok in Hserve as (st & _ & [= <-]). exact Hout.
    + apply bind_Ok in Hserve as ([st1 rx] & _ & Hserve).
      apply bind_Ok in Hserve as ([st2 ry] & _ & Hserve).
      destruct (rx =? ry); injection Hserve as <-; simpl;
        apply Forall_app; (split; [exact Hout|]);
        (constructor; [unfold is_answer; auto | constructor]).
Qed.

(** X8: with [1 <= N] elements that fit the arrays and non-negative
    operands, [main] reads its [Q] queries and returns without leaving
    the arrays; it prints exactly [Q / 2] lines, each of them [1] or
    [0], and ends with [Q <= F <= Q * N] and [component_count] in
    [[1, N]]. *)
Theorem main_returns cap N Q input :
  1 <= N <= INT_MAX -> N <= Z.of_nat cap ->
  0 <= Q <= INT_MAX -> Q <= Z.of_nat (length input) ->
  Forall (fun q => 0 <= q.1 /\ 0 <= q.2) input ->
  exists m,
    main_with cap N Q input = Ok m /\
    Z.of_nat (length (stdout m)) = Q / 2 /\
    Forall is_answer (stdout m) /\
    Q <= F m <= Q * N /\
    1 <= component_count (uf m) <= N.
Proof.
  intros HN Hcap HQ Hlen Hpos.
  destruct (run_total cap N input (Z.to_nat Q)) as [m Hrun]; auto; try lia.
  assert (HQ' : Z.of_nat (Z.to_nat Q) <= INT_MAX) by lia.
  pose proof (run_inv_holds cap N input _ m HN HQ' Hrun)
    as [Hreach HF Hout].
  destruct (run_answers cap N input _ m HN HQ' Hrun) as [HF' Hans].
  unfold run in Hrun. rewrite Z2Nat.id in * by lia.
  exists m. split; [exact Hrun|]. split; [exact Hout|].
  split; [exact Hans|]. split; [lia|].
  apply (reachable_count cap N (uf m) 0 Hreach). lia.
Qed.

Lemma main_returns_witness :
  exists m,
    main_with 4 3 4 [(0, 1); (5, 2); (7, 7); (1, 0)] = Ok m /\
    Z.of_nat (length (stdout m)) = 4 / 2 /\
    Forall is_answer (stdout m) /\
    4 <= F m <= 4 * 3 /\
    1 <= component_count (uf m) <= 3.
Proof.
  apply (main_returns 4 3 4 [(0, 1); (5, 2); (7, 7); (1, 0)]);
    [unfold INT_MAX; lia | simpl; lia | unfold INT_MAX; lia | simpl; lia |].
  repeat constructor; simpl; lia.
Defined.

(** ** One element *)

Lemma decode_one F0 a b : decode 1 F0 a b = Ok (0, 0).
Proof.
  rewrite decode_Ok by (unfold INT_MAX; lia).
  rewrite !Z.rem_1_r. reflexivity.
Qed.

Lemma union_sets_root st r :
  is_root (parent st) r -> union_sets st r r = Ok st.
Proof.
  intros Hr. unfold union_sets. rewrite (find_root st r Hr). simpl.
  rewrite (find_root st r Hr). simpl. rewrite Z.eqb_refl. reflexivity.
Qed.

Lemma run_one cap input k :
  (1 <= cap)%nat -> Z.of_nat k <= INT_MAX -> (k <= length input)%nat ->
  exists st,
    initialize (globals cap) 1 = Ok st /\
    run cap 1 input k =
      Ok (mkMachine st (Z.of_nat k)
            (replicate (Z.to_nat (Z.of_nat k / 2)) (line "1"))).
Proof.
  intros Hcap Hk Hlen.
  destruct (initialize_spec cap 1) as (p & r & Hinit & _ & _ & Hcells);
    [lia|].
  assert (Hroot : is_root (parent (mkState p r 1)) 0).
  { simpl. apply Hcells. lia. }
  exists (mkState p r 1). split; [exact Hinit|].
  induction k as [|k IH].
  - unfold run, main_with. rewrite Hinit. reflexivity.
  - rewrite run_S, IH by lia. rewrite bind_ret_l.
    destruct (lookup_lt_is_Some_2 input k) as [[a b] Hin]; [lia|].
    rewrite Hin. unfold query_step. simpl F. rewrite decode_one.
    rewrite bind_ret_l. unfold serve. simpl uf. simpl F. simpl stdout.
    assert (HF : wrap64 (Z.of_nat k + 1) = Z.of_nat (S k)).
    { rewrite wrap64_id; [lia|].
      unfold is_llong, LLONG_MIN, LLONG_MAX, INT_MAX in *.
      change (2 ^ 63) with 9223372036854775808.
      change (2 ^ 31) with 2147483648 in *. lia. }
    destruct (Z.eqb_spec (Z.rem (Z.of_nat k) 2) 0) as [He|Ho].
    + rewrite (union_sets_root _ 0 Hroot), bind_ret_l. simpl.
      rewrite HF, (even_step k He). reflexivity.
    + rewrite (find_root _ 0 Hroot), bind_ret_l.
      rewrite (find_root _ 0 Hroot), bind_ret_l. simpl.
      rewrite HF, (odd_step k Ho).
      rewrite Z2Nat.inj_add by (try apply Z.div_pos; lia).
      rewrite replicate_add. reflexivity.
Qed.

(** X9: with a single element ([N = 1]) every query decodes to
    [(0, 0)], whatever the operands and their signs: the run returns,
    the structure stays as [initialize] left it with one component, every
    check prints [1], and [F] ends at [Q]. *)
Theorem single_element cap Q input :
  (1 <= cap)%nat -> 0 <= Q <= INT_MAX -> Q <= Z.of_nat (length input) ->
  exists st,
    initialize (globals cap) 1 = Ok st /\
    component_count st = 1 /\
    main_with cap 1 Q input =
      Ok (mkMachine st Q (replicate (Z.to_nat (Q / 2)) (line "1"))).
Proof.
  intros Hcap HQ Hlen.
  destruct (run_one cap input (Z.to_nat Q)) as (st & Hinit & Hrun);
    [assumption | lia | lia |].
  unfold run in Hrun. rewrite Z2Nat.id in Hrun by lia.
  exists st. split; [exact Hinit|]. split; [|exact Hrun].
  destruct (initialize_inv cap 1 st ltac:(unfold INT_MAX; lia) Hinit)
    as (_ & Hc & _). exact Hc.
Qed.

Lemma single_element_witness :
  exists st,
    initialize (globals 2) 1 = Ok st /\
    component_count st = 1 /\
    main_with 2 1 3 [(-1, 5); (7, -9); (0, 0)] =
      Ok (mkMachine st 3 (replicate (Z.to_nat (3 / 2)) (line "1"))).
Proof.
  apply (single_element 2 3 [(-1, 5); (7, -9); (0, 0)]);
    [lia | unfold INT_MAX; lia | simpl; lia].
Defined.

(** X10: with [N = 0] the first query takes a remainder by zero:
    [main] has no guard on [N]. *)
Theorem no_element_divides_by_zero cap Q a b rest :
  1 <= Q -> main_with cap 0 Q ((a, b) :: rest) = Err DivisionByZero.
Proof.
  intros HQ. unfold main_with, initialize. simpl.
  destruct (Z.to_nat Q) as [|k] eqn:Hk; [lia|]. reflexivity.
Qed.

Lemma no_element_divides_by_zero_witness :
  main_with 4 0 1 [(3, 4)] = Err DivisionByZero.
Proof. apply (no_element_divides_by_zero 4 1 3 4 []). lia. Defined.

(** * The walk on the grid (kadai13.c) *)

(** ** Numerals *)

Lemma is_digit_val c :
  Kadai13.is_digit c = true ->
  0 <= Kadai13.char_val c - Kadai13.char_val "0" <= 9.
Proof.
  unfold Kadai13.is_digit. rewrite andb_true_iff, !Z.leb_le.
  change (Kadai13.char_val "0") with 48.
  change (Kadai13.char_val "9") with 57. lia.
Qed.

Lemma count_digits_from_app ds rest count :
  Forall (fun c => Kadai13.is_digit c = true) ds ->
  (forall c, head rest = Some c -> Kadai13.is_digit c = false) ->
  0 <= count -> count + Z.of_nat (length ds) <= INT_MAX ->
  Kadai13.count_digits_from (ds ++ rest) count =
  count + Z.of_nat (length ds).
Proof.
  intros Hds Hrest. revert count.
  induction Hds as [|c ds Hc Hds IH]; intros count H0 Hmax;
    cbn [length app Kadai13.count_digits_from] in *.
  - destruct rest as [|c rest']; simpl; [lia|].
    rewrite (Hrest c eq_refl). lia.
  - rewrite Hc, wrap32_id by (unfold is_int, INT_MIN, INT_MAX in *; lia).
    rewrite IH by lia. lia.
Qed.

(** X11: on a text shorter than [2 ^ 31], [count_digits] returns the
    length of the longest run of digits that the text starts with: so
    many characters are digits, and the next one, if there is one, is
    not. *)
Theorem count_digits_longest_run (s : list ascii) :
  Z.of_nat (length s) <= INT_MAX ->
  exists n : nat,
    Kadai13.count_digits s = Z.of_nat n /\ (n <= length s)%nat /\
    Forall (fun c => Kadai13.is_digit c = true) (take n s) /\
    forall c, s !! n = Some c -> Kadai13.is_digit c = false.
Proof.
  intros Hlen.
  assert (Hsplit : exists ds rest, s = ds ++ rest /\
            Forall (fun c => Kadai13.is_digit c = true) ds /\
            forall c, head rest = Some c -> Kadai13.is_digit c = false).
  { clear Hlen. induction s as [|c s IH].
    - exists [], []. repeat split; [constructor | discriminate].
    - destruct (Kadai13.is_digit c) eqn:Hc.
      + destruct IH as (ds & rest & -> & Hds & Hrest).
        exists (c :: ds), rest. repeat split; auto.
      + exists [], (c :: s). repeat split; [constructor|].
        intros c' [= <-]. exact Hc. }
  destruct Hsplit as (ds & rest & -> & Hds & Hrest).
  rewrite length_app in Hlen. exists (length ds).
  unfold Kadai13.count_digits.
  rewrite count_digits_from_app by (auto; lia).
  split; [lia|]. split; [rewrite length_app; lia|].
  split; [rewrite take_app_length; exact Hds|].
  intros c Hc. apply Hrest.
  rewrite lookup_app_r, Nat.sub_diag in Hc by lia.
  destruct rest; [discriminate | exact Hc].
Qed.

Lemma count_digits_longest_run_witness :
  exists n : nat,
    Kadai13.count_digits (chars "42N7") = Z.of_nat n /\
    (n <= length (chars "42N7"))%nat /\
    Forall (fun c => Kadai13.is_digit c = true) (take n (chars "42N7")) /\
    forall c, chars "42N7" !! n = Some c -> Kadai13.is_digit c = false.
Proof.
  apply (count_digits_longest_run (chars "42N7")).
  unfold INT_MAX. simpl. lia.
Defined.

Lemma horner_shift ds : forall acc,
  horner ds acc = acc * 10 ^ Z.of_nat (length ds) + horner ds 0.
Proof.
  induction ds as [|c ds IH]; intros acc; simpl horner.
  - simpl. lia.
  - rewrite (IH (acc * 10 + _)), (IH (0 * 10 + _)).
    replace (Z.of_nat (length (c :: ds))) with (Z.succ (Z.of_nat (length ds)))
      by (simpl; lia).
    rewrite Z.pow_succ_r by lia. lia.
Qed.

Lemma horner_ge ds : forall acc,
  Forall (fun c => Kadai13.is_digit c = true) ds ->
  0 <= acc -> acc <= horner ds acc.
Proof.
  induction ds as [|c ds IH]; intros acc Hds H0; simpl; [lia|].
  inversion Hds as [|? ? Hc Hds']; subst.
  pose proof (is_digit_val c Hc).
  etransitivity; [|apply IH; auto; lia]. lia.
Qed.

Lemma digits_to_int_horner ds : forall acc,
  Forall (fun c => Kadai13.is_digit c = true) ds ->
  0 <= acc -> horner ds acc <= INT_MAX ->
  Kadai13.digits_to_int_from ds acc = horner ds acc.
Proof.
  induction ds as [|c ds IH]; intros acc Hds H0 Hmax; simpl; [reflexivity|].
  inversion Hds as [|? ? Hc Hds']; subst.
  pose proof (is_digit_val c Hc) as Hv. simpl in Hmax.
  assert (Hge : 0 <= acc * 10 + (Kadai13.char_val c - Kadai13.char_val "0"))
    by lia.
  apply (horner_ge ds _ Hds') in Hge.
  rewrite wrap32_id by (unfold is_int, INT_MIN, INT_MAX in *; lia).
  apply IH; auto; lia.
Qed.

Lemma pretty_N_char_digit k :
  (k < 10)%N ->
  Kadai13.is_digit (pretty_N_char k) = true /\
  Kadai13.char_val (pretty_N_char k) - Kadai13.char_val "0" = Z.of_N k.
Proof.
  intros Hk.
  assert (H : (k = 0 \/ k = 1 \/ k = 2 \/ k = 3 \/ k = 4 \/ k = 5 \/
               k = 6 \/ k = 7 \/ k = 8 \/ k = 9)%N) by lia.
  repeat (destruct H as [->|H]); try subst k; split; reflexivity.
Qed.

Lemma pretty_N_go_horner x : forall s,
  Forall (fun c => Kadai13.is_digit c = true) (chars s) ->
  Forall (fun c => Kadai13.is_digit c = true) (chars (pretty_N_go x s)) /\
  horner (chars (pretty_N_go x s)) 0 =
    Z.of_N x * 10 ^ Z.of_nat (length (chars s)) + horner (chars s) 0 /\
  (length (chars (pretty_N_go x s)) <= N.to_nat x + length (chars s))%nat.
Proof.
  induction (N.lt_wf_0 x) as [x _ IH]; intros s Hs.
  destruct (N.eq_dec x 0) as [->|Hx].
  - rewrite pretty_N_go_0. split; [exact Hs|]. split; lia.
  - rewrite pretty_N_go_step by lia.
    destruct (pretty_N_char_digit (x mod 10)) as [Hd Hv];
      [apply N.mod_lt; lia|].
    destruct (IH (x / 10)%N
                ltac:(apply N.div_lt; lia)
                (String (pretty_N_char (x mod 10)) s))
      as (Hall & Hval & Hlen).
    { simpl. constructor; assumption. }
    split; [exact Hall|]. split.
    + rewrite Hval. simpl chars. simpl horner. rewrite Hv.
      rewrite (horner_shift (chars s) (0 * 10 + _)).
      replace (Z.of_nat (length (pretty_N_char (x mod 10) :: chars s)))
        with (Z.succ (Z.of_nat (length (chars s)))) by (simpl; lia).
      rewrite Z.pow_succ_r by lia.
      pose proof (N.div_mod x 10 ltac:(lia)) as Hdm.
      assert (Z.of_N x = 10 * Z.of_N (x / 10) + Z.of_N (x mod 10)) by lia.
      lia.
    + simpl in Hlen.
      assert (N.to_nat (x / 10) < N.to_nat x)%nat.
      { pose proof (N.div_lt x 10). lia. }
      lia.
Qed.

Lemma pretty_N_go_nonempty x : forall s,
  (1 <= length (chars s))%nat ->
  (1 <= length (chars (pretty_N_go x s)))%nat.
Proof.
  induction (N.lt_wf_0 x) as [x _ IH]. intros s Hs.
  destruct (N.eq_dec x 0) as [->|Hx].
  - rewrite pretty_N_go_0. exact Hs.
  - rewrite pretty_N_go_step by lia. apply IH.
    + apply N.div_lt; lia.
    + simpl. lia.
Qed.

Lemma decimal_facts n :
  Forall (fun c => Kadai13.is_digit c = true) (decimal n) /\
  horner (decimal n) 0 = Z.of_N n /\
  (1 <= length (decimal n) <= Nat.max 1 (N.to_nat n))%nat.
Proof.
  unfold decimal, pretty, pretty_N.
  destruct (decide (n = 0%N)) as [->|Hn].
  - split; [repeat constructor|]. split; [reflexivity | simpl; lia].
  - destruct (pretty_N_go_horner n "") as (Hall & Hval & Hlen);
      [constructor|].
    split; [exact Hall|]. split; [rewrite Hval; simpl; lia|].
    simpl in Hlen. split; [|lia].
    rewrite pretty_N_go_step by lia. apply pretty_N_go_nonempty.
    simpl. lia.
Qed.

(** X12: [digits_to_int] reads back a decimal numeral: on a text that
    starts with the numeral of [n <= INT_MAX], followed by nothing or by
    a character that is no digit, [count_digits] gives the length of
    the numeral and [digits_to_int] over that many characters gives
    [n]. *)
Theorem digits_to_int_decimal (n : N) (rest : list ascii) :
  Z.of_N n <= INT_MAX ->
  (forall c, head rest = Some c -> Kadai13.is_digit c = false) ->
  Kadai13.count_digits (decimal n ++ rest) = Z.of_nat (length (decimal n)) /\
  Kadai13.digits_to_int
    (take (Z.to_nat (Kadai13.count_digits (decimal n ++ rest)))
       (decimal n ++ rest)) = Z.of_N n.
Proof.
  intros Hn Hrest. destruct (decimal_facts n) as (Hall & Hval & Hlen).
  assert (Hcount : Kadai13.count_digits (decimal n ++ rest) =
                   Z.of_nat (length (decimal n))).
  { unfold Kadai13.count_digits. rewrite count_digits_from_app; auto; try lia.
    unfold INT_MAX in *. lia. }
  split; [exact Hcount|].
  rewrite Hcount, Nat2Z.id, take_app_length.
  unfold Kadai13.digits_to_int.
  rewrite digits_to_int_horner; auto; try lia.
Qed.

Lemma digits_to_int_decimal_witness :
  Kadai13.count_digits (decimal 2024 ++ chars "E5") =
    Z.of_nat (length (decimal 2024)) /\
  Kadai13.digits_to_int
    (take (Z.to_nat (Kadai13.count_digits (decimal 2024 ++ chars "E5")))
       (decimal 2024 ++ chars "E5")) = Z.of_N 2024.
Proof.
  apply (digits_to_int_decimal 2024 (chars "E5")).
  - unfold INT_MAX. lia.
  - intros c [= <-]. reflexivity.
Defined.

(** ** process_insts *)

Lemma decimal_read n rest :
  Z.of_N n <= INT_MAX ->
  (forall c, head rest = Some c -> Kadai13.is_digit c = false) ->
  Kadai13.count_digits (decimal n ++ rest) = Z.of_nat (length (decimal n)) /\
  Kadai13.digits_to_int (decimal n) = Z.of_N n.
Proof.
  intros Hn Hrest. destruct (decimal_facts n) as (Hall & Hval & Hlen).
  split.
  - unfold Kadai13.count_digits. rewrite count_digits_from_app; auto; try lia.
    unfold INT_MAX in *. lia.
  - unfold Kadai13.digits_to_int. rewrite digits_to_int_horner; auto; lia.
Qed.

Lemma text_head instrs c :
  Forall valid_instr instrs -> head (text instrs) = Some c ->
  Kadai13.is_digit c = false.
Proof.
  intros Hall. destruct Hall as [|[d n] r [[Hd _] _] _]; [discriminate|].
  simpl. intros [= <-]. exact Hd.
Qed.

Lemma store_nil a count : store a count [] = a.
Proof. unfold store. simpl. rewrite Nat.add_0_r. apply take_drop. Qed.

Lemma store_insert a c v vals :
  (c < length a)%nat ->
  store (<[c := v]> a) (S c) vals = store a c (v :: vals).
Proof.
  intros Hc. unfold store.
  rewrite (take_S_r _ c v) by (apply list_lookup_insert_eq; exact Hc).
  rewrite take_insert_ge by lia.
  rewrite drop_insert_lt by lia.
  rewrite <- app_assoc. simpl.
  replace (c + S (length vals))%nat with (S (c + length vals)) by lia.
  reflexivity.
Qed.

Lemma process_step fuel d n rest x y count xs ys :
  valid_instr (d, n) ->
  (forall c, head rest = Some c -> Kadai13.is_digit c = false) ->
  Kadai13.process_loop (S fuel) (d :: decimal n ++ rest) x y count xs ys =
  (xs' ← wr xs count (Kadai13.turn d (Z.of_N n) x y).1;
   ys' ← wr ys count (Kadai13.turn d (Z.of_N n) x y).2;
   Kadai13.process_loop fuel rest
     (Kadai13.turn d (Z.of_N n) x y).1 (Kadai13.turn d (Z.of_N n) x y).2
     (wrap32 (count + 1)) xs' ys').
Proof.
  intros [[_ Hnul] Hn] Hrest. simpl in Hnul, Hn.
  cbn [Kadai13.process_loop]. rewrite Hnul.
  destruct (decimal_read n rest Hn Hrest) as [-> Hval].
  rewrite Nat2Z.id, take_app_length, drop_app_length, Hval.
  destruct (Kadai13.turn d (Z.of_N n) x y) as [x' y']. reflexivity.
Qed.

Lemma length_text_cons d n r :
  length (text ((d, n) :: r)) = S (length (decimal n) + length (text r)).
Proof. unfold text. simpl. rewrite length_app. reflexivity. Qed.

Lemma process_loop_text instrs : forall fuel x y (count : nat) xs ys,
  Forall valid_instr instrs ->
  (length (text instrs) < fuel)%nat ->
  Z.of_nat (count + length instrs) <= INT_MAX ->
  (count + length instrs <= length xs)%nat ->
  (count + length instrs <= length ys)%nat ->
  Kadai13.process_loop fuel (text instrs) x y (Z.of_nat count) xs ys =
  Ok (Z.of_nat (count + length instrs),
      store xs count (fst <$> walk instrs x y),
      store ys count (snd <$> walk instrs x y)).
Proof.
  induction instrs as [|[d n] r IH];
    intros fuel x y count xs ys Hall Hfuel Hmax Hxs Hys;
    (destruct fuel as [|fuel]; [lia|]).
  - simpl. rewrite !store_nil, Nat.add_0_r. reflexivity.
  - inversion Hall as [|? ? Hi Hr]; subst.
    rewrite length_text_cons in Hfuel. simpl length in *.
    change (text ((d, n) :: r)) with (d :: decimal n ++ text r).
    rewrite process_step by (auto; intros c; apply text_head; exact Hr).
    rewrite (wr_upd xs) by lia. rewrite (wr_upd ys) by lia.
    rewrite !bind_ret_l. unfold upd. rewrite Nat2Z.id.
    rewrite wrap32_id by (unfold is_int, INT_MIN, INT_MAX in *; lia).
    replace (Z.of_nat count + 1) with (Z.of_nat (S count)) by lia.
    rewrite IH; auto; rewrite ?length_insert; try lia.
    cbn [walk fmap list_fmap].
    rewrite !store_insert by lia.
    replace (S count + length r)%nat with (count + S (length r))%nat by lia.
    reflexivity.
Qed.

Lemma process_loop_overflow instrs : forall fuel x y (count : nat) xs ys,
  Forall valid_instr instrs ->
  (length (text instrs) < fuel)%nat ->
  Z.of_nat (length xs) <= INT_MAX ->
  (count <= length xs)%nat ->
  (length xs < count + length instrs)%nat ->
  Kadai13.process_loop fuel (text instrs) x y (Z.of_nat count) xs ys =
  Err OutOfBounds.
Proof.
  induction instrs as [|[d n] r IH];
    intros fuel x y count xs ys Hall Hfuel Hmax Hc Hover;
    (destruct fuel as [|fuel]; [lia|]).
  - simpl in Hover. lia.
  - inversion Hall as [|? ? Hi Hr]; subst.
    rewrite length_text_cons in Hfuel. simpl length in *.
    change (text ((d, n) :: r)) with (d :: decimal n ++ text r).
    rewrite process_step by (auto; intros c; apply text_head; exact Hr).
    destruct (wr xs (Z.of_nat count) _) as [xs'|e] eqn:Hxs.
    + pose proof Hxs as [Hb ->]%wr_Ok. rewrite bind_ret_l.
      destruct (wr ys (Z.of_nat count) _) as [ys'|e] eqn:Hys.
      * rewrite bind_ret_l.
        rewrite wrap32_id by (unfold is_int, INT_MIN, INT_MAX in *; lia).
        replace (Z.of_nat count + 1) with (Z.of_nat (S count)) by lia.
        apply IH; auto; rewrite ?length_insert; lia.
      * unfold wr in Hys. destruct (in_bounds ys (Z.of_nat count));
          [discriminate|]. injection Hys as <-. reflexivity.
    + unfold wr in Hxs. destruct (in_bounds xs (Z.of_nat count));
        [discriminate|]. injection Hxs as <-. reflexivity.
Qed.

Lemma turn_heading d n x y :
  is_int (x + (heading d).1 * n) -> is_int (y + (heading d).2 * n) ->
  Kadai13.turn d n x y =
  (x + (heading d).1 * n, y + (heading d).2 * n).
Proof.
  destruct d as [[] [] [] [] [] [] [] []]; cbn; intros Hx Hy;
    rewrite ?Z.add_0_r, ?Z.mul_1_l in *;
    rewrite ?wrap32_id by (first [exact Hx | exact Hy]);
    rewrite ?wrap32_id
      by (unfold is_int in *; first [lia | (split; lia)]);
    f_equal; lia.
Qed.

Lemma walk_path instrs : forall x y,
  in_int_range (path instrs x y) -> walk instrs x y = path instrs x y.
Proof.
  induction instrs as [|[d n] r IH]; intros x y Hin; [reflexivity|].
  cbn [walk path] in *. inversion Hin as [|? ? [Hx Hy] Hr]; subst.
  cbn [fst snd] in Hx, Hy.
  rewrite (turn_heading d (Z.of_N n) x y Hx Hy). cbn [fst snd].
  rewrite IH by exact Hr. reflexivity.
Qed.

(** X13: [process_insts] on the text of a list of instructions (a
    letter and the decimal numeral of a distance each) returns, when
    the two arrays have room for one mark more than there are
    instructions and no coordinate leaves the range of [int].  It returns
    that number of marks, and the arrays start with the origin followed
    by one position per instruction: [N] adds the distance to [y], [S]
    takes it from [y], [E] adds it to [x], [W] takes it from [x], and any
    other letter repeats the position.  The cells behind are
    untouched. *)
Theorem process_insts_marks instrs xs ys :
  Forall valid_instr instrs ->
  in_int_range (path instrs 0 0) ->
  Z.of_nat (S (length instrs)) <= INT_MAX ->
  (S (length instrs) <= length xs)%nat ->
  (S (length instrs) <= length ys)%nat ->
  Kadai13.process_insts (text instrs) xs ys =
  Ok (Z.of_nat (S (length instrs)),
      store xs 0 (0 :: (fst <$> path instrs 0 0)),
      store ys 0 (0 :: (snd <$> path instrs 0 0))).
Proof.
  intros Hall Hrange Hmax Hxs Hys. unfold Kadai13.process_insts.
  rewrite (wr_upd xs) by lia. rewrite (wr_upd ys) by lia.
  rewrite !bind_ret_l. unfold upd.
  change (wrap32 (0 + 1)) with (Z.of_nat 1).
  change (Z.to_nat 0) with O.
  rewrite process_loop_text; auto; rewrite ?length_insert; try lia.
  rewrite !store_insert by lia.
  rewrite (walk_path instrs 0 0 Hrange). reflexivity.
Qed.

Lemma process_insts_marks_witness :
  Kadai13.process_insts
    (text [("N"%char, 3%N); ("E"%char, 12%N); ("X"%char, 5%N);
           ("S"%char, 1%N); ("W"%char, 2%N)])
    (replicate 7 7) (replicate 7 7) =
  Ok (6, [0; 0; 12; 12; 12; 10; 7], [0; 3; 3; 3; 2; 2; 7]).
Proof.
  apply (process_insts_marks
           [("N"%char, 3%N); ("E"%char, 12%N); ("X"%char, 5%N);
            ("S"%char, 1%N); ("W"%char, 2%N)]
           (replicate 7 7) (replicate 7 7)).
  - repeat constructor; simpl; unfold INT_MAX; lia.
  - repeat constructor; vm_compute; intuition discriminate.
  - unfold INT_MAX. simpl. lia.
  - simpl. lia.
  - simpl. lia.
Defined.

(** X14: [process_insts] does not check the number of marks against
    the size of the arrays: when [xs] has no more cells than there are
    instructions, it writes behind the last cell.  With the [LEN = 30]
    cells of [main], thirty instructions are enough. *)
Theorem process_insts_overflow instrs xs ys :
  Forall valid_instr instrs ->
  Z.of_nat (length xs) <= INT_MAX ->
  (length xs <= length instrs)%nat ->
  Kadai13.process_insts (text instrs) xs ys = Err OutOfBounds.
Proof.
  intros Hall Hmax Hxs. unfold Kadai13.process_insts.
  destruct (wr xs 0 0) as [xs'|e] eqn:Hw.
  - pose proof Hw as [Hb ->]%wr_Ok. rewrite bind_ret_l.
    destruct (wr ys 0 0) as [ys'|e] eqn:Hwy.
    + rewrite bind_ret_l. change (wrap32 (0 + 1)) with (Z.of_nat 1).
      apply process_loop_overflow; auto; rewrite ?length_insert; lia.
    + unfold wr in Hwy. destruct (in_bounds ys 0); [discriminate|].
      injection Hwy as <-. reflexivity.
  - unfold wr in Hw. destruct (in_bounds xs 0); [discriminate|].
    injection Hw as <-. reflexivity.
Qed.

Lemma process_insts_overflow_witness :
  Kadai13.process_insts (text (replicate 30 ("N"%char, 1%N)))
    (replicate Kadai13.LEN 0) (replicate Kadai13.LEN 0) = Err OutOfBounds.
Proof.
  apply (process_insts_overflow (replicate 30 ("N"%char, 1%N))).
  - apply Forall_replicate. repeat split; simpl; unfold INT_MAX; lia.
  - unfold INT_MAX. rewrite length_replicate. unfold Kadai13.LEN. lia.
  - rewrite !length_replicate. unfold Kadai13.LEN. lia.
Defined.

(** * The exchange sort *)

Section ExchangeSortFacts.
Context {A : Type} (gt : A -> A -> bool).
Hypothesis gt_asym : forall u v, gt u v = true -> gt v u = false.
Hypothesis gt_trans : forall u v w,
  gt u v = false -> gt v w = false -> gt u w = false.

Lemma rearranged_refl lo n (a : list A) : rearranged lo n a a.
Proof. repeat split; eauto. Qed.

Lemma rearranged_trans lo n (a b c : list A) :
  rearranged lo n a b -> rearranged lo n b c -> rearranged lo n a c.
Proof.
  intros (L1 & P1 & O1 & I1) (L2 & P2 & O2 & I2).
  split; [congruence|]. split; [etransitivity; eauto|]. split.
  - intros k Hk. rewrite O2, O1 by exact Hk. reflexivity.
  - intros k v Hk Hv. destruct (I2 k v Hk Hv) as (k' & Hk' & Hv').
    apply (I1 k' v Hk' Hv').
Qed.

Lemma rearranged_weaken lo n (a b : list A) :
  rearranged lo n a b -> rearranged 0 n a b.
Proof.
  intros (L & P & O & I). split; [exact L|]. split; [exact P|]. split.
  - intros k [Hk|Hk]; [lia | apply O; auto].
  - intros k v Hk Hv. destruct (decide (lo <= k)%nat) as [Hlo|Hlo].
    + destruct (I k v ltac:(lia) Hv) as (k' & Hk' & Hv').
      exists k'. split; [lia | exact Hv'].
    + exists k. split; [lia|]. rewrite <- O by lia. exact Hv.
Qed.

Lemma exchange_spec (a : list A) i j n u v :
  (i < j < n)%nat -> a !! i = Some u -> a !! j = Some v ->
  rearranged i n a (exchange gt a i j) /\
  exchange gt a i j !! i = Some (if gt u v then v else u) /\
  exchange gt a i j !! j = Some (if gt u v then u else v) /\
  forall k, k <> i -> k <> j -> exchange gt a i j !! k = a !! k.
Proof.
  intros Hij Hu Hv. unfold exchange. rewrite Hu, Hv.
  pose proof (lookup_lt_Some _ _ _ Hu) as Li.
  pose proof (lookup_lt_Some _ _ _ Hv) as Lj.
  destruct (gt u v); [|repeat split; eauto using rearranged_refl].
  assert (Hi' : <[j:=u]> (<[i:=v]> a) !! i = Some v).
  { rewrite list_lookup_insert_ne by lia.
    apply list_lookup_insert_eq. exact Li. }
  assert (Hj' : <[j:=u]> (<[i:=v]> a) !! j = Some u).
  { apply list_lookup_insert_eq. rewrite length_insert. exact Lj. }
  assert (Hk' : forall k, k <> i -> k <> j ->
            <[j:=u]> (<[i:=v]> a) !! k = a !! k).
  { intros k Hki Hkj. rewrite !list_lookup_insert_ne by lia. reflexivity. }
  split; [|auto]. split; [rewrite !length_insert; reflexivity|].
  split; [apply Permutation_insert_swap; assumption|]. split.
  - intros k Hk. apply Hk'; lia.
  - intros k w Hk Hw. destruct (decide (k = i)) as [->|Hki].
    + exists j. split; [lia | congruence].
    + destruct (decide (k = j)) as [->|Hkj].
      * exists i. split; [lia | congruence].
      * exists k. split; [lia|]. rewrite <- Hk' by assumption. exact Hw.
Qed.

Lemma exch_inner_spec n i k : forall j (a : list A),
  (i < j)%nat -> (j + k = n)%nat -> (n <= length a)%nat ->
  (forall k2 u v, (i < k2 < j)%nat ->
     a !! i = Some u -> a !! k2 = Some v -> gt u v = false) ->
  rearranged i n a (exch_inner gt k i j a) /\
  (forall k2 u v, (i < k2 < n)%nat ->
     exch_inner gt k i j a !! i = Some u ->
     exch_inner gt k i j a !! k2 = Some v -> gt u v = false).
Proof.
  induction k as [|k IH]; intros j a Hij Hjk Hn Hmin; simpl.
  - split; [apply rearranged_refl|]. intros k2 u v Hk2. apply Hmin. lia.
  - destruct (lookup_lt_is_Some_2 a i) as [u Hu]; [lia|].
    destruct (lookup_lt_is_Some_2 a j) as [v Hv]; [lia|].
    destruct (exchange_spec a i j n u v ltac:(lia) Hu Hv)
      as (Hre & Hi' & Hj' & Hk').
    destruct (IH (S j) (exchange gt a i j)) as [Hre2 Hmin2]; try lia.
    { destruct Hre as [-> _]. exact Hn. }
    { intros k2 u' v' Hk2 Hu' Hv'.
      assert (u' = if gt u v then v else u) by congruence. subst u'.
      destruct (decide (k2 = j)) as [->|Hkj].
      - assert (v' = if gt u v then u else v) by congruence. subst v'.
        destruct (gt u v) eqn:Huv; [apply gt_asym | ]; assumption.
      - rewrite Hk' in Hv' by lia.
        pose proof (Hmin k2 u v' ltac:(lia) Hu Hv') as Hold.
        destruct (gt u v) eqn:Huv; [|exact Hold].
        apply (gt_trans v u v'); [apply gt_asym; exact Huv | exact Hold]. }
    split; [eapply rearranged_trans; eauto | exact Hmin2].
Qed.

Lemma exch_outer_spec n k : forall i (a : list A),
  (i + k = n - 1)%nat -> (n <= length a)%nat ->
  (forall k1 k2 u v, (k1 < i)%nat -> (k1 < k2 < n)%nat ->
     a !! k1 = Some u -> a !! k2 = Some v -> gt u v = false) ->
  rearranged 0 n a (exch_outer gt k i n a) /\
  in_order gt n (exch_outer gt k i n a).
Proof.
  induction k as [|k IH]; intros i a Hik Hn Hsorted; simpl.
  - split; [apply rearranged_refl|].
    intros k1 k2 u v Hk. apply Hsorted; lia.
  - destruct (exch_inner_spec n i (n - S i) (S i) a) as [Hre Hmin];
      try lia.
    destruct (IH (S i) (exch_inner gt (n - S i) i (S i) a)) as [Hre2 Hord];
      try lia.
    { destruct Hre as [-> _]. exact Hn. }
    { intros k1 k2 u v Hk1 Hk2 Hu Hv.
      destruct (decide (k1 = i)) as [->|Hne];
        [apply (Hmin k2 u v); auto; lia|].
      destruct Hre as (_ & _ & Hout & Hin).
      rewrite Hout in Hu by lia.
      destruct (decide (k2 < i)%nat) as [Hlt|Hge].
      - rewrite Hout in Hv by lia. apply (Hsorted k1 k2); auto; lia.
      - destruct (Hin k2 v ltac:(lia) Hv) as (k2' & Hk2' & Hv').
        apply (Hsorted k1 k2'); auto; lia. }
    split; [|exact Hord].
    eapply rearranged_trans; [|exact Hre2].
    eapply rearranged_weaken; eauto.
Qed.

Lemma exch_sort_spec n (a : list A) :
  (n <= length a)%nat ->
  rearranged 0 n a (exch_sort gt n a) /\ in_order gt n (exch_sort gt n a).
Proof.
  intros Hn. unfold exch_sort. apply exch_outer_spec; [lia | exact Hn|].
  intros k1 k2 u v Hk1. lia.
Qed.

End ExchangeSortFacts.

Lemma rearranged_take {A} n (a a' : list A) :
  rearranged 0 n a a' -> take n a' ≡ₚ take n a /\ drop n a' = drop n a.
Proof.
  intros (L & P & O & _).
  assert (Hd : drop n a' = drop n a).
  { apply list_eq. intros k. rewrite !lookup_drop. apply O. lia. }
  split; [|exact Hd].
  apply (Permutation_app_inv_r (drop n a)).
  rewrite <- Hd at 1. rewrite !take_drop. exact P.
Qed.

(** ** sort_marks *)

Lemma mark_gt_false p q :
  mark_gt p q = false <-> p.1 < q.1 \/ (p.1 = q.1 /\ p.2 <= q.2).
Proof.
  unfold mark_gt. rewrite orb_false_iff, andb_false_iff, !Z.gtb_ltb.
  rewrite !Z.ltb_ge, Z.eqb_neq. lia.
Qed.

Lemma mark_gt_asym p q : mark_gt p q = true -> mark_gt q p = false.
Proof.
  intros H. apply mark_gt_false.
  destruct (mark_gt q p) eqn:H'; [|apply mark_gt_false in H'; lia].
  unfold mark_gt in *.
  rewrite orb_true_iff, andb_true_iff, !Z.gtb_ltb, !Z.ltb_lt, Z.eqb_eq in *.
  lia.
Qed.

Lemma mark_gt_trans p q r :
  mark_gt p q = false -> mark_gt q r = false -> mark_gt p r = false.
Proof. rewrite !mark_gt_false. lia. Qed.

Lemma rd_fmap (f : Z * Z -> Z) (a : list (Z * Z)) k p :
  a !! k = Some p -> rd (f <$> a) (Z.of_nat k) = Ok (f p).
Proof.
  intros Hp. apply rd_Ok. rewrite length_fmap, Nat2Z.id, list_lookup_fmap, Hp.
  pose proof (lookup_lt_Some _ _ _ Hp). split; [lia | reflexivity].
Qed.

Lemma wr_fmap (f : Z * Z -> Z) (a : list (Z * Z)) k p :
  (k < length a)%nat ->
  wr (f <$> a) (Z.of_nat k) (f p) = Ok (f <$> <[k := p]> a).
Proof.
  intros Hk. apply wr_Ok. rewrite length_fmap, Nat2Z.id, list_fmap_insert.
  split; [lia | reflexivity].
Qed.

Lemma out_of_order_marks (a : list (Z * Z)) i j u v :
  a !! i = Some u -> a !! j = Some v ->
  Kadai13.out_of_order (a.*1) (a.*2) (Z.of_nat i) (Z.of_nat j) =
  Ok (mark_gt u v).
Proof.
  intros Hu Hv. unfold Kadai13.out_of_order, mark_gt.
  rewrite (rd_fmap fst a i u Hu), (rd_fmap fst a j v Hv), !bind_ret_l.
  destruct (u.1 >? v.1); [reflexivity|].
  rewrite ?bind_ret_l. destruct (u.1 =? v.1); [|reflexivity].
  rewrite (rd_fmap snd a i u Hu), (rd_fmap snd a j v Hv), !bind_ret_l.
  reflexivity.
Qed.

Lemma swap_marks_marks (a : list (Z * Z)) i j u v :
  a !! i = Some u -> a !! j = Some v ->
  Kadai13.swap_marks (a.*1) (a.*2) (Z.of_nat i) (Z.of_nat j) =
  Ok ((<[j := u]> (<[i := v]> a)).*1, (<[j := u]> (<[i := v]> a)).*2).
Proof.
  intros Hu Hv. unfold Kadai13.swap_marks.
  pose proof (lookup_lt_Some _ _ _ Hu) as Li.
  pose proof (lookup_lt_Some _ _ _ Hv) as Lj.
  rewrite (rd_fmap fst a i u Hu), (rd_fmap snd a i u Hu), !bind_ret_l.
  rewrite (rd_fmap fst a j v Hv), bind_ret_l.
  rewrite (wr_fmap fst a i v Li), bind_ret_l.
  rewrite (rd_fmap snd a j v Hv), bind_ret_l.
  rewrite (wr_fmap snd a i v Li), bind_ret_l.
  rewrite (wr_fmap fst (<[i:=v]> a) j u), bind_ret_l
    by (rewrite length_insert; exact Lj).
  rewrite (wr_fmap snd (<[i:=v]> a) j u), bind_ret_l
    by (rewrite length_insert; exact Lj).
  reflexivity.
Qed.

Lemma length_exchange {A} gt (a : list A) i j :
  length (exchange gt a i j) = length a.
Proof.
  unfold exchange. destruct (a !! i), (a !! j); try reflexivity.
  destruct (gt _ _); rewrite ?length_insert; reflexivity.
Qed.

Lemma sort_inner_marks i k : forall j (a : list (Z * Z)),
  (i < j)%nat -> (j + k <= length a)%nat ->
  Kadai13.sort_inner k (Z.of_nat i) (Z.of_nat j) (a.*1) (a.*2) =
  Ok ((exch_inner mark_gt k i j a).*1, (exch_inner mark_gt k i j a).*2).
Proof.
  induction k as [|k IH]; intros j a Hij Hlen; simpl; [reflexivity|].
  destruct (lookup_lt_is_Some_2 a i) as [u Hu]; [lia|].
  destruct (lookup_lt_is_Some_2 a j) as [v Hv]; [lia|].
  rewrite (out_of_order_marks a i j u v Hu Hv), bind_ret_l.
  unfold exchange at 1 2. unfold exchange in IH.
  specialize (IH (S j) (exchange mark_gt a i j) ltac:(lia)).
  rewrite length_exchange in IH. specialize (IH ltac:(lia)).
  unfold exchange in IH. rewrite Hu, Hv in *.
  replace (Z.of_nat j + 1) with (Z.of_nat (S j)) by lia.
  destruct (mark_gt u v).
  - rewrite (swap_marks_marks a i j u v Hu Hv), bind_ret_l. exact IH.
  - rewrite bind_ret_l. exact IH.
Qed.

Lemma length_exch_inner {A} gt k : forall i j (a : list A),
  length (exch_inner gt k i j a) = length a.
Proof.
  induction k as [|k IH]; intros i j a; simpl; [reflexivity|].
  rewrite IH. apply length_exchange.
Qed.

Lemma sort_outer_marks n k : forall i (a : list (Z * Z)),
  (i + k <= n - 1)%nat -> (n <= length a)%nat ->
  Kadai13.sort_outer k (Z.of_nat i) (Z.of_nat n) (a.*1) (a.*2) =
  Ok ((exch_outer mark_gt k i n a).*1, (exch_outer mark_gt k i n a).*2).
Proof.
  induction k as [|k IH]; intros i a Hik Hn; simpl; [reflexivity|].
  replace (Z.to_nat (Z.of_nat n - (Z.of_nat i + 1))) with (n - S i)%nat
    by lia.
  replace (Z.of_nat i + 1) with (Z.of_nat (S i)) by lia.
  rewrite sort_inner_marks by lia. rewrite bind_ret_l.
  apply IH; [lia|]. rewrite length_exch_inner. exact Hn.
Qed.

Lemma sort_marks_marks n (a : list (Z * Z)) :
  Z.of_nat n <= INT_MAX -> (n <= length a)%nat ->
  Kadai13.sort_marks (Z.of_nat n) (a.*1) (a.*2) =
  Ok ((exch_sort mark_gt n a).*1, (exch_sort mark_gt n a).*2).
Proof.
  intros Hmax Hn. unfold Kadai13.sort_marks, exch_sort.
  rewrite wrap32_id by (unfold is_int, INT_MIN, INT_MAX in *; lia).
  replace (Z.to_nat (Z.of_nat n - 1)) with (n - 1)%nat by lia.
  apply (sort_outer_marks n (n - 1) 0 a); [lia | exact Hn].
Qed.

(** X15: [sort_marks (n, xs, ys)] on two arrays of equal length with at
    least [n] cells returns; the first [n] marks [(xs[k], ys[k])] are
    afterwards a rearrangement of the first [n] marks before, in order
    of [x] and, for equal [x], of [y]; the cells from [n] on are
    untouched. *)
Theorem sort_marks_sorted (n : nat) (xs ys : list Z) :
  length xs = length ys -> Z.of_nat n <= INT_MAX -> (n <= length xs)%nat ->
  exists xs' ys',
    Kadai13.sort_marks (Z.of_nat n) xs ys = Ok (xs', ys') /\
    length xs' = length xs /\ length ys' = length ys /\
    take n (zip xs' ys') ≡ₚ take n (zip xs ys) /\
    drop n xs' = drop n xs /\ drop n ys' = drop n ys /\
    forall k1 k2 x1 y1 x2 y2, (k1 < k2 < n)%nat ->
      xs' !! k1 = Some x1 -> ys' !! k1 = Some y1 ->
      xs' !! k2 = Some x2 -> ys' !! k2 = Some y2 ->
      x1 < x2 \/ (x1 = x2 /\ y1 <= y2).
Proof.
  intros Hlen Hmax Hn. set (a := zip xs ys).
  assert (Hxs : a.*1 = xs) by (apply fst_zip; lia).
  assert (Hys : a.*2 = ys) by (apply snd_zip; lia).
  assert (Hla : length a = length xs).
  { transitivity (length a.*1); [symmetry; apply length_fmap|].
    rewrite Hxs. reflexivity. }
  destruct (exch_sort_spec mark_gt mark_gt_asym mark_gt_trans n a)
    as [Hre Hord]; [lia|].
  destruct (rearranged_take n a _ Hre) as [Htake Hdrop].
  pose proof Hre as (Hl & _ & _ & _).
  exists (exch_sort mark_gt n a).*1, (exch_sort mark_gt n a).*2.
  pose proof (sort_marks_marks n a Hmax ltac:(lia)) as Hrun.
  rewrite Hxs, Hys in Hrun. split; [exact Hrun|].
  split; [rewrite length_fmap; lia|].
  split; [rewrite length_fmap; lia|].
  split; [rewrite zip_fst_snd; exact Htake|].
  split; [rewrite <- fmap_drop, Hdrop, fmap_drop, Hxs; reflexivity|].
  split; [rewrite <- fmap_drop, Hdrop, fmap_drop, Hys; reflexivity|].
  intros k1 k2 x1 y1 x2 y2 Hk Hx1 Hy1 Hx2 Hy2.
  rewrite list_lookup_fmap in Hx1, Hy1, Hx2, Hy2.
  destruct (exch_sort mark_gt n a !! k1) as [[u1 u2]|] eqn:Hu;
    [|discriminate].
  destruct (exch_sort mark_gt n a !! k2) as [[v1 v2]|] eqn:Hv;
    [|discriminate].
  simpl in *. simplify_eq.
  apply (mark_gt_false (x1, y1) (x2, y2)). apply (Hord k1 k2); auto.
Qed.

Lemma sort_marks_sorted_witness :
  exists xs' ys',
    Kadai13.sort_marks (Z.of_nat 4) [3; 1; 3; 0; 9] [0; 5; -2; 4; 9] =
      Ok (xs', ys') /\
    length xs' = length [3; 1; 3; 0; 9] /\
    length ys' = length [0; 5; -2; 4; 9] /\
    take 4 (zip xs' ys') ≡ₚ take 4 (zip [3; 1; 3; 0; 9] [0; 5; -2; 4; 9]) /\
    drop 4 xs' = drop 4 [3; 1; 3; 0; 9] /\
    drop 4 ys' = drop 4 [0; 5; -2; 4; 9] /\
    forall k1 k2 x1 y1 x2 y2, (k1 < k2 < 4)%nat ->
      xs' !! k1 = Some x1 -> ys' !! k1 = Some y1 ->
      xs' !! k2 = Some x2 -> ys' !! k2 = Some y2 ->
      x1 < x2 \/ (x1 = x2 /\ y1 <= y2).
Proof.
  apply (sort_marks_sorted 4 [3; 1; 3; 0; 9] [0; 5; -2; 4; 9]);
    [reflexivity | unfold INT_MAX; lia | simpl; lia].
Defined.

(** * The list of students (kadai12.c) *)

(** ** insertCell *)

Lemma find_id_found l1 : forall q l2 pn,
  Forall (fun c => Kadai12.id c <> pn) l1 -> Kadai12.id q = pn ->
  Kadai12.find_id (l1 ++ q :: l2) pn = (l1, q :: l2).
Proof.
  induction l1 as [|c l1 IH]; intros q l2 pn Hl1 Hq; simpl.
  - rewrite (proj2 (Z.eqb_eq _ _) Hq). reflexivity.
  - inversion Hl1 as [|? ? Hc Hl1']; subst.
    rewrite (proj2 (Z.eqb_neq _ _) Hc), IH by auto. reflexivity.
Qed.

Lemma find_id_missing l pn :
  Forall (fun c => Kadai12.id c <> pn) l -> Kadai12.find_id l pn = (l, []).
Proof.
  induction 1 as [|c l Hc Hl IH]; simpl; [reflexivity|].
  rewrite (proj2 (Z.eqb_neq _ _) Hc), IH. reflexivity.
Qed.

(** X16: when some cell has the number [pn] and the name fits the
    field, [insertCell] links the new cell, with total 0, right behind
    the first cell that has that number; every other cell stays where it
    is, and nothing is printed. *)
Theorem insertCell_found l1 q l2 s_id s_name e m jp :
  Forall (fun c => Kadai12.id c <> Kadai12.id q) l1 ->
  (String.length s_name < Kadai12.NAME_SIZE)%nat ->
  Kadai12.insertCell (l1 ++ q :: l2) s_id s_name e m jp (Kadai12.id q) =
  Ok (l1 ++ q :: Kadai12.mkSTUS s_id s_name e m jp 0 :: l2, []).
Proof.
  intros Hl1 Hname. unfold Kadai12.insertCell.
  rewrite find_id_found by auto. unfold Kadai12.strcpy.
  rewrite (proj2 (Nat.ltb_lt _ _) Hname). reflexivity.
Qed.

Lemma insertCell_found_witness :
  Kadai12.insertCell
    ([Kadai12.mkSTUS 1001 "A" 1 2 3 6] ++
     Kadai12.mkSTUS 1002 "B" 4 5 6 15 :: [Kadai12.mkSTUS 1002 "C" 7 8 9 24])
    1010 "NEW" 10 20 30
    (Kadai12.id (Kadai12.mkSTUS 1002 "B" 4 5 6 15)) =
  Ok ([Kadai12.mkSTUS 1001 "A" 1 2 3 6] ++
      Kadai12.mkSTUS 1002 "B" 4 5 6 15 ::
      Kadai12.mkSTUS 1010 "NEW" 10 20 30 0 ::
      [Kadai12.mkSTUS 1002 "C" 7 8 9 24], []).
Proof.
  apply (insertCell_found [Kadai12.mkSTUS 1001 "A" 1 2 3 6]).
  - repeat constructor. simpl. lia.
  - unfold Kadai12.NAME_SIZE. simpl. lia.
Defined.

(** X17: when no cell has the number [pn], [insertCell] leaves the list
    as it is and prints that the number is not in the list; the new name
    is not even copied, so its length does not matter. *)
Theorem insertCell_missing head s_id s_name e m jp pn :
  Forall (fun c => Kadai12.id c <> pn) head ->
  Kadai12.insertCell head s_id s_name e m jp pn =
  Ok (head, [Kadai12.NotInList]).
Proof.
  intros Hhead. unfold Kadai12.insertCell.
  rewrite find_id_missing by exact Hhead. reflexivity.
Qed.

Lemma insertCell_missing_witness :
  Kadai12.insertCell [Kadai12.mkSTUS 1001 "A" 1 2 3 6] 1010 "NEW" 1 2 3 7 =
  Ok ([Kadai12.mkSTUS 1001 "A" 1 2 3 6], [Kadai12.NotInList]).
Proof.
  apply (insertCell_missing [Kadai12.mkSTUS 1001 "A" 1 2 3 6]).
  repeat constructor. simpl. lia.
Defined.

(** ** deleteCell *)

Lemma delete_after_found l1 : forall q d l2 prevName,
  Forall (fun c => Kadai12.name c <> prevName) l1 ->
  Kadai12.name q = prevName ->
  Kadai12.delete_after (l1 ++ q :: d :: l2) prevName = Some (l1 ++ q :: l2).
Proof.
  induction l1 as [|c l1 IH]; intros q d l2 prevName Hl1 Hq; simpl.
  - rewrite (proj2 (String.eqb_eq _ _) Hq). reflexivity.
  - inversion Hl1 as [|? ? Hc Hl1']; subst.
    rewrite (proj2 (String.eqb_neq _ _) Hc).
    destruct (l1 ++ q :: d :: l2) as [|c' rest] eqn:E;
      [destruct l1; discriminate|].
    rewrite <- E, IH by auto. reflexivity.
Qed.

Lemma delete_after_last l1 : forall z prevName,
  Forall (fun c => Kadai12.name c <> prevName) l1 ->
  Kadai12.delete_after (l1 ++ [z]) prevName = None.
Proof.
  induction l1 as [|c l1 IH]; intros z prevName Hl1; simpl; [reflexivity|].
  inversion Hl1 as [|? ? Hc Hl1']; subst.
  destruct (l1 ++ [z]) as [|c' rest] eqn:E; [reflexivity|].
  rewrite (proj2 (String.eqb_neq _ _) Hc), <- E, IH by auto. reflexivity.
Qed.

(** X18: [deleteCell (prevName)] unlinks the cell behind the first cell
    named [prevName], when that cell has one behind it: the list loses
    exactly that cell, the call returns 1, and the first cell of the
    list is never the one that goes. *)
Theorem deleteCell_found l1 q d l2 :
  Forall (fun c => Kadai12.name c <> Kadai12.name q) l1 ->
  Kadai12.deleteCell (l1 ++ q :: d :: l2) (Kadai12.name q) =
  Some (l1 ++ q :: l2, 1, [Kadai12.Deleted]).
Proof.
  intros Hl1. unfold Kadai12.deleteCell.
  destruct l1 as [|h l1]; cbn [app]; cbv beta iota.
  - rewrite String.eqb_refl. reflexivity.
  - inversion Hl1 as [|? ? Hh Hl1']; subst.
    rewrite (proj2 (String.eqb_neq _ _) Hh).
    rewrite (delete_after_found (h :: l1) q d l2) by auto. reflexivity.
Qed.

Lemma deleteCell_found_witness :
  Kadai12.deleteCell
    ([Kadai12.mkSTUS 1001 "A" 1 2 3 6] ++
     Kadai12.mkSTUS 1002 "B" 4 5 6 15 ::
     Kadai12.mkSTUS 1003 "C" 7 8 9 24 :: [])
    (Kadai12.name (Kadai12.mkSTUS 1002 "B" 4 5 6 15)) =
  Some ([Kadai12.mkSTUS 1001 "A" 1 2 3 6] ++
        Kadai12.mkSTUS 1002 "B" 4 5 6 15 :: [], 1, [Kadai12.Deleted]).
Proof.
  apply (deleteCell_found [Kadai12.mkSTUS 1001 "A" 1 2 3 6]).
  repeat constructor. simpl. discriminate.
Defined.

(** X19: when no cell other than the last one is named [prevName],
    [deleteCell] unlinks nothing: it returns 0 with the list as it was
    and one message.  The name of the last cell never leads to a
    deletion. *)
Theorem deleteCell_missing l1 z prevName :
  Forall (fun c => Kadai12.name c <> prevName) l1 ->
  exists msg,
    Kadai12.deleteCell (l1 ++ [z]) prevName = Some (l1 ++ [z], 0, [msg]) /\
    (msg = Kadai12.NothingToDelete <->
     l1 = [] /\ Kadai12.name z = prevName).
Proof.
  intros Hl1. unfold Kadai12.deleteCell.
  destruct l1 as [|h l1]; cbn [app]; cbv beta iota.
  - destruct (String.eqb_spec (Kadai12.name z) prevName) as [Hz|Hz].
    + exists Kadai12.NothingToDelete. split; [reflexivity | tauto].
    + exists Kadai12.NotFound. split; [reflexivity|].
      split; [discriminate | tauto].
  - inversion Hl1 as [|? ? Hh Hl1']; subst.
    rewrite (proj2 (String.eqb_neq _ _) Hh).
    change (h :: l1 ++ [z]) with ((h :: l1) ++ [z]).
    rewrite delete_after_last by auto.
    exists Kadai12.NotFound. split; [reflexivity|].
    split; [discriminate | intros [[=] _]].
Qed.

Lemma deleteCell_missing_witness :
  exists msg,
    Kadai12.deleteCell
      ([Kadai12.mkSTUS 1001 "A" 1 2 3 6] ++
       [Kadai12.mkSTUS 1002 "B" 4 5 6 15]) "B" =
    Some ([Kadai12.mkSTUS 1001 "A" 1 2 3 6] ++
          [Kadai12.mkSTUS 1002 "B" 4 5 6 15], 0, [msg]) /\
    (msg = Kadai12.NothingToDelete <->
     [Kadai12.mkSTUS 1001 "A" 1 2 3 6] = [] /\
     Kadai12.name (Kadai12.mkSTUS 1002 "B" 4 5 6 15) = "B").
Proof.
  apply (deleteCell_missing [Kadai12.mkSTUS 1001 "A" 1 2 3 6]).
  repeat constructor. simpl. discriminate.
Defined.

(** ** copy and sort *)

Lemma get_Ok (s : list Kadai12.STUS) k c :
  s !! k = Some c -> Kadai12.get s (Z.of_nat k) = Ok c.
Proof.
  intros Hc. pose proof (lookup_lt_Some _ _ _ Hc) as Hk.
  unfold Kadai12.get. rewrite Nat2Z.id, Hc.
  destruct (Z.leb_spec 0 (Z.of_nat k)); [|lia].
  destruct (Z.ltb_spec (Z.of_nat k) (Z.of_nat (length s))); [|lia].
  reflexivity.
Qed.

Lemma put_Ok (s : list Kadai12.STUS) k c :
  (k < length s)%nat -> Kadai12.put s (Z.of_nat k) c = Ok (<[k := c]> s).
Proof.
  intros Hk. unfold Kadai12.put. rewrite Nat2Z.id.
  destruct (Z.leb_spec 0 (Z.of_nat k)); [|lia].
  destruct (Z.ltb_spec (Z.of_nat k) (Z.of_nat (length s))); [|lia].
  reflexivity.
Qed.

Lemma total_lt_asym u v : total_lt u v = true -> total_lt v u = false.
Proof. unfold total_lt. rewrite Z.ltb_lt, Z.ltb_ge. lia. Qed.

Lemma total_lt_trans u v w :
  total_lt u v = false -> total_lt v w = false -> total_lt u w = false.
Proof. unfold total_lt. rewrite !Z.ltb_ge. lia. Qed.

Lemma sort_inner_cells i k : forall j (s : list Kadai12.STUS),
  (i < j)%nat -> (j + k <= length s)%nat ->
  Kadai12.sort_inner k (Z.of_nat i) (Z.of_nat j) s =
  Ok (exch_inner total_lt k i j s).
Proof.
  induction k as [|k IH]; intros j s Hij Hlen; simpl; [reflexivity|].
  destruct (lookup_lt_is_Some_2 s i) as [u Hu]; [lia|].
  destruct (lookup_lt_is_Some_2 s j) as [v Hv]; [lia|].
  rewrite (get_Ok s i u Hu), (get_Ok s j v Hv), !bind_ret_l.
  specialize (IH (S j) (exchange total_lt s i j) ltac:(lia)).
  rewrite length_exchange in IH. specialize (IH ltac:(lia)).
  replace (Z.of_nat j + 1) with (Z.of_nat (S j)) by lia.
  unfold exchange in *. rewrite Hu, Hv in *. unfold total_lt in *.
  destruct (Kadai12.total u <? Kadai12.total v).
  - rewrite (put_Ok s i v) by lia. rewrite bind_ret_l.
    rewrite (put_Ok (<[i:=v]> s) j u) by (rewrite length_insert; lia).
    rewrite bind_ret_l. exact IH.
  - rewrite bind_ret_l. exact IH.
Qed.

Lemma sort_outer_cells n k : forall i (s : list Kadai12.STUS),
  (i + k <= n - 1)%nat -> (n <= length s)%nat ->
  Kadai12.sort_outer k (Z.of_nat i) (Z.of_nat n) s =
  Ok (exch_outer total_lt k i n s).
Proof.
  induction k as [|k IH]; intros i s Hik Hn; simpl; [reflexivity|].
  replace (Z.to_nat (Z.of_nat n - (Z.of_nat i + 1))) with (n - S i)%nat
    by lia.
  replace (Z.of_nat i + 1) with (Z.of_nat (S i)) by lia.
  rewrite sort_inner_cells by lia. rewrite bind_ret_l.
  apply IH; [lia|]. rewrite length_exch_inner. exact Hn.
Qed.

Lemma sort_cells n (s : list Kadai12.STUS) :
  Z.of_nat n <= INT_MAX -> (n <= length s)%nat ->
  Kadai12.sort s (Z.of_nat n) = Ok (exch_sort total_lt n s).
Proof.
  intros Hmax Hn. unfold Kadai12.sort, exch_sort.
  rewrite wrap32_id by (unfold is_int, INT_MIN, INT_MAX in *; lia).
  replace (Z.to_nat (Z.of_nat n - 1)) with (n - 1)%nat by lia.
  apply (sort_outer_cells n (n - 1) 0 s); [lia | exact Hn].
Qed.

(** X20: [sort (s, n)] on an array of at least [n] cells returns; the
    first [n] cells are afterwards a rearrangement of the first [n]
    cells before, with totals that never rise from one cell to the next;
    the cells from [n] on are untouched. *)
Theorem sort_descending (n : nat) (s : list Kadai12.STUS) :
  Z.of_nat n <= INT_MAX -> (n <= length s)%nat ->
  exists s',
    Kadai12.sort s (Z.of_nat n) = Ok s' /\
    length s' = length s /\
    take n s' ≡ₚ take n s /\ drop n s' = drop n s /\
    forall k1 k2 u v, (k1 < k2 < n)%nat ->
      s' !! k1 = Some u -> s' !! k2 = Some v ->
      Kadai12.total v <= Kadai12.total u.
Proof.
  intros Hmax Hn.
  destruct (exch_sort_spec total_lt total_lt_asym total_lt_trans n s Hn)
    as [Hre Hord].
  destruct (rearranged_take n s _ Hre) as [Htake Hdrop].
  exists (exch_sort total_lt n s).
  split; [apply sort_cells; assumption|].
  split; [apply Hre|]. split; [exact Htake|]. split; [exact Hdrop|].
  intros k1 k2 u v Hk Hu Hv.
  pose proof (Hord k1 k2 u v Hk Hu Hv) as H.
  unfold total_lt in H. apply Z.ltb_ge in H. exact H.
Qed.

Lemma sort_descending_witness :
  exists s',
    Kadai12.sort
      [Kadai12.mkSTUS 1 "A" 1 2 3 6; Kadai12.mkSTUS 2 "B" 4 5 6 15;
       Kadai12.mkSTUS 3 "C" 0 0 1 1] (Z.of_nat 2) = Ok s' /\
    length s' =
      length [Kadai12.mkSTUS 1 "A" 1 2 3 6; Kadai12.mkSTUS 2 "B" 4 5 6 15;
              Kadai12.mkSTUS 3 "C" 0 0 1 1] /\
    take 2 s' ≡ₚ
      take 2 [Kadai12.mkSTUS 1 "A" 1 2 3 6; Kadai12.mkSTUS 2 "B" 4 5 6 15;
              Kadai12.mkSTUS 3 "C" 0 0 1 1] /\
    drop 2 s' =
      drop 2 [Kadai12.mkSTUS 1 "A" 1 2 3 6; Kadai12.mkSTUS 2 "B" 4 5 6 15;
              Kadai12.mkSTUS 3 "C" 0 0 1 1] /\
    forall k1 k2 u v, (k1 < k2 < 2)%nat ->
      s' !! k1 = Some u -> s' !! k2 = Some v ->
      Kadai12.total v <= Kadai12.total u.
Proof.
  apply (sort_descending 2); [unfold INT_MAX; lia | simpl; lia].
Defined.

Lemma copy_from_spec p : forall (i : nat) n sb,
  (i + Nat.min (Z.to_nat n - i) (length p) <= length sb)%nat ->
  Kadai12.copy_from p (Z.of_nat i) n sb =
  Ok (take i sb ++ take (Nat.min (Z.to_nat n - i) (length p)) p ++
      drop (i + Nat.min (Z.to_nat n - i) (length p)) sb).
Proof.
  induction p as [|c next IH]; intros i n sb Hlen; simpl Kadai12.copy_from.
  - rewrite Nat.min_0_r, Nat.add_0_r. simpl. rewrite take_drop. reflexivity.
  - destruct (Z.ltb_spec (Z.of_nat i) n) as [Hin|Hin].
    + simpl length in *.
      assert (Hk : Nat.min (Z.to_nat n - i) (S (length next)) =
                   S (Nat.min (Z.to_nat n - S i) (length next))) by lia.
      rewrite Hk in *.
      rewrite put_Ok by lia. rewrite bind_ret_l.
      replace (Z.of_nat i + 1) with (Z.of_nat (S i)) by lia.
      rewrite IH by (rewrite length_insert; lia).
      rewrite (take_S_r _ i c) by (apply list_lookup_insert_eq; lia).
      rewrite take_insert_ge by lia. rewrite drop_insert_lt by lia.
      rewrite <- app_assoc. simpl.
      replace (i + S (Nat.min (Z.to_nat n - S i) (length next)))%nat
        with (S (i + Nat.min (Z.to_nat n - S i) (length next))) by lia.
      reflexivity.
    + replace (Z.to_nat n - i)%nat with O by lia. simpl.
      rewrite Nat.add_0_r, take_drop. reflexivity.
Qed.

(** X21: [copy (sb, n)] copies the first [n] cells of the list into the
    first [n] cells of the array, or the whole list when it has fewer
    than [n] cells: it never reads behind the end of the list, and it
    leaves the other cells of the array as they were. *)
Theorem copy_cells head sb n :
  (Nat.min (Z.to_nat n) (length head) <= length sb)%nat ->
  Kadai12.copy head sb n =
  Ok (take (Nat.min (Z.to_nat n) (length head)) head ++
      drop (Nat.min (Z.to_nat n) (length head)) sb).
Proof.
  intros Hlen. unfold Kadai12.copy.
  change 0 with (Z.of_nat 0). rewrite copy_from_spec;
    rewrite Nat.sub_0_r; simpl; [reflexivity | exact Hlen].
Qed.

Lemma copy_cells_witness :
  Kadai12.copy [Kadai12.mkSTUS 1 "A" 1 2 3 6]
    [Kadai12.mkSTUS 7 "X" 0 0 0 0; Kadai12.mkSTUS 8 "Y" 0 0 0 0] 2 =
  Ok (take (Nat.min (Z.to_nat 2) (length [Kadai12.mkSTUS 1 "A" 1 2 3 6]))
        [Kadai12.mkSTUS 1 "A" 1 2 3 6] ++
      drop (Nat.min (Z.to_nat 2) (length [Kadai12.mkSTUS 1 "A" 1 2 3 6]))
        [Kadai12.mkSTUS 7 "X" 0 0 0 0; Kadai12.mkSTUS 8 "Y" 0 0 0 0]).
Proof. apply (copy_cells [Kadai12.mkSTUS 1 "A" 1 2 3 6]). simpl. lia. Defined.

(** X22: the three calls that [main] makes after every change of the
    list, [calcSum (); copy (stub, count); sort (stub, count)], with
    [count] the length of the list and room for it in [stub]: the first
    [count] cells of [stub] are then the cells of the list, each with
    the sum of its three scores as total, rearranged so that the totals
    never rise; the rest of [stub] is untouched. *)
Theorem ranking head stub :
  Z.of_nat (length head) <= INT_MAX -> (length head <= length stub)%nat ->
  exists stub',
    (sb ← Kadai12.copy (Kadai12.calcSum head) stub (Z.of_nat (length head));
     Kadai12.sort sb (Z.of_nat (length head))) = Ok stub' /\
    take (length head) stub' ≡ₚ Kadai12.calcSum head /\
    drop (length head) stub' = drop (length head) stub /\
    Forall (fun c => Kadai12.total c =
              wrap32 (wrap32 (Kadai12.eng c + Kadai12.math c) + Kadai12.jpn c))
      (take (length head) stub') /\
    forall k1 k2 u v, (k1 < k2 < length head)%nat ->
      stub' !! k1 = Some u -> stub' !! k2 = Some v ->
      Kadai12.total v <= Kadai12.total u.
Proof.
  intros Hmax Hlen. set (n := length head).
  set (l := Kadai12.calcSum head).
  assert (Hl : length l = n) by (unfold l, Kadai12.calcSum; apply length_fmap).
  unfold Kadai12.copy. change 0 with (Z.of_nat 0).
  rewrite copy_from_spec; rewrite Nat.sub_0_r, Nat2Z.id, Hl, Nat.min_id;
    simpl; [|lia].
  rewrite (take_ge l n) by lia.
  set (sb := l ++ drop n stub).
  assert (Hsb : length sb = length stub).
  { unfold sb. rewrite length_app, length_drop. lia. }
  destruct (exch_sort_spec total_lt total_lt_asym total_lt_trans n sb)
    as [Hre Hord]; [lia|].
  destruct (rearranged_take n sb _ Hre) as [Htake Hdrop].
  assert (Htk : take n sb = l).
  { unfold sb. rewrite take_app_length' by (symmetry; exact Hl). reflexivity. }
  assert (Hdr : drop n sb = drop n stub).
  { unfold sb. rewrite drop_app_length' by (symmetry; exact Hl). reflexivity. }
  exists (exch_sort total_lt n sb).
  split; [apply sort_cells; [exact Hmax | lia]|].
  split; [rewrite Htake, Htk; reflexivity|].
  split; [rewrite Hdrop, Hdr; reflexivity|]. split.
  - rewrite Htake, Htk. unfold l, Kadai12.calcSum.
    apply Forall_fmap, Forall_forall. intros c _. reflexivity.
  - intros k1 k2 u v Hk Hu Hv.
    pose proof (Hord k1 k2 u v Hk Hu Hv) as H.
    unfold total_lt in H. apply Z.ltb_ge in H. exact H.
Qed.

Lemma ranking_witness :
  exists stub',
    (sb ← Kadai12.copy
            (Kadai12.calcSum
               [Kadai12.mkSTUS 1 "A" 1 2 3 0; Kadai12.mkSTUS 2 "B" 4 5 6 0])
            [Kadai12.mkSTUS 7 "X" 0 0 0 0; Kadai12.mkSTUS 8 "Y" 0 0 0 0;
             Kadai12.mkSTUS 9 "Z" 0 0 0 0]
            (Z.of_nat
               (length [Kadai12.mkSTUS 1 "A" 1 2 3 0;
                        Kadai12.mkSTUS 2 "B" 4 5 6 0]));
     Kadai12.sort sb
       (Z.of_nat
          (length [Kadai12.mkSTUS 1 "A" 1 2 3 0;
                   Kadai12.mkSTUS 2 "B" 4 5 6 0]))) = Ok stub' /\
    take (length [Kadai12.mkSTUS 1 "A" 1 2 3 0; Kadai12.mkSTUS 2 "B" 4 5 6 0])
      stub' ≡ₚ
      Kadai12.calcSum
        [Kadai12.mkSTUS 1 "A" 1 2 3 0; Kadai12.mkSTUS 2 "B" 4 5 6 0] /\
    drop (length [Kadai12.mkSTUS 1 "A" 1 2 3 0; Kadai12.mkSTUS 2 "B" 4 5 6 0])
      stub' =
      drop (length [Kadai12.mkSTUS 1 "A" 1 2 3 0;
                    Kadai12.mkSTUS 2 "B" 4 5 6 0])
        [Kadai12.mkSTUS 7 "X" 0 0 0 0; Kadai12.mkSTUS 8 "Y" 0 0 0 0;
         Kadai12.mkSTUS 9 "Z" 0 0 0 0] /\
    Forall (fun c => Kadai12.total c =
              wrap32 (wrap32 (Kadai12.eng c + Kadai12.math c) + Kadai12.jpn c))
      (take (length [Kadai12.mkSTUS 1 "A" 1 2 3 0;
                     Kadai12.mkSTUS 2 "B" 4 5 6 0]) stub') /\
    forall k1 k2 u v,
      (k1 < k2 < length [Kadai12.mkSTUS 1 "A" 1 2 3 0;
                         Kadai12.mkSTUS 2 "B" 4 5 6 0])%nat ->
      stub' !! k1 = Some u -> stub' !! k2 = Some v ->
      Kadai12.total v <= Kadai12.total u.
Proof.
  apply (ranking [Kadai12.mkSTUS 1 "A" 1 2 3 0; Kadai12.mkSTUS 2 "B" 4 5 6 0]);
    [unfold INT_MAX; simpl; lia | simpl; lia].
Defined.

(** ** The commands of main *)

Lemma dispList2_from_take k : forall (i : nat) (s : list Kadai12.STUS),
  (i + k <= length s)%nat ->
  Kadai12.dispList2_from k (Z.of_nat i) s = Ok (take k (drop i s)).
Proof.
  induction k as [|k IH]; intros i s Hlen; simpl; [reflexivity|].
  destruct (lookup_lt_is_Some_2 s i) as [c Hc]; [lia|].
  rewrite (get_Ok s i c Hc), bind_ret_l.
  replace (Z.of_nat i + 1) with (Z.of_nat (S i)) by lia.
  rewrite IH by lia. rewrite bind_ret_l.
  rewrite (drop_S s c i Hc). reflexivity.
Qed.

Lemma refresh_run h (n : nat) (sb : list Kadai12.STUS) :
  Z.of_nat n <= INT_MAX -> (n <= length sb)%nat ->
  let l := Kadai12.calcSum h in
  let m := Nat.min n (length l) in
  let ranked := exch_sort total_lt n (take m l ++ drop m sb) in
  Kadai12.refresh (Kadai12.mkApp h (Z.of_nat n) sb) =
  Ok (Kadai12.mkApp l (Z.of_nat n) ranked,
      [Kadai12.Table1 l; Kadai12.Table2 (take n ranked)]).
Proof.
  intros Hmax Hn l m ranked. unfold Kadai12.refresh. simpl.
  fold l. unfold Kadai12.copy. change 0 with (Z.of_nat 0).
  rewrite copy_from_spec; rewrite Nat.sub_0_r, Nat2Z.id; fold m;
    simpl; [|lia].
  assert (Hlen : length (take m l ++ drop m sb) = length sb).
  { rewrite length_app, length_take, length_drop. lia. }
  rewrite sort_cells by (auto; lia). rewrite bind_ret_l. fold ranked.
  assert (Hr : length ranked = length sb).
  { unfold ranked.
    destruct (exch_sort_spec total_lt total_lt_asym total_lt_trans n
                (take m l ++ drop m sb)) as [(-> & _) _]; lia. }
  unfold Kadai12.dispList2. rewrite Nat2Z.id. change 0 with (Z.of_nat 0).
  rewrite dispList2_from_take by lia. reflexivity.
Qed.

(** X23: in the push branch of [main], [count] is raised whether or not
    [insertCell] found the number.  With [count] equal to the length of
    the list and a number that no student has, the list stays as it is,
    [count] ends one above its length, and the ranking then takes in the
    cell of [stub] behind the copied ones: the second table shows the
    students and that left-over cell. *)
Theorem push_unknown_number a prevNum s_id s_name e m jp :
  Kadai12.count a = Z.of_nat (length (Kadai12.head a)) ->
  (length (Kadai12.head a) < Kadai12.NUM)%nat ->
  length (Kadai12.stub a) = Kadai12.NUM ->
  (String.length s_name < Kadai12.NAME_SIZE)%nat ->
  Forall (fun c => Kadai12.id c <> prevNum) (Kadai12.head a) ->
  exists a' rows c,
    Kadai12.push a prevNum s_id s_name e m jp =
      Ok (a', [Kadai12.Say Kadai12.NotInList;
               Kadai12.Table1 (Kadai12.calcSum (Kadai12.head a));
               Kadai12.Table2 rows]) /\
    Kadai12.head a' = Kadai12.calcSum (Kadai12.head a) /\
    Kadai12.count a' = Z.of_nat (length (Kadai12.head a')) + 1 /\
    Kadai12.stub a !! length (Kadai12.head a) = Some c /\
    rows ≡ₚ Kadai12.calcSum (Kadai12.head a) ++ [c].
Proof.
  destruct a as [h cnt sb]. simpl. intros -> Hnum Hsb Hname Hmiss.
  set (n := length h) in *. set (l := Kadai12.calcSum h).
  assert (Hl : length l = n) by (unfold l, Kadai12.calcSum; apply length_fmap).
  destruct (lookup_lt_is_Some_2 sb n) as [c Hc]; [lia|].
  unfold Kadai12.push. simpl.
  destruct (Z.geb_spec (Z.of_nat n) (Z.of_nat Kadai12.NUM)) as [|_]; [lia|].
  unfold Kadai12.strcpy at 1. rewrite (proj2 (Nat.ltb_lt _ _) Hname).
  rewrite bind_ret_l.
  unfold Kadai12.insertCell. rewrite find_id_missing by exact Hmiss.
  rewrite bind_ret_l.
  assert (Hmax : Z.of_nat (S n) <= INT_MAX).
  { unfold INT_MAX, Kadai12.NUM in *. lia. }
  rewrite wrap32_id by (unfold is_int, INT_MIN, INT_MAX in *; lia).
  replace (Z.of_nat n + 1) with (Z.of_nat (S n)) by lia.
  rewrite (refresh_run h (S n) sb Hmax) by lia. fold l.
  rewrite Hl. replace (Nat.min (S n) n) with n by lia.
  rewrite (take_ge l n) by lia. rewrite bind_ret_l.
  set (ranked := exch_sort total_lt (S n) (l ++ drop n sb)).
  exists (Kadai12.mkApp l (Z.of_nat (S n)) ranked), (take (S n) ranked), c.
  split; [reflexivity|]. split; [reflexivity|].
  split; [simpl; rewrite Hl; lia|]. split; [exact Hc|].
  destruct (exch_sort_spec total_lt total_lt_asym total_lt_trans (S n)
              (l ++ drop n sb)) as [Hre _].
  { rewrite length_app, length_drop. lia. }
  destruct (rearranged_take (S n) _ _ Hre) as [Htake _].
  fold ranked in Htake. rewrite Htake.
  rewrite (drop_S sb c n Hc).
  rewrite take_app_ge by lia. rewrite Hl.
  replace (S n - n)%nat with 1%nat by lia. reflexivity.
Qed.

Lemma push_unknown_number_witness :
  exists a' rows c,
    Kadai12.push
      (Kadai12.mkApp [Kadai12.mkSTUS 1001 "A" 1 2 3 0] 1
         (replicate Kadai12.NUM (Kadai12.mkSTUS 0 "" 0 0 0 99)))
      7 1010 "NEW" 1 2 3 =
      Ok (a', [Kadai12.Say Kadai12.NotInList;
               Kadai12.Table1
                 (Kadai12.calcSum [Kadai12.mkSTUS 1001 "A" 1 2 3 0]);
               Kadai12.Table2 rows]) /\
    Kadai12.head a' = Kadai12.calcSum [Kadai12.mkSTUS 1001 "A" 1 2 3 0] /\
    Kadai12.count a' = Z.of_nat (length (Kadai12.head a')) + 1 /\
    replicate Kadai12.NUM (Kadai12.mkSTUS 0 "" 0 0 0 99) !! 1%nat = Some c /\
    rows ≡ₚ Kadai12.calcSum [Kadai12.mkSTUS 1001 "A" 1 2 3 0] ++ [c].
Proof.
  apply (push_unknown_number
           (Kadai12.mkApp [Kadai12.mkSTUS 1001 "A" 1 2 3 0] 1
              (replicate Kadai12.NUM (Kadai12.mkSTUS 0 "" 0 0 0 99)))).
  - reflexivity.
  - unfold Kadai12.NUM. simpl. lia.
  - apply length_replicate.
  - unfold Kadai12.NAME_SIZE. simpl. lia.
  - repeat constructor. simpl. lia.
Defined.

(** X24: the push branch with a number that a student has: from
    [count] equal to the length of the list, the new cell is linked in
    behind that student, [count] follows the list, and the second table
    shows the students of the new list, totals computed, in ranking
    order. *)
Theorem push_known_number l1 q l2 cnt sb s_id s_name e m jp :
  cnt = Z.of_nat (length (l1 ++ q :: l2)) ->
  (length (l1 ++ q :: l2) < Kadai12.NUM)%nat ->
  length sb = Kadai12.NUM ->
  (String.length s_name < Kadai12.NAME_SIZE)%nat ->
  Forall (fun c => Kadai12.id c <> Kadai12.id q) l1 ->
  exists a' rows,
    Kadai12.push (Kadai12.mkApp (l1 ++ q :: l2) cnt sb)
      (Kadai12.id q) s_id s_name e m jp =
      Ok (a', [Kadai12.Table1 (Kadai12.head a'); Kadai12.Table2 rows]) /\
    Kadai12.head a' =
      Kadai12.calcSum
        (l1 ++ q :: Kadai12.mkSTUS s_id s_name e m jp 0 :: l2) /\
    Kadai12.count a' = Z.of_nat (length (Kadai12.head a')) /\
    rows ≡ₚ Kadai12.head a' /\
    forall k1 k2 u v, (k1 < k2)%nat ->
      rows !! k1 = Some u -> rows !! k2 = Some v ->
      Kadai12.total v <= Kadai12.total u.
Proof.
  intros -> Hnum Hsb Hname Hl1.
  set (head' :=
    Kadai12.calcSum (l1 ++ q :: Kadai12.mkSTUS s_id s_name e m jp 0 :: l2)).
  set (h := l1 ++ q :: l2) in *. set (n := length h) in *.
  assert (Hl : length head' = S n).
  { unfold head', Kadai12.calcSum, n, h.
    rewrite length_fmap, !length_app. simpl. lia. }
  unfold Kadai12.push. simpl.
  destruct (Z.geb_spec (Z.of_nat n) (Z.of_nat Kadai12.NUM)) as [|_]; [lia|].
  unfold Kadai12.strcpy at 1. rewrite (proj2 (Nat.ltb_lt _ _) Hname).
  rewrite bind_ret_l. unfold h at 1.
  unfold Kadai12.insertCell. rewrite find_id_found by auto.
  unfold Kadai12.strcpy. rewrite (proj2 (Nat.ltb_lt _ _) Hname).
  rewrite !bind_ret_l.
  assert (Hmax : Z.of_nat (S n) <= INT_MAX).
  { unfold INT_MAX, Kadai12.NUM in *. lia. }
  rewrite wrap32_id by (unfold is_int, INT_MIN, INT_MAX in *; lia).
  replace (Z.of_nat n + 1) with (Z.of_nat (S n)) by lia.
  rewrite (refresh_run _ (S n) sb Hmax) by lia. fold head'.
  rewrite Hl, Nat.min_id. rewrite (take_ge head' (S n)) by lia.
  rewrite bind_ret_l.
  set (ranked := exch_sort total_lt (S n) (head' ++ drop (S n) sb)).
  exists (Kadai12.mkApp head' (Z.of_nat (S n)) ranked), (take (S n) ranked).
  cbn [Kadai12.head Kadai12.count].
  split; [reflexivity|]. split; [reflexivity|].
  split; [rewrite Hl; reflexivity|].
  destruct (exch_sort_spec total_lt total_lt_asym total_lt_trans (S n)
              (head' ++ drop (S n) sb)) as [Hre Hord].
  { rewrite length_app, length_drop. lia. }
  destruct (rearranged_take (S n) _ _ Hre) as [Htake _].
  fold ranked in Htake, Hord. split.
  - rewrite Htake. rewrite take_app_length' by (symmetry; exact Hl).
    reflexivity.
  - intros k1 k2 u v Hk Hu Hv.
    apply lookup_take_Some in Hu as [Hu Hk1].
    apply lookup_take_Some in Hv as [Hv Hk2].
    pose proof (Hord k1 k2 u v ltac:(lia) Hu Hv) as H.
    unfold total_lt in H. apply Z.ltb_ge in H. exact H.
Qed.

Lemma push_known_number_witness :
  exists a' rows,
    Kadai12.push
      (Kadai12.mkApp ([] ++ Kadai12.mkSTUS 1001 "A" 1 2 3 0 :: []) 1
         (replicate Kadai12.NUM (Kadai12.mkSTUS 0 "" 0 0 0 99)))
      (Kadai12.id (Kadai12.mkSTUS 1001 "A" 1 2 3 0)) 1010 "NEW" 4 5 6 =
      Ok (a', [Kadai12.Table1 (Kadai12.head a'); Kadai12.Table2 rows]) /\
    Kadai12.head a' =
      Kadai12.calcSum
        ([] ++ Kadai12.mkSTUS 1001 "A" 1 2 3 0 ::
         Kadai12.mkSTUS 1010 "NEW" 4 5 6 0 :: []) /\
    Kadai12.count a' = Z.of_nat (length (Kadai12.head a')) /\
    rows ≡ₚ Kadai12.head a' /\
    forall k1 k2 u v, (k1 < k2)%nat ->
      rows !! k1 = Some u -> rows !! k2 = Some v ->
      Kadai12.total v <= Kadai12.total u.
Proof.
  apply (push_known_number [] (Kadai12.mkSTUS 1001 "A" 1 2 3 0) []).
  - reflexivity.
  - unfold Kadai12.NUM. simpl. lia.
  - apply length_replicate.
  - unfold Kadai12.NAME_SIZE. simpl. lia.
  - constructor.
Defined.

(** X25: the pop branch of [main] with the name of a student who has
    one behind: from [count] equal to the length of the list, the cell
    behind that student goes, [count] follows the list, and the second
    table shows the students that are left, totals computed, in ranking
    order. *)
Theorem pop_deleted l1 q d l2 cnt sb :
  cnt = Z.of_nat (length (l1 ++ q :: d :: l2)) ->
  (length (l1 ++ q :: d :: l2) <= Kadai12.NUM)%nat ->
  length sb = Kadai12.NUM ->
  (String.length (Kadai12.name q) < Kadai12.NAME_SIZE)%nat ->
  Forall (fun c => Kadai12.name c <> Kadai12.name q) l1 ->
  exists a' rows,
    Kadai12.pop (Kadai12.mkApp (l1 ++ q :: d :: l2) cnt sb)
      (Kadai12.name q) =
      Some (Ok (a', [Kadai12.Say Kadai12.Deleted;
                     Kadai12.Table1 (Kadai12.head a');
                     Kadai12.Table2 rows])) /\
    Kadai12.head a' = Kadai12.calcSum (l1 ++ q :: l2) /\
    Kadai12.count a' = Z.of_nat (length (Kadai12.head a')) /\
    rows ≡ₚ Kadai12.head a' /\
    forall k1 k2 u v, (k1 < k2)%nat ->
      rows !! k1 = Some u -> rows !! k2 = Some v ->
      Kadai12.total v <= Kadai12.total u.
Proof.
  intros -> Hnum Hsb Hname Hl1.
  set (head' := Kadai12.calcSum (l1 ++ q :: l2)).
  set (n := length head').
  assert (Hn : length (l1 ++ q :: d :: l2) = S n).
  { unfold n, head', Kadai12.calcSum.
    rewrite length_fmap, !length_app. simpl. lia. }
  assert (Hpos : (1 <= n)%nat).
  { unfold n, head', Kadai12.calcSum.
    rewrite length_fmap, !length_app. simpl. lia. }
  unfold Kadai12.pop. cbn [Kadai12.head Kadai12.count Kadai12.stub].
  rewrite Hn.
  destruct (Z.leb_spec (Z.of_nat (S n)) 1) as [|_]; [lia|].
  unfold Kadai12.strcpy. rewrite (proj2 (Nat.ltb_lt _ _) Hname).
  assert (Hdel :
    Kadai12.deleteCell (l1 ++ q :: d :: l2) (Kadai12.name q) =
    Some (l1 ++ q :: l2, 1, [Kadai12.Deleted])).
  { unfold Kadai12.deleteCell.
    destruct l1 as [|h l1]; cbn [app]; cbv beta iota.
    - rewrite String.eqb_refl. reflexivity.
    - inversion Hl1 as [|? ? Hh Hl1']; subst.
      rewrite (proj2 (String.eqb_neq _ _) Hh).
      rewrite (delete_after_found (h :: l1) q d l2) by auto. reflexivity. }
  rewrite Hdel.
  change (1 =? 0) with false. cbv beta iota.
  assert (Hmax : Z.of_nat n <= INT_MAX).
  { unfold INT_MAX, Kadai12.NUM in *. lia. }
  rewrite wrap32_id by (unfold is_int, INT_MIN, INT_MAX in *; lia).
  replace (Z.of_nat (S n) - 1) with (Z.of_nat n) by lia.
  rewrite (refresh_run _ n sb Hmax) by lia. fold head'. fold n.
  rewrite Nat.min_id. rewrite (take_ge head' n) by (unfold n; lia).
  rewrite bind_ret_l.
  set (ranked := exch_sort total_lt n (head' ++ drop n sb)).
  exists (Kadai12.mkApp head' (Z.of_nat n) ranked), (take n ranked).
  cbn [Kadai12.head Kadai12.count].
  split; [reflexivity|]. split; [reflexivity|]. split; [reflexivity|].
  destruct (exch_sort_spec total_lt total_lt_asym total_lt_trans n
              (head' ++ drop n sb)) as [Hre Hord].
  { rewrite length_app, length_drop. fold n. lia. }
  destruct (rearranged_take n _ _ Hre) as [Htake _].
  fold ranked in Htake, Hord. split.
  - rewrite Htake. rewrite take_app_length' by reflexivity. reflexivity.
  - intros k1 k2 u v Hk Hu Hv.
    apply lookup_take_Some in Hu as [Hu Hk1].
    apply lookup_take_Some in Hv as [Hv Hk2].
    pose proof (Hord k1 k2 u v ltac:(lia) Hu Hv) as H.
    unfold total_lt in H. apply Z.ltb_ge in H. exact H.
Qed.

Lemma pop_deleted_witness :
  exists a' rows,
    Kadai12.pop
      (Kadai12.mkApp
         ([] ++ Kadai12.mkSTUS 1001 "A" 1 2 3 6 ::
          Kadai12.mkSTUS 1002 "B" 4 5 6 15 :: [])
         2 (replicate Kadai12.NUM (Kadai12.mkSTUS 0 "" 0 0 0 99)))
      (Kadai12.name (Kadai12.mkSTUS 1001 "A" 1 2 3 6)) =
      Some (Ok (a', [Kadai12.Say Kadai12.Deleted;
                     Kadai12.Table1 (Kadai12.head a');
                     Kadai12.Table2 rows])) /\
    Kadai12.head a' =
      Kadai12.calcSum ([] ++ Kadai12.mkSTUS 1001 "A" 1 2 3 6 :: []) /\
    Kadai12.count a' = Z.of_nat (length (Kadai12.head a')) /\
    rows ≡ₚ Kadai12.head a' /\
    forall k1 k2 u v, (k1 < k2)%nat ->
      rows !! k1 = Some u -> rows !! k2 = Some v ->
      Kadai12.total v <= Kadai12.total u.
Proof.
  apply (pop_deleted [] (Kadai12.mkSTUS 1001 "A" 1 2 3 6)
           (Kadai12.mkSTUS 1002 "B" 4 5 6 15) []).
  - reflexivity.
  - unfold Kadai12.NUM. simpl. lia.
  - apply length_replicate.
  - unfold Kadai12.NAME_SIZE. simpl. lia.
  - constructor.
Defined.
